(** * relnext: next/previous link detection, verified against its specification

    A shallow embedding of [src/index.ts].  JavaScript strings are lists of
    UTF-16 code units; regular expressions are kept as syntax trees transcribed
    from the [REGEX] table and run by a backtracking matcher that follows the
    ECMAScript semantics (leftmost match, ordered alternation, greedy and lazy
    quantifiers, back-references, the [i] and [s] flags).  The URL class, the
    [fetch] probe and the logger are the platform: the parser and the probe are
    an interface ([Platform]), the URL record with its getters, its serializer
    and its [searchParams] follow the WHATWG URL standard, and logger calls and
    HEAD probes are recorded in a trace.  The GET request of [fetchHtml] is
    answered by a second interface ([Network]). *)

From Stdlib Require Import String Ascii.
From Stdlib Require Import List NArith ZArith Bool Arith Lia.
Import ListNotations.

(** ** JavaScript strings *)

Module JS.

Definition char := N.
Bind Scope N_scope with char.
Definition jsstring := list char.

(** An ASCII literal as a JavaScript string. *)
Definition js (s : string) : jsstring :=
  map N_of_ascii (list_ascii_of_string s).

Definition dquote : char := 34%N.
Definition squote : char := 39%N.

(** [quoted q s] is [s] between two quote characters [q]. *)
Definition quoted (q : char) (s : jsstring) : jsstring := q :: s ++ [q].

Definition in_range (lo hi c : char) : bool := ((lo <=? c) && (c <=? hi))%N.

Definition is_lower (c : char) : bool := in_range 97 122 c.
Definition is_upper (c : char) : bool := in_range 65 90 c.
Definition is_digit (c : char) : bool := in_range 48 57 c.

(** [\w]: the word characters that [\b] looks at. *)
Definition is_word (c : char) : bool :=
  is_lower c || is_upper c || is_digit c || (c =? 95)%N.

(** LineTerminator: LF, CR, LS, PS. *)
Definition is_line_terminator (c : char) : bool :=
  ((c =? 10) || (c =? 13) || (c =? 8232) || (c =? 8233))%N.

(** WhiteSpace and LineTerminator, the set of [\s] and of [String.prototype.trim]. *)
Definition is_space (c : char) : bool :=
  (in_range 9 13 c || (c =? 32) || (c =? 160) || (c =? 5760)
   || in_range 8192 8202 c || (c =? 8232) || (c =? 8233) || (c =? 8239)
   || (c =? 8287) || (c =? 12288) || (c =? 65279))%N.

(** Canonicalize of a non-unicode, ignore-case pattern.  Every pattern of the
    program is made of ASCII characters and of characters that have no case
    mapping, and Canonicalize never maps a non-ASCII character to an ASCII one,
    so only the ASCII letters are folded. *)
Definition canon (c : char) : char := if is_lower c then (c - 32)%N else c.

Definition swapcase (c : char) : char :=
  if is_lower c then (c - 32)%N else if is_upper c then (c + 32)%N else c.

Fixpoint eqs (a b : jsstring) : bool :=
  match a, b with
  | [], [] => true
  | x :: a', y :: b' => (x =? y)%N && eqs a' b'
  | _, _ => false
  end.

(** Truthiness of a string: every string but the empty one. *)
Definition truthy (s : jsstring) : bool :=
  match s with [] => false | _ => true end.

Fixpoint trimStart (s : jsstring) : jsstring :=
  match s with
  | c :: t => if is_space c then trimStart t else s
  | [] => []
  end.

Definition trimEnd (s : jsstring) : jsstring := rev (trimStart (rev s)).

Definition trim (s : jsstring) : jsstring := trimEnd (trimStart s).

End JS.
Export JS.

(** ** Regular expressions *)

Module RegExp.

Inductive citem :=
| One (c : char)
| Range (lo hi : char)
| Space      (* \s *)
| NonSpace   (* \S *)
| Digit.     (* \d *)

Inductive regex :=
| Eps
| Chr (c : char)
| Cls (neg : bool) (items : list citem)
| Dot
| Seq (r1 r2 : regex)
| Alt (r1 r2 : regex)
| Star (greedy : bool) (r : regex)
| Grp (i : nat) (r : regex)
| Bref (i : nat)
| Bol
| Eol
| Wordb.

Record flags := Flags { ignoreCase : bool; dotAll : bool }.

(** A pattern object: the flags that change what matches, the pattern, and
    the flags [g] and [y], which change where [exec] and [test] start and make
    them write [lastIndex]. *)
Record RegExp := MkRegExp {
  re_flags : flags;
  re_body : regex;
  global : bool;
  sticky : bool
}.

(** A pattern without [g] and [y], and one with [g]. *)
Notation Re f b := (MkRegExp f b false false).
Notation ReG f b := (MkRegExp f b true false).

(** Whether [exec] and [test] read and write the [lastIndex] of the pattern. *)
Definition usesLastIndex (re : RegExp) : bool := global re || sticky re.

(** Derived syntax. *)
Definition Lit (s : string) : regex := fold_right (fun c r => Seq (Chr c) r) Eps (js s).
Definition Plus (greedy : bool) (r : regex) : regex := Seq r (Star greedy r).
Definition Opt (r : regex) : regex := Alt r Eps.
Definition Cat (l : list regex) : regex := fold_right Seq Eps l.
Fixpoint Alts (l : list regex) : regex :=
  match l with
  | [] => Eps
  | [r] => r
  | r :: l' => Alt r (Alts l')
  end.

(** The state of a match attempt: the character before the current position
    (for [^] and [\b]), the input still to read, and the captures so far,
    most recent first. *)
Record mstate := MState {
  behind : option char;
  rest : jsstring;
  caps : list (nat * jsstring)
}.

Fixpoint cap_get (i : nat) (l : list (nat * jsstring)) : option jsstring :=
  match l with
  | [] => None
  | (j, v) :: l' => if Nat.eqb i j then Some v else cap_get i l'
  end.

Definition eqc (f : flags) (a b : char) : bool :=
  if ignoreCase f then (canon a =? canon b)%N else (a =? b)%N.

Definition in_item (f : flags) (x : char) (it : citem) : bool :=
  match it with
  | One c => eqc f c x
  | Range lo hi =>
      in_range lo hi x || (ignoreCase f && in_range lo hi (swapcase x))
  | Space => is_space x
  | NonSpace => negb (is_space x)
  | Digit => is_digit x
  end.

Definition in_class (f : flags) (neg : bool) (items : list citem) (x : char) : bool :=
  xorb neg (existsb (in_item f x) items).

Definition step (x : char) (t : jsstring) (s : mstate) : mstate :=
  MState (Some x) t (caps s).

Definition word_before (s : mstate) : bool :=
  match behind s with Some c => is_word c | None => false end.

Definition word_after (s : mstate) : bool :=
  match rest s with c :: _ => is_word c | [] => false end.

(** [strip f t s]: read [t] (a captured text) at the front of [s]. *)
Fixpoint strip (f : flags) (t s : jsstring) (p : option char)
  : option (option char * jsstring) :=
  match t with
  | [] => Some (p, s)
  | c :: t' =>
      match s with
      | x :: s' => if eqc f c x then strip f t' s' (Some x) else None
      | [] => None
      end
  end.

(** A quantifier [r*] or [r*?] whose body is matched by [body]: at most [n]
    further iterations.  An iteration that consumes nothing is rejected, as in
    RepeatMatcher, so [S (length (rest s))] rounds are always enough.
    RepeatMatcher also clears the captures of the body before each
    iteration; that is left out, since the program reads no group that
    stands inside a quantified part. *)
Fixpoint repeat (body : (mstate -> option mstate) -> mstate -> option mstate)
  (greedy : bool) (k : mstate -> option mstate) (n : nat) (s : mstate)
  : option mstate :=
  match n with
  | O => k s
  | S n' =>
      let again (_ : unit) :=
        body (fun s' =>
                if length (rest s') <? length (rest s)
                then repeat body greedy k n' s' else None) s in
      if greedy then
        match again tt with
        | Some e => Some e
        | None => k s
        end
      else
        match k s with
        | Some e => Some e
        | None => again tt
        end
  end.

(** The matcher, in continuation-passing style: [m f r k s] matches [r] at
    [s] and hands every way of doing so, in priority order, to [k] until [k]
    accepts one. *)
Fixpoint m (f : flags) (r : regex) (k : mstate -> option mstate) (s : mstate)
  {struct r} : option mstate :=
  match r with
  | Eps => k s
  | Chr c =>
      match rest s with
      | x :: t => if eqc f c x then k (step x t s) else None
      | [] => None
      end
  | Cls neg items =>
      match rest s with
      | x :: t => if in_class f neg items x then k (step x t s) else None
      | [] => None
      end
  | Dot =>
      match rest s with
      | x :: t =>
          if dotAll f || negb (is_line_terminator x) then k (step x t s) else None
      | [] => None
      end
  | Seq r1 r2 => m f r1 (m f r2 k) s
  | Alt r1 r2 =>
      match m f r1 k s with
      | Some e => Some e
      | None => m f r2 k s
      end
  | Star greedy r1 => repeat (m f r1) greedy k (S (length (rest s))) s
  | Grp i r1 =>
      m f r1 (fun s' =>
                k (MState (behind s') (rest s')
                     ((i, firstn (length (rest s) - length (rest s')) (rest s))
                        :: caps s'))) s
  | Bref i =>
      match cap_get i (caps s) with
      | None => k s
      | Some t =>
          match strip f t (rest s) (behind s) with
          | Some (p, s') => k (MState p s' (caps s))
          | None => None
          end
      end
  | Bol => match behind s with None => k s | Some _ => None end
  | Eol => match rest s with [] => k s | _ :: _ => None end
  | Wordb => if xorb (word_before s) (word_after s) then k s else None
  end.

(** One match: the text before it, the matched text, the text after it, the
    character just before that text, and the captures. *)
Record rmatch := RMatch {
  m_before : jsstring;
  m_text : jsstring;
  m_after : jsstring;
  m_last : option char;
  m_caps : list (nat * jsstring)
}.

Definition group (i : nat) (x : rmatch) : option jsstring := cap_get i (m_caps x).

(** RegExpBuiltinExec without the sticky flag: the leftmost position of [s]
    at which the pattern matches; [p] is the character before [s] and [before]
    the text already passed, reversed. *)
Fixpoint search (re : RegExp) (before : jsstring) (p : option char) (s : jsstring)
  : option rmatch :=
  match m (re_flags re) (re_body re) Some (MState p s []) with
  | Some e =>
      Some (RMatch (rev before) (firstn (length s - length (rest e)) s)
              (rest e) (behind e) (caps e))
  | None =>
      match s with
      | [] => None
      | x :: t => search re (x :: before) (Some x) t
      end
  end.

(** [str.match(re)] and [re.exec(str)] for a pattern without the [g] and [y]
    flags. *)
Definition exec (re : RegExp) (s : jsstring) : option rmatch := search re [] None s.

(** [re.test(str)] for a pattern without the [g] and [y] flags. *)
Definition test (re : RegExp) (s : jsstring) : bool :=
  match exec re s with Some _ => true | None => false end.

(** [str.matchAll(re)] for a pattern with the [g] flag: the successive
    matches, each search starting where the previous match ended, and one
    character further after an empty match. *)
Fixpoint matchAll_from (n : nat) (re : RegExp) (before : jsstring)
  (p : option char) (s : jsstring) : list rmatch :=
  match n with
  | O => []
  | S n' =>
      match search re before p s with
      | None => []
      | Some x =>
          x :: match m_text x, m_after x with
               | [], [] => []
               | [], c :: t =>
                   matchAll_from n' re (c :: rev (m_before x)) (Some c) t
               | _ :: _, t =>
                   matchAll_from n' re (rev (m_text x) ++ rev (m_before x))
                     (m_last x) t
               end
      end
  end.

Definition matchAll (re : RegExp) (s : jsstring) : list rmatch :=
  matchAll_from (S (length s)) re [] None s.

(** The text between two matches: what lies after the end of the previous
    match (of length [skip] from the start) and before match [x]. *)
Fixpoint between (skip : nat) (l : list rmatch) (s : jsstring) : jsstring :=
  match l with
  | [] => skipn skip s
  | x :: l' =>
      skipn skip (m_before x)
        ++ between (length (m_before x) + length (m_text x)) l' s
  end.

(** [str.replace(re, empty)] for a pattern with the [g] flag. *)
Definition removeAll (re : RegExp) (s : jsstring) : jsstring :=
  between 0 (matchAll re s) s.

(** [str.replace(re, empty)] for a pattern without the [g] flag. *)
Definition removeFirst (re : RegExp) (s : jsstring) : jsstring :=
  match exec re s with
  | Some x => m_before x ++ m_after x
  | None => s
  end.

End RegExp.
Export RegExp.

(** ** The pattern table [REGEX]

    The comments quote the patterns of the source, with the double quote
    written [\x22]. *)

Module REGEX.

Definition LitS (s : jsstring) : regex := fold_right (fun c r => Seq (Chr c) r) Eps s.

Definition ws : regex := Cls false [Space].                        (* \s *)
Definition digit : regex := Cls false [Digit].                     (* \d *)
Definition quote : regex := Cls false [One squote; One dquote].    (* ['\x22] *)
Definition notquote : regex := Cls true [One squote; One dquote].  (* [^'\x22] *)
Definition notgt : regex := Cls true [One 62].                     (* [^>] *)
Definition notlt : regex := Cls true [One 60].                     (* [^<] *)

Definition f_plain : flags := Flags false false.
Definition f_i : flags := Flags true false.
Definition f_is : flags := Flags true true.

Inductive Direction := next | prev.

(** [/rel\s*=\s*(['\x22])[^'\x22]*?\bnext\b[^'\x22]*?\1/i] and
    [/rel\s*=\s*(['\x22])[^'\x22]*?\b(prev|previous)\b[^'\x22]*?\1/i] *)
Definition REL (d : Direction) : RegExp :=
  Re f_i
    (Cat [Lit "rel"; Star true ws; Lit "="; Star true ws; Grp 1 quote;
          Star false notquote; Wordb;
          match d with
          | next => Lit "next"
          | prev => Grp 2 (Alt (Lit "prev") (Lit "previous"))
          end;
          Wordb; Star false notquote; Bref 1]).

(** The phrase patterns.
    next: [/^\s*(((Next)\s*(page)?|older|forward)|((次|つぎ)(のページ)?(へ)?)|((下|后)\s*(一)?(页|頁))|(다음)|»|>|→)\s*>*$/i]
    prev: [/^\s*<*(((Prev|Previous)\s*(page)?|older|back)|((前)(のページ)?(へ)?)|((上|前)\s*(一)?(页|頁))|(이전)|«|<|←)\s*$/i] *)
Definition no_peji : regex := LitS [0x306e; 0x30da; 0x30fc; 0x30b8]%N.   (* のページ *)
Definition he : regex := LitS [0x3078]%N.                                (* へ *)
Definition ichi : regex := LitS [0x4e00]%N.                              (* 一 *)
Definition page_han : regex := Alt (LitS [0x9875]%N) (LitS [0x9801]%N).    (* 页|頁 *)

Definition TEXT (d : Direction) : RegExp :=
  Re f_i
    match d with
    | next =>
        Cat [Bol; Star true ws;
             Grp 1 (Alts
               [Grp 2 (Alts [Cat [Grp 3 (Lit "Next"); Star true ws; Opt (Grp 4 (Lit "page"))];
                             Lit "older"; Lit "forward"]);
                Grp 5 (Cat [Grp 6 (Alt (LitS [0x6b21]%N) (LitS [0x3064; 0x304e]%N));
                            Opt (Grp 7 no_peji); Opt (Grp 8 he)]);
                Grp 9 (Cat [Grp 10 (Alt (LitS [0x4e0b]%N) (LitS [0x540e]%N)); Star true ws;
                            Opt (Grp 11 ichi); Grp 12 page_han]);
                Grp 13 (LitS [0xb2e4; 0xc74c]%N);
                LitS [0xbb]%N; Lit ">"; LitS [0x2192]%N]);
             Star true ws; Star true (Lit ">"); Eol]
    | prev =>
        Cat [Bol; Star true ws; Star true (Lit "<");
             Grp 1 (Alts
               [Grp 2 (Alts [Cat [Grp 3 (Alt (Lit "Prev") (Lit "Previous")); Star true ws;
                                  Opt (Grp 4 (Lit "page"))];
                             Lit "older"; Lit "back"]);
                Grp 5 (Cat [Grp 6 (LitS [0x524d]%N); Opt (Grp 7 no_peji); Opt (Grp 8 he)]);
                Grp 9 (Cat [Grp 10 (Alt (LitS [0x4e0a]%N) (LitS [0x524d]%N)); Star true ws;
                            Opt (Grp 11 ichi); Grp 12 page_han]);
                Grp 13 (LitS [0xc774; 0xc804]%N);
                LitS [0xab]%N; Lit "<"; LitS [0x2190]%N]);
             Star true ws; Eol]
    end.

(** [/next/i] and [/prev|previous/i] *)
Definition CLASS_NAME (d : Direction) : RegExp :=
  Re f_i
    match d with
    | next => Lit "next"
    | prev => Alt (Lit "prev") (Lit "previous")
    end.

(** [<li[^>]+class\s*=\s*['\x22][^'\x22]*(?:current|active)[^'\x22]*['\x22][^>]*>] *)
Definition li_current : list regex :=
  [Lit "<li"; Plus true notgt; Lit "class"; Star true ws; Lit "="; Star true ws;
   quote; Star true notquote; Alt (Lit "current") (Lit "active");
   Star true notquote; quote; Star true notgt; Lit ">"].

(** [<a\s+(?<attributes>[^>]+)>] *)
Definition a_open : list regex :=
  [Lit "<a"; Plus true ws; Grp 1 (Plus true notgt); Lit ">"].

(** next: [/<li[^>]+class\s*=\s*['\x22][^'\x22]*(?:current|active)[^'\x22]*['\x22][^>]*>.*?<\/li>\s*<li[^>]*>\s*<a\s+(?<attributes>[^>]+)>/is]
    prev: [/<li[^>]*>\s*<a\s+(?<attributes>[^>]+)>.*?<\/a>\s*<\/li>\s*<li[^>]+class\s*=\s*['\x22][^'\x22]*(?:current|active)[^'\x22]*['\x22][^>]*>/is] *)
Definition PAGINATION_LI (d : Direction) : RegExp :=
  Re f_is
    match d with
    | next =>
        Cat (li_current
             ++ [Star false Dot; Lit "</li>"; Star true ws;
                 Lit "<li"; Star true notgt; Lit ">"; Star true ws]
             ++ a_open)
    | prev =>
        Cat ([Lit "<li"; Star true notgt; Lit ">"; Star true ws]
             ++ a_open
             ++ [Star false Dot; Lit "</a>"; Star true ws; Lit "</li>"; Star true ws]
             ++ li_current)
    end.

(** [(?:<(?:span|a)[^>]+(?:class\s*=\s*['\x22](?:current|active)['\x22]|aria-current\s*=\s*['\x22]page['\x22])|strong)]:
    the alternation is between the whole opening tag and the bare word
    [strong]. *)
Definition current_mark : regex :=
  Alt (Cat [Lit "<"; Alt (Lit "span") (Lit "a"); Plus true notgt;
            Alt (Cat [Lit "class"; Star true ws; Lit "="; Star true ws; quote;
                      Alt (Lit "current") (Lit "active"); quote])
                (Cat [Lit "aria-current"; Star true ws; Lit "="; Star true ws; quote;
                      Lit "page"; quote])])
      (Lit "strong").

(** next: [/(?:...|strong)\s*[^<]*\s*<\/(?:span|a|strong)>\s*<a\s+(?<attributes>[^>]+)>/i]
    prev: [/<a\s+(?<attributes>[^>]+)>.*?<\/a>\s*(?:...|strong)\s*[^<]*/i] *)
Definition PAGINATION_FALLBACK (d : Direction) : RegExp :=
  Re f_i
    match d with
    | next =>
        Cat ([current_mark; Star true ws; Star true notlt; Star true ws;
              Lit "</"; Alts [Lit "span"; Lit "a"; Lit "strong"]; Lit ">"; Star true ws]
             ++ a_open)
    | prev =>
        Cat (a_open
             ++ [Star false Dot; Lit "</a>"; Star true ws; current_mark;
                 Star true ws; Star true notlt])
    end.

(** [/<(?:a|link)\s+(?<attributes>[^>]*?)>/gi] *)
Definition POTENTIAL_LINK_TAGS : RegExp :=
  ReG f_i (Cat [Lit "<"; Alt (Lit "a") (Lit "link"); Plus true ws;
               Grp 1 (Star false notgt); Lit ">"]).

(** [/<a\s+(?<attributes>[^>]+)>(?<innerText>.*?)<\/a>/gis] *)
Definition ANCHOR_TAG : RegExp :=
  ReG f_is (Cat (a_open ++ [Grp 2 (Star false Dot); Lit "</a>"])).

(** [/<a\s+(?<attributes>[^>]+)>/gi] *)
Definition ANCHOR_TAG_START : RegExp := ReG f_i (Cat a_open).

(** [/<(?:div|nav|ul)[^>]+(?:class|id)\s*=\s*['\x22][^'\x22]*(?:pagination|pager|page-nav)[^'\x22]*['\x22][^>]*>(?<containerHtml>[\s\S]*?)<\/(?:div|nav|ul)>/gi] *)
Definition PAGINATION_CONTAINER : RegExp :=
  ReG f_i
    (Cat [Lit "<"; Alts [Lit "div"; Lit "nav"; Lit "ul"]; Plus true notgt;
          Alt (Lit "class") (Lit "id"); Star true ws; Lit "="; Star true ws;
          quote; Star true notquote;
          Alts [Lit "pagination"; Lit "pager"; Lit "page-nav"];
          Star true notquote; quote; Star true notgt; Lit ">";
          Grp 1 (Star false (Cls false [Space; NonSpace]));
          Lit "</"; Alts [Lit "div"; Lit "nav"; Lit "ul"]; Lit ">"]).

(** [/<img[^>]+>/gi] *)
Definition IMG_TAG : RegExp := ReG f_i (Cat [Lit "<img"; Plus true notgt; Lit ">"]).

(** [/^(.*[/\-_])(\d+)$/] *)
Definition PATH_PAGE_NUMBER : RegExp :=
  Re f_plain
    (Cat [Bol; Grp 1 (Seq (Star true Dot) (Cls false [One 47; One 45; One 95]));
          Grp 2 (Plus true digit); Eol]).

(** [/<[^>]+>/g] *)
Definition HTML_TAGS : RegExp := ReG f_plain (Cat [Lit "<"; Plus true notgt; Lit ">"]).

(** [/&[a-z]+;|&#[0-9]+;|&#x[0-9a-f]+;/gi] *)
Definition HTML_ENTITIES : RegExp :=
  ReG f_i
    (Alts [Cat [Lit "&"; Plus true (Cls false [Range 97 122]); Lit ";"];
           Cat [Lit "&#"; Plus true (Cls false [Range 48 57]); Lit ";"];
           Cat [Lit "&#x"; Plus true (Cls false [Range 48 57; Range 97 102]); Lit ";"]]).

(** The names of the named groups. *)
Definition attributes : nat := 1.
Definition innerText : nat := 2.
Definition containerHtml : nat := 1.
Definition value : nat := 2.

(** The pattern [/\/$/] of [pathname.replace]. *)
Definition TRAILING_SLASH : RegExp := Re f_plain (Seq (Lit "/") Eol).

End REGEX.
Export REGEX.

(** ** Numbers

    A page number is a JavaScript Number.  The model keeps it as an integer:
    [parseInt], [+ 1], [- 1], [> 0] and [String] are exact on the integers of
    magnitude below 2^53, and the theorems on the arithmetic are stated for
    those. *)

Module Number.

Definition safe (n : Z) : Prop := (Z.abs n < 2 ^ 53)%Z.

Fixpoint takeDigits (s : jsstring) : jsstring :=
  match s with
  | c :: t => if is_digit c then c :: takeDigits t else []
  | [] => []
  end.

Definition digitsValue (ds : jsstring) : Z :=
  fold_left (fun acc c => (10 * acc + (Z.of_N c - 48))%Z) ds 0%Z.

(** [parseInt(s, 10)]: leading white space is skipped, then an optional sign,
    then the longest run of decimal digits; [None] is NaN. *)
Definition parseInt (s : jsstring) : option Z :=
  let s1 := trimStart s in
  let (neg, s2) :=
    match s1 with
    | 45%N :: t => (true, t)
    | 43%N :: t => (false, t)
    | _ => (false, s1)
    end in
  match takeDigits s2 with
  | [] => None
  | ds => Some (if neg then (- digitsValue ds)%Z else digitsValue ds)
  end.

Fixpoint digitsOf (fuel : nat) (n : N) (acc : jsstring) : jsstring :=
  match fuel with
  | O => acc
  | S fuel' =>
      let acc' := (48 + n mod 10)%N :: acc in
      if (n <? 10)%N then acc' else digitsOf fuel' (n / 10)%N acc'
  end.

Definition decimal (n : N) : jsstring := digitsOf (S (N.to_nat (N.log2 n))) n [].

(** [String(n)] of an integer. *)
Definition String (n : Z) : jsstring :=
  match n with
  | Zneg p => 45%N :: decimal (Npos p)
  | _ => decimal (Z.to_N n)
  end.

End Number.

(** ** The URL record of the WHATWG URL standard *)

Module URL.

Inductive upath :=
| Opaque (s : jsstring)
| Segments (l : list jsstring).

(** A URL record.  The host is kept serialized; [None] is the null host. *)
Record t := Make {
  scheme : jsstring;
  username : jsstring;
  password : jsstring;
  host : option jsstring;
  port : option N;
  path : upath;
  query : option jsstring;
  fragment : option jsstring
}.

(** URL path serializer. *)
Definition serializePath (p : upath) : jsstring :=
  match p with
  | Opaque s => s
  | Segments l => concat (map (fun seg => js "/" ++ seg) l)
  end.

Definition authority (u : t) : jsstring :=
  match host u with
  | None => []
  | Some h =>
      js "//"
      ++ (if truthy (username u) || truthy (password u)
          then username u
               ++ (if truthy (password u) then js ":" ++ password u else [])
               ++ js "@"
          else [])
      ++ h
      ++ match port u with Some p => js ":" ++ Number.decimal p | None => [] end
  end.

(** URL serializer: the [href] getter and [toString()]. *)
Definition href (u : t) : jsstring :=
  scheme u ++ js ":"
  ++ authority u
  ++ match host u, path u with
     | None, Segments ([] :: _ :: _) => js "/."
     | _, _ => []
     end
  ++ serializePath (path u)
  ++ match query u with Some q => js "?" ++ q | None => [] end
  ++ match fragment u with Some f => js "#" ++ f | None => [] end.

Definition pathname (u : t) : jsstring := serializePath (path u).

Definition search (u : t) : jsstring :=
  match query u with
  | Some (c :: q) => js "?" ++ c :: q
  | _ => []
  end.

Definition hash (u : t) : jsstring :=
  match fragment u with
  | Some (c :: f) => js "#" ++ c :: f
  | _ => []
  end.

Definition isSpecial (s : jsstring) : bool :=
  existsb (eqs s) [js "ftp"; js "http"; js "https"; js "ws"; js "wss"].

(** Serialization of a tuple origin. *)
Definition tupleOrigin (u : t) : jsstring :=
  scheme u ++ js "://"
  ++ match host u with Some h => h | None => [] end
  ++ match port u with Some p => js ":" ++ Number.decimal p | None => [] end.

Definition withQuery (u : t) (q : option jsstring) : t :=
  Make (scheme u) (username u) (password u) (host u) (port u) (path u) q (fragment u).

End URL.

(** ** UTF-8 and percent-encoding, as [application/x-www-form-urlencoded] uses them *)

Module Encoding.

Definition byte := N.
Definition REPLACEMENT : N := 0xFFFD.

Definition is_high_surrogate (c : N) : bool := in_range 0xD800 0xDBFF c.
Definition is_low_surrogate (c : N) : bool := in_range 0xDC00 0xDFFF c.

(** A JavaScript string as scalar values: a surrogate pair is one code point,
    a lone surrogate becomes U+FFFD. *)
Fixpoint toScalars (s : jsstring) : list N :=
  match s with
  | [] => []
  | c :: t =>
      if is_high_surrogate c then
        match t with
        | d :: t' =>
            if is_low_surrogate d
            then (0x10000 + (c - 0xD800) * 0x400 + (d - 0xDC00))%N :: toScalars t'
            else REPLACEMENT :: toScalars t
        | [] => [REPLACEMENT]
        end
      else if is_low_surrogate c then REPLACEMENT :: toScalars t
      else c :: toScalars t
  end.

Definition ofScalar (cp : N) : jsstring :=
  if (cp <? 0x10000)%N then [cp]
  else [(0xD800 + (cp - 0x10000) / 0x400)%N; (0xDC00 + (cp - 0x10000) mod 0x400)%N].

Definition ofScalars (l : list N) : jsstring := concat (map ofScalar l).

Definition utf8_encode1 (cp : N) : list byte :=
  if (cp <? 0x80)%N then [cp]
  else if (cp <? 0x800)%N then [(0xC0 + cp / 64)%N; (0x80 + cp mod 64)%N]
  else if (cp <? 0x10000)%N then
    [(0xE0 + cp / 4096)%N; (0x80 + (cp / 64) mod 64)%N; (0x80 + cp mod 64)%N]
  else
    [(0xF0 + cp / 262144)%N; (0x80 + (cp / 4096) mod 64)%N;
     (0x80 + (cp / 64) mod 64)%N; (0x80 + cp mod 64)%N].

Definition utf8_encode (s : jsstring) : list byte :=
  concat (map utf8_encode1 (toScalars s)).

(** The decoder's state while inside a sequence: code point so far, bytes
    still needed, and the bounds of the next byte. *)
Record pending := Pending { p_cp : N; p_needed : nat; p_lower : N; p_upper : N }.

Inductive first_byte :=
| Emit (cp : N)
| Lead (p : pending).

Definition classify (b : byte) : first_byte :=
  if (b <? 0x80)%N then Emit b
  else if in_range 0xC2 0xDF b then Lead (Pending (b - 0xC0) 1 0x80 0xBF)
  else if in_range 0xE0 0xEF b then
    Lead (Pending (b - 0xE0) 2 (if (b =? 0xE0)%N then 0xA0 else 0x80)
            (if (b =? 0xED)%N then 0x9F else 0xBF))
  else if in_range 0xF0 0xF4 b then
    Lead (Pending (b - 0xF0) 3 (if (b =? 0xF0)%N then 0x90 else 0x80)
            (if (b =? 0xF4)%N then 0x8F else 0xBF))
  else Emit REPLACEMENT.

(** UTF-8 decode without BOM, with U+FFFD for every error; the byte that
    breaks a sequence is read again as a first byte. *)
Fixpoint utf8_decode_from (st : option pending) (bs : list byte) : list N :=
  match bs with
  | [] => match st with Some _ => [REPLACEMENT] | None => [] end
  | b :: bs' =>
      let fresh :=
        match classify b with
        | Emit cp => cp :: utf8_decode_from None bs'
        | Lead p => utf8_decode_from (Some p) bs'
        end in
      match st with
      | None => fresh
      | Some p =>
          if in_range (p_lower p) (p_upper p) b then
            let cp := (p_cp p * 64 + (b - 0x80))%N in
            match p_needed p with
            | S (S n) => utf8_decode_from (Some (Pending cp (S n) 0x80 0xBF)) bs'
            | _ => cp :: utf8_decode_from None bs'
            end
          else REPLACEMENT :: fresh
      end
  end.

Definition utf8_decode (bs : list byte) : jsstring :=
  ofScalars (utf8_decode_from None bs).

Definition hexval (b : byte) : option N :=
  if is_digit b then Some (b - 48)%N
  else if in_range 65 70 b then Some (b - 55)%N
  else if in_range 97 102 b then Some (b - 87)%N
  else None.

Fixpoint percent_decode (bs : list byte) : list byte :=
  match bs with
  | [] => []
  | b :: t =>
      if (b =? 37)%N then
        match t with
        | h :: t1 =>
            match hexval h, t1 with
            | Some x, l :: t2 =>
                match hexval l with
                | Some y => (16 * x + y)%N :: percent_decode t2
                | None => b :: percent_decode t
                end
            | _, _ => b :: percent_decode t
            end
        | [] => [b]
        end
      else b :: percent_decode t
  end.

Definition hexdigit (n : N) : byte := if (n <? 10)%N then (48 + n)%N else (55 + n)%N.

(** The urlencoded percent-encode set leaves the ASCII alphanumerics and
    [*], [-], [.], [_] alone; a space becomes [+]. *)
Definition unreserved (b : byte) : bool :=
  is_lower b || is_upper b || is_digit b
  || (b =? 42)%N || (b =? 45)%N || (b =? 46)%N || (b =? 95)%N.

Definition encode_byte (b : byte) : jsstring :=
  if unreserved b then [b]
  else if (b =? 32)%N then [43%N]
  else [37%N; hexdigit (b / 16); hexdigit (b mod 16)].

Definition urlencode (s : jsstring) : jsstring :=
  concat (map encode_byte (utf8_encode s)).

End Encoding.

(** ** URLSearchParams *)

Module URLSearchParams.
Import Encoding.

Definition t := list (jsstring * jsstring).

Fixpoint splitOn (sep : N) (cur : jsstring) (s : jsstring) : list jsstring :=
  match s with
  | [] => [rev cur]
  | c :: s' =>
      if (c =? sep)%N then rev cur :: splitOn sep [] s'
      else splitOn sep (c :: cur) s'
  end.

(** The name and the value of one sequence: it is cut at its first [=]. *)
Fixpoint cutAt (sep : N) (s : list byte) : list byte * list byte :=
  match s with
  | [] => ([], [])
  | c :: s' =>
      if (c =? sep)%N then ([], s')
      else let (a, b) := cutAt sep s' in (c :: a, b)
  end.

Definition plusToSpace (bs : list byte) : list byte :=
  map (fun b => if (b =? 43)%N then 32%N else b) bs.

Definition decodeComponent (bs : list byte) : jsstring :=
  utf8_decode (percent_decode (plusToSpace bs)).

(** The urlencoded string parser. *)
Definition parse (input : jsstring) : t :=
  flat_map (fun bytes =>
              match bytes with
              | [] => []
              | _ => let (n, v) := cutAt 61 bytes in
                     [(decodeComponent n, decodeComponent v)]
              end)
           (splitOn 38 [] (utf8_encode input)).

(** The urlencoded serializer. *)
Fixpoint serialize (l : t) : jsstring :=
  match l with
  | [] => []
  | [(n, v)] => urlencode n ++ js "=" ++ urlencode v
  | (n, v) :: l' => urlencode n ++ js "=" ++ urlencode v ++ js "&" ++ serialize l'
  end.

(** [params.get(name)]: the value of the first pair named [name]. *)
Fixpoint get (l : t) (name : jsstring) : option jsstring :=
  match l with
  | [] => None
  | (n, v) :: l' => if eqs n name then Some v else get l' name
  end.

Definition remove (l : t) (name : jsstring) : t :=
  filter (fun p => negb (eqs (fst p) name)) l.

(** [params.set(name, value)]: the first pair named [name] takes the value,
    the other pairs of that name are removed; without such a pair one is
    appended. *)
Fixpoint set (l : t) (name value : jsstring) : t :=
  match l with
  | [] => [(name, value)]
  | (n, v) :: l' =>
      if eqs n name then (n, value) :: remove l' name
      else (n, v) :: set l' name value
  end.

(** [url.searchParams] of a freshly parsed URL. *)
Definition ofURL (u : URL.t) : t :=
  match URL.query u with
  | Some q => parse q
  | None => []
  end.

(** The update steps that follow a change of the list: the URL's query
    becomes the serialization, or null when that is empty. *)
Definition update (u : URL.t) (l : t) : URL.t :=
  URL.withQuery u (match serialize l with [] => None | q => Some q end).

End URLSearchParams.

(** ** Effects: logger calls and HEAD probes, recorded in order *)

Inductive level := warn | error.

Inductive event :=
| Logged (l : level) (message : jsstring)
| Head (url : jsstring).

Definition M (A : Type) : Type := (A * list event)%type.

Definition ret {A} (a : A) : M A := (a, []).

Definition bind {A B} (c : M A) (k : A -> M B) : M B :=
  let (a, t1) := c in
  let (b, t2) := k a in
  (b, t1 ++ t2).

Declare Scope m_scope.
Delimit Scope m_scope with M.
Notation "x <- c ;; k" := (bind c (fun x => k))
  (at level 61, c at next level, right associativity) : m_scope.
Notation "c ;;; k" := (bind c (fun _ => k))
  (at level 61, right associativity) : m_scope.
Open Scope m_scope.

Definition result {A} (c : M A) : A := fst c.
Definition trace {A} (c : M A) : list event := snd c.

(** [for (const x of l) { ... }] with a body that either returns a value
    ([Some]) or goes on to the next element ([None]); after the last element
    the function returns null. *)
Fixpoint for_of {A B} (l : list A) (body : A -> M (option B)) : M (option B) :=
  match l with
  | [] => ret None
  | x :: l' =>
      r <- body x ;;
      match r with
      | Some b => ret (Some b)
      | None => for_of l' body
      end
  end.

(** ** Options *)

Inductive Method :=
| rel
| pagination
| text
| className
| aria_label
| alt.

(** [BaseOptions].  An absent [options] object is the record with every field
    absent.  The logger is a sink: [logger] tells whether one is configured,
    and its calls are the [Logged] events of the trace. *)
Record BaseOptions := {
  logger : bool;
  timeout : option N;
  verifyExists : option bool
}.

(** [FindNextOptions].  [classNameRegex] is the pattern object of the caller,
    with whatever flags it was built. *)
Record FindNextOptions := {
  baseOptions :> BaseOptions;
  methods : option (list Method);
  classNameRegex : option RegExp
}.

(** The class test of the className strategy keeps no state between two
    anchors: the built-in patterns have neither [g] nor [y], and a
    [classNameRegex] of the caller has neither.  With one of them
    [classNameRegex.test] starts at the [lastIndex] that the previous test
    left and moves it, and the strategy below, which tests every class
    attribute from its start, does not describe the program. *)
Definition statelessClassName (options : FindNextOptions) : Prop :=
  match classNameRegex options with
  | Some re => usesLastIndex re = false
  | None => True
  end.

Definition noOptions : BaseOptions := Build_BaseOptions false None None.
Definition noFindOptions : FindNextOptions := Build_FindNextOptions noOptions None None.

(** [options?.logger?.(level, message)] *)
Definition log (options : BaseOptions) (l : level) (message : jsstring) : M unit :=
  (tt, if logger options then [Logged l message] else []).

(** ** The platform: the URL parser and the network *)

Class Platform := {
  (** [new URL(input)] and [new URL(input, base)]: the URL record, or the
      message of the TypeError it throws. *)
  URL_new : jsstring -> option jsstring -> URL.t + jsstring;
  (** Whether a HEAD request to the URL is answered with an ok status within
      the timeout. *)
  HEAD_ok : jsstring -> bool
}.

Section Program.

Context {P : Platform}.

(** The [origin] getter: a tuple origin for the special schemes, the origin
    of the URL in the path for [blob:], and the opaque origin [null]
    otherwise. *)
Definition origin (u : URL.t) : jsstring :=
  if eqs (URL.scheme u) (js "blob") then
    match URL_new (URL.serializePath (URL.path u)) None with
    | inl pathURL =>
        if eqs (URL.scheme pathURL) (js "http") || eqs (URL.scheme pathURL) (js "https")
        then URL.tupleOrigin pathURL
        else js "null"
    | inr _ => js "null"
    end
  else if URL.isSpecial (URL.scheme u) then URL.tupleOrigin u
  else js "null".

(** *** Attribute extraction *)

(** The pattern built from the template [${attributeName}\s*=\s*(['\x22])(?<value>V)\1]
    with the flag [i], where [V] is [[^\x22']*].
    The attribute names of the program ([href], [class], [id], [aria-label],
    [alt]) contain no pattern syntax, so the name is a literal.  The cache of
    compiled patterns does not change what is computed. *)
Definition attributeRegex (attributeName : jsstring) : RegExp :=
  Re f_i
    (Cat [LitS attributeName; Star true ws; Lit "="; Star true ws;
          Grp 1 (Cls false [One squote; One dquote]);
          Grp value (Star true (Cls true [One dquote; One squote]));
          Bref 1]).

Definition extractAttribute (attributes attributeName : jsstring) : option jsstring :=
  match exec (attributeRegex attributeName) attributes with
  | Some x => group value x
  | None => None
  end.

Definition invalidUrlMessage (href baseUrl message : jsstring) : jsstring :=
  js "Invalid URL '" ++ href ++ js "' for base '" ++ baseUrl ++ js "': " ++ message.

Definition extractAbsoluteHref (attributes baseUrl : jsstring) (options : BaseOptions)
  : M (option jsstring) :=
  match extractAttribute attributes (js "href") with
  | Some href =>
      if truthy href then
        match URL_new href (Some baseUrl) with
        | inl u => ret (Some (URL.href u))
        | inr message =>
            log options warn (invalidUrlMessage href baseUrl message) ;;;
            ret None
        end
      else ret None
  | None => ret None
  end.

(** [if (absoluteUrl) { return absoluteUrl; }] *)
Definition returnIfTruthy (r : option jsstring) : option jsstring :=
  match r with
  | Some u => if truthy u then Some u else None
  | None => None
  end.

Definition resolveAndReturn (attributes baseUrl : jsstring) (options : BaseOptions)
  : M (option jsstring) :=
  absoluteUrl <- extractAbsoluteHref attributes baseUrl options ;;
  ret (returnIfTruthy absoluteUrl).

(** [match.groups?.name], with the empty string treated as absent where the
    source tests [!name]. *)
Definition truthyGroup (i : nat) (x : rmatch) : option jsstring :=
  match group i x with
  | Some s => if truthy s then Some s else None
  | None => None
  end.

(** *** The six strategies

    Each strategy is a [for ... of] loop over the matches of a pattern; the
    body of the loop is named after the strategy. *)

Definition relCandidate (baseUrl : jsstring) (relRegex : RegExp)
  (options : BaseOptions) (x : rmatch) : M (option jsstring) :=
  match truthyGroup attributes x with
  | None => ret None
  | Some attributes =>
      if test relRegex attributes
      then resolveAndReturn attributes baseUrl options
      else ret None
  end.

Definition findLinkByRel (html baseUrl : jsstring) (relRegex : RegExp)
  (options : BaseOptions) : M (option jsstring) :=
  for_of (matchAll POTENTIAL_LINK_TAGS html) (relCandidate baseUrl relRegex options).

(** [containerHtml.match(re)] followed by the resolution of the captured
    attributes; [None] lets the caller go on. *)
Definition tryRule (containerHtml baseUrl : jsstring) (re : RegExp)
  (options : BaseOptions) : M (option jsstring) :=
  match exec re containerHtml with
  | Some x =>
      match truthyGroup attributes x with
      | Some attributes => resolveAndReturn attributes baseUrl options
      | None => ret None
      end
  | None => ret None
  end.

Definition paginationCandidate (baseUrl : jsstring) (liRegex fallbackRegex : RegExp)
  (options : BaseOptions) (x : rmatch) : M (option jsstring) :=
  match truthyGroup containerHtml x with
  | None => ret None
  | Some containerHtml =>
      r <- tryRule containerHtml baseUrl liRegex options ;;
      match r with
      | Some u => ret (Some u)
      | None => tryRule containerHtml baseUrl fallbackRegex options
      end
  end.

Definition findLinkByPaginationStructure (html baseUrl : jsstring)
  (liRegex fallbackRegex : RegExp) (options : BaseOptions) : M (option jsstring) :=
  for_of (matchAll PAGINATION_CONTAINER html)
    (paginationCandidate baseUrl liRegex fallbackRegex options).

Definition cleanText (innerText : jsstring) : jsstring :=
  trim (removeAll HTML_ENTITIES (removeAll HTML_TAGS innerText)).

Definition textCandidate (baseUrl : jsstring) (textRegex : RegExp)
  (options : BaseOptions) (x : rmatch) : M (option jsstring) :=
  match truthyGroup attributes x, truthyGroup innerText x with
  | Some attributes, Some innerText =>
      let cleanText := cleanText innerText in
      if truthy cleanText then
        if test textRegex cleanText
        then resolveAndReturn attributes baseUrl options
        else ret None
      else ret None
  | _, _ => ret None
  end.

Definition findLinkByText (html baseUrl : jsstring) (textRegex : RegExp)
  (options : BaseOptions) : M (option jsstring) :=
  for_of (matchAll ANCHOR_TAG html) (textCandidate baseUrl textRegex options).

(** [attr && re.test(attr)] *)
Definition attrMatches (attr : option jsstring) (re : RegExp) : bool :=
  match attr with
  | Some a => truthy a && test re a
  | None => false
  end.

Definition classNameCandidate (baseUrl : jsstring) (defaultRegex : RegExp)
  (classNameRegex : option RegExp) (options : BaseOptions) (x : rmatch)
  : M (option jsstring) :=
  match truthyGroup attributes x with
  | None => ret None
  | Some attributes =>
      let classAttr := extractAttribute attributes (js "class") in
      let idAttr := extractAttribute attributes (js "id") in
      if attrMatches classAttr
           (match classNameRegex with Some re => re | None => defaultRegex end)
         || attrMatches idAttr defaultRegex
      then resolveAndReturn attributes baseUrl options
      else ret None
  end.

Definition findLinkByClassName (html baseUrl : jsstring) (defaultRegex : RegExp)
  (classNameRegex : option RegExp) (options : BaseOptions) : M (option jsstring) :=
  for_of (matchAll ANCHOR_TAG_START html)
    (classNameCandidate baseUrl defaultRegex classNameRegex options).

Definition ariaLabelCandidate (baseUrl : jsstring) (textRegex : RegExp)
  (options : BaseOptions) (x : rmatch) : M (option jsstring) :=
  match truthyGroup attributes x with
  | None => ret None
  | Some attributes =>
      let ariaLabelAttr := extractAttribute attributes (js "aria-label") in
      if attrMatches ariaLabelAttr textRegex
      then resolveAndReturn attributes baseUrl options
      else ret None
  end.

Definition findLinkByAriaLabel (html baseUrl : jsstring) (textRegex : RegExp)
  (options : BaseOptions) : M (option jsstring) :=
  for_of (matchAll ANCHOR_TAG_START html) (ariaLabelCandidate baseUrl textRegex options).

Definition imgCandidate (attributes baseUrl : jsstring) (textRegex : RegExp)
  (options : BaseOptions) (img : rmatch) : M (option jsstring) :=
  let altText := extractAttribute (m_text img) (js "alt") in
  match altText with
  | Some a =>
      if truthy a && test textRegex (trim a)
      then resolveAndReturn attributes baseUrl options
      else ret None
  | None => ret None
  end.

Definition altCandidate (baseUrl : jsstring) (textRegex : RegExp)
  (options : BaseOptions) (x : rmatch) : M (option jsstring) :=
  match truthyGroup attributes x, truthyGroup innerText x with
  | Some attributes, Some innerHtml =>
      for_of (matchAll IMG_TAG innerHtml)
        (imgCandidate attributes baseUrl textRegex options)
  | _, _ => ret None
  end.

Definition findLinkByAltText (html baseUrl : jsstring) (textRegex : RegExp)
  (options : BaseOptions) : M (option jsstring) :=
  for_of (matchAll ANCHOR_TAG html) (altCandidate baseUrl textRegex options).

(** *** The dispatcher *)

Definition defaultMethods : list Method :=
  [rel; pagination; text; className; aria_label; alt].

(** The dispatch table [strategies]. *)
Definition strategies (html baseUrl : jsstring) (direction : Direction)
  (options : FindNextOptions) (method : Method) : M (option jsstring) :=
  match method with
  | rel => findLinkByRel html baseUrl (REL direction) options
  | pagination =>
      findLinkByPaginationStructure html baseUrl (PAGINATION_LI direction)
        (PAGINATION_FALLBACK direction) options
  | text => findLinkByText html baseUrl (TEXT direction) options
  | className =>
      findLinkByClassName html baseUrl (CLASS_NAME direction)
        (classNameRegex options) options
  | aria_label => findLinkByAriaLabel html baseUrl (TEXT direction) options
  | alt => findLinkByAltText html baseUrl (TEXT direction) options
  end.

(** [options?.methods ?? [...]] *)
Definition effectiveMethods (options : FindNextOptions) : list Method :=
  match methods options with
  | Some l => l
  | None => defaultMethods
  end.

Definition findLink (html baseUrl : jsstring) (direction : Direction)
  (options : FindNextOptions) : M (option jsstring) :=
  for_of (effectiveMethods options) (fun method =>
    url <- strategies html baseUrl direction options method ;;
    ret (returnIfTruthy url)).

Definition findNext (html baseUrl : jsstring) (options : FindNextOptions)
  : M (option jsstring) :=
  findLink html baseUrl next options.

Definition findPrev (html baseUrl : jsstring) (options : FindNextOptions)
  : M (option jsstring) :=
  findLink html baseUrl prev options.

(** *** URL pattern inference *)

(** A HEAD request, bounded by the timeout; a failure of any kind is [false]. *)
Definition urlExists (url : jsstring) (options : BaseOptions) : M bool :=
  (HEAD_ok url, [Head url]).

(** [options?.verifyExists === false || (await urlExists(newUrl, options))] *)
Definition verified (newUrl : jsstring) (options : BaseOptions) : M bool :=
  match verifyExists options with
  | Some false => ret true
  | _ => urlExists newUrl options
  end.

Definition adjacent (direction : Direction) (n : Z) : Z :=
  match direction with
  | next => (n + 1)%Z
  | prev => (n - 1)%Z
  end.

(** The loop over [page], [p], [index]: the first key whose value is a
    non-empty string that [parseInt] reads as a number. *)
Fixpoint findTarget (params : URLSearchParams.t) (keys : list jsstring)
  : option (jsstring * Z) :=
  match keys with
  | [] => None
  | key :: keys' =>
      match URLSearchParams.get params key with
      | Some value =>
          if truthy value then
            match Number.parseInt value with
            | Some num => Some (key, num)
            | None => findTarget params keys'
            end
          else findTarget params keys'
      | None => findTarget params keys'
      end
  end.

Definition pageKeys : list jsstring := [js "page"; js "p"; js "index"].

Definition findUrlByQueryParam (url : jsstring) (direction : Direction)
  (options : BaseOptions) : M (option jsstring) :=
  match URL_new url None with
  | inr message =>
      log options warn (js "Invalid URL provided to findUrlByQueryParam: " ++ message) ;;;
      ret None
  | inl urlObject =>
      let params := URLSearchParams.ofURL urlObject in
      match findTarget params pageKeys with
      | Some (targetKey, currentValue) =>
          let newNumber := adjacent direction currentValue in
          if (0 <? newNumber)%Z then
            let params' := URLSearchParams.set params targetKey (Number.String newNumber) in
            let newUrl := URL.href (URLSearchParams.update urlObject params') in
            ok <- verified newUrl options ;;
            if ok then ret (Some newUrl) else ret None
          else ret None
      | None => ret None
      end
  end.

Definition findUrlByPathSegment (url : jsstring) (direction : Direction)
  (options : BaseOptions) : M (option jsstring) :=
  match URL_new url None with
  | inr message =>
      log options warn (js "Invalid URL provided to findUrlByPathSegment: " ++ message) ;;;
      ret None
  | inl urlObject =>
      let pathname := removeFirst TRAILING_SLASH (URL.pathname urlObject) in
      match exec PATH_PAGE_NUMBER pathname with
      | Some pathMatch =>
          match truthyGroup 1 pathMatch, truthyGroup 2 pathMatch with
          | Some prefix, Some currentNumberStr =>
              match Number.parseInt currentNumberStr with
              | Some currentNumber =>
                  let newNumber := adjacent direction currentNumber in
                  if (0 <? newNumber)%Z then
                    let newPath := prefix ++ Number.String newNumber in
                    let newUrl := origin urlObject ++ newPath
                                  ++ URL.search urlObject ++ URL.hash urlObject in
                    ok <- verified newUrl options ;;
                    if ok then ret (Some newUrl) else ret None
                  else ret None
              | None => ret None
              end
          | _, _ => ret None
          end
      | None => ret None
      end
  end.

Definition findUrlByPattern (url : jsstring) (direction : Direction)
  (options : BaseOptions) : M (option jsstring) :=
  urlByQuery <- findUrlByQueryParam url direction options ;;
  match returnIfTruthy urlByQuery with
  | Some u => ret (Some u)
  | None =>
      urlByPath <- findUrlByPathSegment url direction options ;;
      ret (returnIfTruthy urlByPath)
  end.

Definition findNextByUrl (url : jsstring) (options : BaseOptions) : M (option jsstring) :=
  findUrlByPattern url next options.

Definition findPrevByUrl (url : jsstring) (options : BaseOptions) : M (option jsstring) :=
  findUrlByPattern url prev options.

End Program.

(** ** Fetching a document

    [fetchHtml] sees the network through [fetch(url, { signal })], whose
    signal aborts the request after the timeout.  The [Network] below answers
    a GET request to a URL under a timeout (in milliseconds) with what the
    function reads of the response, or with the message of the error that
    [fetch] rejects with (a network failure, an invalid URL, the abort). *)

Module Response.

(** [ok], [status], [statusText], [headers.get("content-type")] ([None] is
    null) and [text()]: the body, or the message of the error it rejects
    with. *)
Record t := Make {
  ok : bool;
  status : N;
  statusText : jsstring;
  contentType : option jsstring;
  text : jsstring + jsstring
}.

End Response.

Class Network := {
  fetch : jsstring -> N -> Response.t + jsstring
}.

Definition DEFAULT_TIMEOUT_MS : N := 8000.

(** [str.startsWith(sub)] and [str.includes(sub)] *)
Fixpoint startsWith (s sub : jsstring) : bool :=
  match sub, s with
  | [], _ => true
  | c :: sub', x :: s' => (c =? x)%N && startsWith s' sub'
  | _ :: _, [] => false
  end.

Fixpoint includes (s sub : jsstring) : bool :=
  startsWith s sub
  || match s with
     | [] => false
     | _ :: s' => includes s' sub
     end.

Section Fetching.

Context {net : Network}.

(** [options?.timeout ?? DEFAULT_TIMEOUT_MS] *)
Definition effectiveTimeout (options : BaseOptions) : N :=
  match timeout options with
  | Some ms => ms
  | None => DEFAULT_TIMEOUT_MS
  end.

Definition fetchHtml (url : jsstring) (options : BaseOptions) : M (option jsstring) :=
  let failed message :=
    log options error (js "Error fetching or parsing " ++ url ++ js ": " ++ message) ;;;
    ret None in
  let notHtml :=
    log options warn (js "URL " ++ url ++ js " did not return HTML content.") ;;;
    ret None in
  match fetch url (effectiveTimeout options) with
  | inr message => failed message
  | inl response =>
      if negb (Response.ok response) then
        log options warn
          (js "Failed to fetch " ++ url ++ js ": "
           ++ Number.String (Z.of_N (Response.status response)) ++ js " "
           ++ Response.statusText response) ;;;
        ret None
      else
        match Response.contentType response with
        | None => notHtml
        | Some contentType =>
            if negb (truthy contentType) || negb (includes contentType (js "text/html"))
            then notHtml
            else
              match Response.text response with
              | inl html => ret (Some html)
              | inr message => failed message
              end
        end
  end.

End Fetching.

(** ** A model of the platform for the examples

    The URL parser below is the basic URL parser of the WHATWG standard on a
    fragment of its inputs: [http] and [https] URLs whose host is a lower- or
    upper-case domain name (no credentials, port, IP address, percent-escape
    or IDNA label) and references relative to such a base.  On that fragment
    it strips, splits, removes dot segments and percent-encodes as the
    standard does.  An input the standard rejects is answered with the
    message [invalid]; an input outside the fragment is answered with the
    message [unsupported], and no example below uses one. *)

Module Model.
Import Encoding.

Definition invalid : jsstring := js "Invalid URL".
Definition unsupported : jsstring := js "outside the modelled fragment".

Definition is_c0_or_space (c : char) : bool := (c <=? 32)%N.
Definition is_tab_or_newline (c : char) : bool := ((c =? 9) || (c =? 10) || (c =? 13))%N.

Fixpoint dropWhile (p : char -> bool) (s : jsstring) : jsstring :=
  match s with
  | c :: t => if p c then dropWhile p t else s
  | [] => []
  end.

Definition preprocess (s : jsstring) : jsstring :=
  filter (fun c => negb (is_tab_or_newline c))
    (rev (dropWhile is_c0_or_space (rev (dropWhile is_c0_or_space s)))).

(** [span p s]: the longest prefix without a character of [p], and the rest. *)
Fixpoint span (p : char -> bool) (s : jsstring) : jsstring * jsstring :=
  match s with
  | c :: t => if p c then ([], s) else let (a, b) := span p t in (c :: a, b)
  | [] => ([], [])
  end.

Definition is_alpha (c : char) : bool := is_lower c || is_upper c.
Definition lower (c : char) : char := if is_upper c then (c + 32)%N else c.

(** The scheme of an input that starts with one, lower-cased, and what
    follows its colon. *)
Definition takeScheme (s : jsstring) : option (jsstring * jsstring) :=
  match s with
  | c :: _ =>
      if is_alpha c then
        let (a, b) :=
          span (fun x => negb (is_alpha x || is_digit x
                               || (x =? 43) || (x =? 45) || (x =? 46))%N) s in
        match b with
        | 58%N :: r => Some (map lower a, r)
        | _ => None
        end
      else None
  | [] => None
  end.

Definition c0_set (b : N) : bool := ((b <? 32) || (126 <? b))%N.
Definition fragment_set (b : N) : bool :=
  (c0_set b || (b =? 32) || (b =? 34) || (b =? 60) || (b =? 62) || (b =? 96))%N.
Definition query_set (b : N) : bool :=
  (c0_set b || (b =? 32) || (b =? 34) || (b =? 35) || (b =? 60) || (b =? 62))%N.
Definition special_query_set (b : N) : bool := (query_set b || (b =? 39))%N.
Definition path_set (b : N) : bool :=
  (query_set b || (b =? 63) || (b =? 94) || (b =? 96) || (b =? 123) || (b =? 125))%N.

Definition percentEncode (set : N -> bool) (s : jsstring) : jsstring :=
  concat (map (fun b => if set b then [37%N; hexdigit (b / 16); hexdigit (b mod 16)]
                        else [b])
              (utf8_encode s)).

Definition is_slash (c : char) : bool := ((c =? 47) || (c =? 92))%N.

Fixpoint splitSlash (cur : jsstring) (s : jsstring) : list jsstring :=
  match s with
  | [] => [rev cur]
  | c :: s' =>
      if is_slash c then rev cur :: splitSlash [] s'
      else splitSlash (c :: cur) s'
  end.

Definition lowerAll (s : jsstring) : jsstring := map lower s.

Definition singleDot (seg : jsstring) : bool :=
  eqs seg (js ".") || eqs (lowerAll seg) (js "%2e").

Definition doubleDot (seg : jsstring) : bool :=
  existsb (eqs (lowerAll seg)) [js ".."; js ".%2e"; js "%2e."; js "%2e%2e"].

Definition shorten (path : list jsstring) : list jsstring := removelast path.

(** The path state, one raw segment at a time. *)
Fixpoint pathState (path : list jsstring) (segs : list jsstring) : list jsstring :=
  match segs with
  | [] => path
  | seg :: segs' =>
      let isLast := match segs' with [] => true | _ => false end in
      let path' :=
        if doubleDot seg then
          (if isLast then shorten path ++ [[]] else shorten path)
        else if singleDot seg then
          (if isLast then path ++ [[]] else path)
        else path ++ [percentEncode path_set seg] in
      pathState path' segs'
  end.

(** What follows the authority, or a relative reference from its path on:
    the raw path, the query and the fragment. *)
Definition cutTail (s : jsstring) : jsstring * option jsstring * option jsstring :=
  let (beforeHash, h) := span (fun c => (c =? 35)%N) s in
  let (p, q) := span (fun c => (c =? 63)%N) beforeHash in
  (p,
   match q with _ :: q' => Some (percentEncode special_query_set q') | [] => None end,
   match h with _ :: h' => Some (percentEncode fragment_set h') | [] => None end).

Definition forbiddenHost (c : char) : bool :=
  ((c <=? 32) || (c =? 60) || (c =? 62) || (c =? 93) || (c =? 94) || (c =? 124)
   || (c =? 127))%N.

Definition labelOk (l : jsstring) : bool :=
  truthy l
  && forallb (fun c => is_lower c || is_digit c || (c =? 45)%N) l
  && negb (eqs (firstn 4 l) (js "xn--")).

Definition parseHost (h : jsstring) : jsstring + jsstring :=
  match h with
  | [] => inr invalid
  | _ =>
      if existsb forbiddenHost h then inr invalid
      else
        let labels := URLSearchParams.splitOn 46 [] (lowerAll h) in
        if forallb labelOk labels
           && match last labels [] with c :: _ => is_lower c | [] => false end
        then inl (lowerAll h)
        else inr unsupported
  end.

(** From the authority on. *)
Definition parseAuthority (scheme s : jsstring) : URL.t + jsstring :=
  let (auth, after) :=
    span (fun c => is_slash c || (c =? 63)%N || (c =? 35)%N) (dropWhile is_slash s) in
  match parseHost auth with
  | inr e => inr e
  | inl h =>
      let '(p, q, f) :=
        cutTail (match after with c :: t => if is_slash c then t else after | [] => [] end) in
      inl (URL.Make scheme [] [] (Some h) None
             (URL.Segments (pathState [] (splitSlash [] p))) q f)
  end.

Definition isHttp (scheme : jsstring) : bool :=
  eqs scheme (js "http") || eqs scheme (js "https").

Definition parseAbsolute (s : jsstring) : URL.t + jsstring :=
  match takeScheme s with
  | Some (scheme, r) =>
      if isHttp scheme then parseAuthority scheme r else inr unsupported
  | None => inr invalid
  end.

Definition basePath (b : URL.t) : list jsstring :=
  match URL.path b with
  | URL.Segments l => l
  | URL.Opaque _ => []
  end.

(** The relative state and the states it leads to. *)
Definition parseRelative (s : jsstring) (b : URL.t) : URL.t + jsstring :=
  let mk path q f :=
    URL.Make (URL.scheme b) [] [] (URL.host b) None (URL.Segments path) q f in
  match s with
  | [] => inl (mk (basePath b) (URL.query b) None)
  | c :: t =>
      if is_slash c then
        match t with
        | d :: _ =>
            if is_slash d then parseAuthority (URL.scheme b) t
            else let '(p, q, f) := cutTail t in
                 inl (mk (pathState [] (splitSlash [] p)) q f)
        | [] => inl (mk (pathState [] (splitSlash [] [])) None None)
        end
      else if (c =? 63)%N then
        let '(_, q, f) := cutTail s in inl (mk (basePath b) q f)
      else if (c =? 35)%N then
        let '(_, _, f) := cutTail s in inl (mk (basePath b) (URL.query b) f)
      else
        let '(p, q, f) := cutTail s in
        inl (mk (pathState (shorten (basePath b)) (splitSlash [] p)) q f)
  end.

Definition URL_new (input : jsstring) (base : option jsstring) : URL.t + jsstring :=
  let s := preprocess input in
  match base with
  | None => parseAbsolute s
  | Some baseUrl =>
      match parseAbsolute (preprocess baseUrl) with
      | inr e => inr e
      | inl b =>
          match takeScheme s with
          | Some (scheme, r) =>
              if isHttp scheme then
                match r with
                | c :: d :: _ =>
                    if is_slash c && is_slash d then parseAuthority scheme r
                    else if eqs scheme (URL.scheme b) then inr unsupported
                    else parseAuthority scheme r
                | _ =>
                    if eqs scheme (URL.scheme b) then inr unsupported
                    else parseAuthority scheme r
                end
              else inr unsupported
          | None => parseRelative s b
          end
      end
  end.

(** The platform with a given answer to HEAD requests. *)
Definition platform (head : jsstring -> bool) : Platform :=
  Build_Platform URL_new head.

(** A network on which every URL exists, and one on which none does. *)
Definition online : Platform := platform (fun _ => true).
Definition offline : Platform := platform (fun _ => false).

End Model.

(** ** Definitions used to state the properties *)

(** The first result that is not not-found. *)
Fixpoint firstFound {A} (l : list (option A)) : option A :=
  match l with
  | [] => None
  | Some a :: _ => Some a
  | None :: l' => firstFound l'
  end.

(** The elements a short-circuiting scan looks at: all of them up to and
    including the first that yields a result. *)
Fixpoint scanned {A B} (outcome : A -> option B) (l : list A) : list A :=
  match l with
  | [] => []
  | x :: l' =>
      x :: match outcome x with
           | Some _ => []
           | None => scanned outcome l'
           end
  end.

(** The matcher of a pattern that reads one character satisfying [p]. *)
Definition single (p : char -> bool) (k : mstate -> option mstate) (s : mstate)
  : option mstate :=
  match rest s with
  | x :: t => if p x then k (step x t s) else None
  | [] => None
  end.

(** The greedy quantifier over such a pattern, as a recursion on the input:
    the longest run first, then the shorter ones. *)
Fixpoint greedyRun (p : char -> bool) (k : mstate -> option mstate)
  (pv : option char) (cs : list (nat * jsstring)) (s : jsstring) : option mstate :=
  match s with
  | x :: t =>
      if p x then
        match greedyRun p k (Some x) cs t with
        | Some e => Some e
        | None => k (MState pv s cs)
        end
      else k (MState pv s cs)
  | [] => k (MState pv [] cs)
  end.

(** The character before the position reached after reading [v]. *)
Definition lastOr (pv : option char) (v : jsstring) : option char :=
  match rev v with
  | c :: _ => Some c
  | [] => pv
  end.

(** *** The wording of the patterns that the properties speak of *)

(** Neither quote character. *)
Definition noQuote (x : char) : bool := negb ((x =? squote)%N || (x =? dquote)%N).

(** [c] and [x] are the same character once case is ignored. *)
Definition foldsTo (c x : char) : bool := (canon c =? canon x)%N.

(** A path without its trailing slash, when it has one. *)
Definition stripTrailingSlash (p : jsstring) : jsstring :=
  match rev p with
  | 47%N :: r => rev r
  | _ => p
  end.

(** One of [/], [-], [_]. *)
Definition isSep (c : char) : bool := ((c =? 47) || (c =? 45) || (c =? 95))%N.

(** A path is a page path when it is a prefix that ends in [/], [-] or [_]
    followed by one or more digits, up to its end.  The [.] of the pattern
    reads no line terminator, so the prefix has none before its last
    character. *)
Definition pagePath (p prefix digits : jsstring) : Prop :=
  p = prefix ++ digits
  /\ digits <> [] /\ forallb is_digit digits = true
  /\ exists pre c,
       prefix = pre ++ [c] /\ isSep c = true
       /\ forallb (fun x => negb (is_line_terminator x)) pre = true.

(** The same split, computed from the left the way the greedy [.*] finds
    it: the deepest position first. *)
Fixpoint splitFrom (s : jsstring) : option (jsstring * jsstring) :=
  match s with
  | [] => None
  | x :: t =>
      match (if negb (is_line_terminator x) then splitFrom t else None) with
      | Some (a, ds) => Some (x :: a, ds)
      | None =>
          if isSep x && truthy t && forallb is_digit t then Some ([x], t) else None
      end
  end.

(** The end of [PATH_PAGE_NUMBER]: [(\d+)$]. *)
Definition digitsRest : regex := Seq (Grp 2 (Plus true digit)) (Seq Eol Eps).

(** What follows [.*] in [PATH_PAGE_NUMBER] when the whole path is [p]. *)
Definition pathK (p : jsstring) : mstate -> option mstate :=
  m f_plain (Cls false [One 47; One 45; One 95])
    (fun s' =>
       m f_plain digitsRest Some
         (MState (behind s') (rest s')
            ((1, firstn (length p - length (rest s')) p) :: caps s'))).

(** The characters [.] reads without the [s] flag. *)
Definition anyChar (x : char) : bool := false || negb (is_line_terminator x).

Definition pathCaps (p : jsstring) (r : option (jsstring * jsstring))
  : option (list (nat * jsstring)) :=
  match r with
  | Some (_, ds) => Some [(2, ds); (1, firstn (length p - length ds) p)]
  | None => None
  end.

(** *** The wording of query-parameter and path-segment detection *)

(** The value of a parameter that is present and that [parseInt] reads as an
    integer. *)
Definition integerParam (params : URLSearchParams.t) (key : jsstring) : option Z :=
  match URLSearchParams.get params key with
  | Some v => Number.parseInt v
  | None => None
  end.

(** The target parameter: [page], else [p], else [index], the first of them
    that is present with a value that parses as an integer. *)
Definition specTarget (params : URLSearchParams.t) : option (jsstring * Z) :=
  match integerParam params (js "page") with
  | Some n => Some (js "page", n)
  | None =>
      match integerParam params (js "p") with
      | Some n => Some (js "p", n)
      | None =>
          match integerParam params (js "index") with
          | Some n => Some (js "index", n)
          | None => None
          end
      end
  end.

(** The URL with its target parameter set to [n]. *)
Definition queryCandidate (u : URL.t) (key : jsstring) (n : Z) : jsstring :=
  URL.href
    (URLSearchParams.update u
       (URLSearchParams.set (URLSearchParams.ofURL u) key (Number.String n))).

(** Origin, new path, query string and fragment, one after the other. *)
Definition pathCandidate {P : Platform} (u : URL.t) (prefix : jsstring) (n : Z) : jsstring :=
  origin u ++ (prefix ++ Number.String n) ++ URL.search u ++ URL.hash u.

(** The outcome of a candidate that has passed the lower bound: it is
    returned when verification is off or the probe confirms it, and dropped
    otherwise. *)
Definition verifiedCandidate {P : Platform} (candidate : jsstring) (options : BaseOptions)
  : M (option jsstring) :=
  ok <- verified candidate options ;;
  ret (if ok then Some candidate else None).

(** The pieces of a query string between its [&], and the name of a piece. *)
Definition queryPieces (q : jsstring) : list jsstring := URLSearchParams.splitOn 38 [] q.

Definition pieceName (piece : jsstring) : jsstring := fst (URLSearchParams.cutAt 61 piece).

(** Two query strings that differ in nothing but the pieces of the target
    parameter: piece by piece, either both name the target or they are the
    same text. *)
Fixpoint sameButTarget (key : jsstring) (a b : list jsstring) : bool :=
  match a, b with
  | [], [] => true
  | x :: a', y :: b' =>
      ((eqs (pieceName x) key && eqs (pieceName y) key) || eqs x y)
      && sameButTarget key a' b'
  | _, _ => false
  end.

Definition named (key : jsstring) (p : jsstring * jsstring) : bool := eqs (fst p) key.

(** *** The wording of the link strategies *)

(** The attribute text of a tag of the document: the [attributes] group of
    a match of a pattern on the document, or on the inner markup of one of
    its pagination containers. *)
Definition occursIn (html attributes : jsstring) : Prop :=
  (exists re x,
      In x (matchAll re html) /\ truthyGroup REGEX.attributes x = Some attributes)
  \/ (exists x container re y,
        In x (matchAll PAGINATION_CONTAINER html)
        /\ truthyGroup containerHtml x = Some container
        /\ exec re container = Some y
        /\ truthyGroup REGEX.attributes y = Some attributes).

(** [u] is what the link resolver makes of the attribute text of a tag of
    the document. *)
Definition resolved {P : Platform} (html baseUrl : jsstring) (options : BaseOptions)
  (u : jsstring) : Prop :=
  exists attributes,
    occursIn html attributes
    /\ result (resolveAndReturn attributes baseUrl options) = Some u.

(** A rule of the pagination strategy that would go on to the later matches
    of its pattern inside the container, until one resolves. *)
Definition tryRuleEvery {P : Platform} (containerHtml baseUrl : jsstring) (re : RegExp)
  (options : BaseOptions) : M (option jsstring) :=
  for_of (matchAll re containerHtml) (fun x =>
    match truthyGroup attributes x with
    | Some attributes => resolveAndReturn attributes baseUrl options
    | None => ret None
    end).

(** *** The wording of an attempt

    The structurally matching candidates of a strategy: the attribute texts
    whose link the strategy resolves as long as none has resolved, one entry
    for each time it does so, in the order of the scan. *)






(** *** Inputs of the examples *)

Definition withLogger : FindNextOptions :=
  Build_FindNextOptions (Build_BaseOptions true None None) None None.

Definition onlyMethods (l : list Method) : FindNextOptions :=
  Build_FindNextOptions noOptions (Some l) None.

Definition unverified : BaseOptions := Build_BaseOptions false None (Some false).

Definition exampleBase : jsstring := js "https://example.com".

(** [<a href="http://invalid url.com">Next</a>] *)
Definition invalidAnchor : jsstring :=
  js "<a href=" ++ quoted dquote (js "http://invalid url.com") ++ js ">Next</a>".


(** [data-href="/a" rel="next" href="/b"] *)
Definition shadowedHref : jsstring :=
  js "data-href=" ++ quoted dquote (js "/a") ++ js " rel=" ++ quoted dquote (js "next")
  ++ js " href=" ++ quoted dquote (js "/b").

(** Two list items marked current inside one container, each followed by an
    item with a link; only the second link resolves. *)
Definition twoOccurrences : jsstring :=
  js "<li class='current'>1</li><li><a href='http://invalid url'>2</a></li>"
  ++ js "<li class='current'>1</li><li><a href='/page/2'>2</a></li>".

(** *** Well-formed strings and the text of a serialized parameter *)

(** A Unicode scalar value. *)
Definition isScalar (cp : N) : bool :=
  ((cp <? 0xD800) || ((0xE000 <=? cp) && (cp <? 0x110000)))%N.

(** A string without lone surrogates: the code units of scalar values. *)
Definition wellFormed (s : jsstring) : Prop :=
  exists cps, forallb isScalar cps = true /\ s = Encoding.ofScalars cps.

Definition wellFormedPair (p : jsstring * jsstring) : Prop :=
  wellFormed (fst p) /\ wellFormed (snd p).

Definition isByte (b : N) : bool := (b <? 256)%N.

(** What the serializer writes for a component: ASCII, and neither [&] nor [=]. *)
Definition plainChar (c : N) : bool :=
  ((c <? 128) && negb (c =? 38) && negb (c =? 61))%N.

(** The text of one pair in a serialized list. *)
Definition piece (p : jsstring * jsstring) : jsstring :=
  Encoding.urlencode (fst p) ++ js "=" ++ Encoding.urlencode (snd p).

(** Every code point that a pending state of the decoder can still lead to
    is a scalar value. *)
Definition okPending (p : Encoding.pending) : Prop :=
  match Encoding.p_needed p with
  | 1 =>
      forall b,
        (Encoding.p_lower p <= b <= Encoding.p_upper p)%N ->
        isScalar (Encoding.p_cp p * 64 + (b - 0x80))%N = true
  | 2 =>
      forall b b',
        (Encoding.p_lower p <= b <= Encoding.p_upper p)%N -> (0x80 <= b' <= 0xBF)%N ->
        isScalar ((Encoding.p_cp p * 64 + (b - 0x80)) * 64 + (b' - 0x80))%N = true
  | 3 =>
      forall b b' b'',
        (Encoding.p_lower p <= b <= Encoding.p_upper p)%N -> (0x80 <= b' <= 0xBF)%N ->
        (0x80 <= b'' <= 0xBF)%N ->
        isScalar (((Encoding.p_cp p * 64 + (b - 0x80)) * 64 + (b' - 0x80)) * 64
                  + (b'' - 0x80))%N = true
  | _ => False
  end.

Definition okFirst (x : Encoding.first_byte) : Prop :=
  match x with
  | Encoding.Emit cp => isScalar cp = true
  | Encoding.Lead p => okPending p
  end.

(** *** The wording of a match

    [matches f r s s']: the pattern [r] reads from the state [s] to the state
    [s'].  It is the relation whose members the matcher enumerates. *)
Inductive matches (f : flags) : regex -> mstate -> mstate -> Prop :=
| matches_Eps s : matches f Eps s s
| matches_Chr c x t s :
    rest s = x :: t -> eqc f c x = true -> matches f (Chr c) s (step x t s)
| matches_Cls neg items x t s :
    rest s = x :: t -> in_class f neg items x = true ->
    matches f (Cls neg items) s (step x t s)
| matches_Dot x t s :
    rest s = x :: t -> dotAll f || negb (is_line_terminator x) = true ->
    matches f Dot s (step x t s)
| matches_Seq r1 r2 s s1 s2 :
    matches f r1 s s1 -> matches f r2 s1 s2 -> matches f (Seq r1 r2) s s2
| matches_Alt_left r1 r2 s s' : matches f r1 s s' -> matches f (Alt r1 r2) s s'
| matches_Alt_right r1 r2 s s' : matches f r2 s s' -> matches f (Alt r1 r2) s s'
| matches_Star_done g r s : matches f (Star g r) s s
| matches_Star_more g r s s1 s2 :
    matches f r s s1 -> length (rest s1) < length (rest s) ->
    matches f (Star g r) s1 s2 -> matches f (Star g r) s s2
| matches_Grp i r s s' :
    matches f r s s' ->
    matches f (Grp i r) s
      (MState (behind s') (rest s')
         ((i, firstn (length (rest s) - length (rest s')) (rest s)) :: caps s'))
| matches_Bref_unset i s : cap_get i (caps s) = None -> matches f (Bref i) s s
| matches_Bref i t p s' s :
    cap_get i (caps s) = Some t -> strip f t (rest s) (behind s) = Some (p, s') ->
    matches f (Bref i) s (MState p s' (caps s))
| matches_Bol s : behind s = None -> matches f Bol s s
| matches_Eol s : rest s = [] -> matches f Eol s s
| matches_Wordb s :
    xorb (word_before s) (word_after s) = true -> matches f Wordb s s.

(** [v] is a piece of [whole]. *)
Definition occurs (v whole : jsstring) : Prop := exists a b, whole = a ++ v ++ b.

(** The same text once case is ignored. *)
Definition sameLetters (a b : jsstring) : Prop :=
  Forall2 (fun x y => foldsTo x y = true) a b.

(** A state of a match attempt on [whole]: what is still to read is an end
    of [whole], and every capture is a piece of it. *)
Definition inside (whole : jsstring) (s : mstate) : Prop :=
  (exists a, whole = a ++ rest s)
  /\ forall i v, In (i, v) (caps s) -> occurs v whole.

(** *** The wording of the further properties *)

(** The attribute names that the program looks up. *)
Definition attributeNames : list jsstring :=
  [js "href"; js "class"; js "id"; js "aria-label"; js "alt"].

(** The words that the [rel] patterns look for. *)
Definition relWord (d : Direction) (w : jsstring) : Prop :=
  match d with
  | next => sameLetters (js "next") w
  | prev => sameLetters (js "prev") w \/ sameLetters (js "previous") w
  end.

(** An ASCII letter. *)
Definition isLetter (c : char) : bool := is_lower c || is_upper c.

(** A closing [div], [nav] or [ul] tag, in any letter case. *)
Definition closingTag (w : jsstring) : Prop :=
  sameLetters (js "</div>") w \/ sameLetters (js "</nav>") w \/ sameLetters (js "</ul>") w.

(** The end of [PAGINATION_CONTAINER]: [<\/(?:div|nav|ul)>]. *)
Definition containerEnd : regex :=
  Cat [Lit "</"; Alts [Lit "div"; Lit "nav"; Lit "ul"]; Lit ">"].

(** A [content-type] that holds [text/html]. *)
Definition isHtml (contentType : option jsstring) : bool :=
  match contentType with
  | Some t => includes t (js "text/html")
  | None => false
  end.

(** [fetch] rejects, or the response is an HTML document whose [text()]
    rejects: the two ways into the [catch] of [fetchHtml]. *)
Definition rejected {net : Network} (url : jsstring) (options : BaseOptions) : Prop :=
  (exists message, fetch url (effectiveTimeout options) = inr message)
  \/ (exists response message,
        fetch url (effectiveTimeout options) = inl response
        /\ Response.ok response = true
        /\ isHtml (Response.contentType response) = true
        /\ Response.text response = inr message).

Definition isProbe (ev : event) : bool :=
  match ev with
  | Head _ => true
  | Logged _ _ => false
  end.

(** A platform whose parser also reads [url], as [record]. *)
Definition withURL (P : Platform) (url : jsstring) (record : URL.t) : Platform :=
  Build_Platform
    (fun input base =>
       match base with
       | None => if eqs input url then inl record else URL_new input None
       | Some _ => URL_new input base
       end)
    HEAD_ok.

(** A network that answers every request with the same response. *)
Definition always (response : Response.t + jsstring) : Network :=
  Build_Network (fun _ _ => response).

Definition htmlResponse (contentType : jsstring) (body : jsstring) : Response.t :=
  Response.Make true 200 (js "OK") (Some contentType) (inl body).

(** ** The trace monad and the loops *)

Section Loops.

Variables A B : Type.

Lemma result_bind (C D : Type) (c : M C) (k : C -> M D) :
  result (bind c k) = result (k (result c)).
Proof.
  unfold result, bind. destruct c as [a t1]. simpl. destruct (k a); reflexivity.
Qed.

Lemma trace_bind (C D : Type) (c : M C) (k : C -> M D) :
  trace (bind c k) = trace c ++ trace (k (result c)).
Proof.
  unfold result, trace, bind. destruct c as [a t1]. simpl. destruct (k a); reflexivity.
Qed.

Lemma M_eq (C : Type) (c d : M C) :
  result c = result d -> trace c = trace d -> c = d.
Proof.
  destruct c, d; simpl; intros; subst; reflexivity.
Qed.

Lemma for_of_cons (x : A) (l : list A) (body : A -> M (option B)) :
  for_of (x :: l) body
  = match result (body x) with
    | Some b => (Some b, trace (body x))
    | None => (result (for_of l body), trace (body x) ++ trace (for_of l body))
    end.
Proof.
  simpl. unfold bind, result, trace, ret.
  destruct (body x) as [[b|] t]; simpl.
  - rewrite app_nil_r. reflexivity.
  - destruct (for_of l body); reflexivity.
Qed.

Lemma for_of_result (l : list A) (body : A -> M (option B)) :
  result (for_of l body) = firstFound (map (fun x => result (body x)) l).
Proof.
  induction l as [|x l IH]; [reflexivity|].
  rewrite for_of_cons. simpl. destruct (result (body x)); [reflexivity | exact IH].
Qed.

Lemma for_of_trace (l : list A) (body : A -> M (option B)) :
  trace (for_of l body)
  = flat_map (fun x => trace (body x)) (scanned (fun x => result (body x)) l).
Proof.
  induction l as [|x l IH]; [reflexivity|].
  rewrite for_of_cons. simpl. destruct (result (body x)); simpl.
  - rewrite app_nil_r. reflexivity.
  - rewrite IH. reflexivity.
Qed.

Lemma for_of_found (l : list A) (body : A -> M (option B)) (b : B) :
  result (for_of l body) = Some b -> exists x, In x l /\ result (body x) = Some b.
Proof.
  induction l as [|x l IH]; [discriminate|].
  rewrite for_of_cons. destruct (result (body x)) eqn:E; simpl.
  - intros [= <-]. exists x. split; [left; reflexivity | exact E].
  - intros H. destruct (IH H) as [y [Hy Hb]]. exists y. split; [right; exact Hy | exact Hb].
Qed.

Lemma for_of_none (l : list A) (body : A -> M (option B)) :
  (forall x, In x l -> result (body x) = None) -> result (for_of l body) = None.
Proof.
  induction l as [|x l IH]; intros H; [reflexivity|].
  rewrite for_of_cons, (H x (or_introl eq_refl)). simpl.
  apply IH. intros y Hy. apply H. right. exact Hy.
Qed.

(** An element on which the body finds nothing does not stop the loop: the
    result is that of the loop without it. *)
Lemma for_of_skip (l1 l2 : list A) (x : A) (body : A -> M (option B)) :
  result (body x) = None ->
  result (for_of (l1 ++ x :: l2) body) = result (for_of (l1 ++ l2) body).
Proof.
  intros H. rewrite !for_of_result, !map_app. simpl. rewrite H.
  induction (map (fun x0 => result (body x0)) l1) as [|[b|] l IH]; simpl; auto.
Qed.


(** The first result comes from the first element that has one. *)
Lemma firstFound_first (f : A -> option B) (l1 l2 : list A) (x : A) (b : B) :
  (forall y, In y l1 -> f y = None) -> f x = Some b ->
  firstFound (map f (l1 ++ x :: l2)) = Some b.
Proof.
  intros H Hx. induction l1 as [|y l1 IH]; cbn [app map firstFound].
  - rewrite Hx. reflexivity.
  - rewrite (H y (or_introl eq_refl)). apply IH. intros z Hz. apply H. right. exact Hz.
Qed.

Lemma scanned_first (f : A -> option B) (l1 l2 : list A) (x : A) (b : B) :
  (forall y, In y l1 -> f y = None) -> f x = Some b ->
  scanned f (l1 ++ x :: l2) = l1 ++ [x].
Proof.
  intros H Hx. induction l1 as [|y l1 IH]; cbn [app scanned].
  - rewrite Hx. reflexivity.
  - rewrite (H y (or_introl eq_refl)). f_equal.
    apply IH. intros z Hz. apply H. right. exact Hz.
Qed.

Lemma firstFound_none (f : A -> option B) (l : list A) :
  (forall y, In y l -> f y = None) -> firstFound (map f l) = None.
Proof.
  intros H. induction l as [|y l IH]; [reflexivity|]. cbn [map firstFound].
  rewrite (H y (or_introl eq_refl)). apply IH. intros z Hz. apply H. right. exact Hz.
Qed.

End Loops.

(** ** The matcher *)

Section Matcher.

Variable f : flags.

Lemma mstate_eta (s : mstate) : MState (behind s) (rest s) (caps s) = s.
Proof. destruct s; reflexivity. Qed.

Lemma m_Cls neg items k s : m f (Cls neg items) k s = single (in_class f neg items) k s.
Proof. reflexivity. Qed.

Lemma m_Dot k s :
  m f Dot k s = single (fun x => dotAll f || negb (is_line_terminator x)) k s.
Proof. reflexivity. Qed.

Lemma m_Chr c k s : m f (Chr c) k s = single (eqc f c) k s.
Proof. reflexivity. Qed.

(** The fuel of the quantifier never runs out. *)
Lemma repeat_greedy p k n s :
  length (rest s) < n ->
  repeat (single p) true k n s = greedyRun p k (behind s) (caps s) (rest s).
Proof.
  revert s. induction n as [|n IH]; intros s Hn; [lia|].
  destruct s as [pv r cs]. simpl in *. unfold single at 1. simpl.
  destruct r as [|x t]; [reflexivity|].
  simpl. destruct (p x); [|reflexivity].
  assert (Hlt : (length t <? S (length t)) = true) by (apply Nat.ltb_lt; lia).
  unfold step. simpl. rewrite Hlt.
  rewrite IH by (simpl in *; lia). reflexivity.
Qed.

Lemma single_ext p k1 k2 s :
  (forall s', k1 s' = k2 s') -> single p k1 s = single p k2 s.
Proof.
  intros H. unfold single. destruct (rest s); [reflexivity|].
  destruct (p c); [apply H | reflexivity].
Qed.

Lemma repeat_single r p g k n s :
  (forall k' s', m f r k' s' = single p k' s') ->
  repeat (m f r) g k n s = repeat (single p) g k n s.
Proof.
  intros H. revert s. induction n as [|n IH]; intros s; [reflexivity|].
  simpl. rewrite H.
  rewrite (single_ext p _
             (fun s' => if length (rest s') <? length (rest s)
                        then repeat (single p) g k n s' else None)).
  - reflexivity.
  - intros s'. rewrite IH. reflexivity.
Qed.

Lemma m_Star_greedy r p k s :
  (forall k' s', m f r k' s' = single p k' s') ->
  m f (Star true r) k s = greedyRun p k (behind s) (caps s) (rest s).
Proof.
  intros H.
  change (m f (Star true r) k s)
    with (repeat (m f r) true k (S (length (rest s))) s).
  rewrite (repeat_single r p true k _ s H). apply repeat_greedy. lia.
Qed.

Lemma lastOr_cons pv x t : lastOr pv (x :: t) = lastOr (Some x) t.
Proof.
  unfold lastOr. simpl. destruct (rev t); reflexivity.
Qed.

(** A run of characters of [p] that stops at a character outside [p]: when
    the continuation accepts the end of the run, that is the match. *)
Lemma greedyRun_longest p k pv cs v c t e :
  forallb p v = true -> p c = false ->
  k (MState (lastOr pv v) (c :: t) cs) = Some e ->
  greedyRun p k pv cs (v ++ c :: t) = Some e.
Proof.
  revert pv. induction v as [|x v IH]; intros pv Hv Hc Hk; simpl in *.
  - rewrite Hc. exact Hk.
  - apply andb_prop in Hv. destruct Hv as [Hx Hv]. rewrite Hx.
    rewrite (IH (Some x)); auto.
    rewrite <- lastOr_cons with (pv := pv). exact Hk.
Qed.

(** A character outside [p] stops the run at once. *)
Lemma greedyRun_stop p k pv cs c t :
  p c = false -> greedyRun p k pv cs (c :: t) = k (MState pv (c :: t) cs).
Proof. intros H. simpl. rewrite H. reflexivity. Qed.

(** When the continuation accepts only the end of the input, the run has to
    reach it. *)
Lemma greedyRun_to_end p k pv cs s :
  (forall pv' x t, k (MState pv' (x :: t) cs) = None) ->
  greedyRun p k pv cs s
  = if forallb p s then k (MState (lastOr pv s) [] cs) else None.
Proof.
  intros Hk. revert pv. induction s as [|x t IH]; intros pv; simpl.
  - reflexivity.
  - destruct (p x); simpl.
    + rewrite IH, Hk, lastOr_cons.
      destruct (forallb p t); [|reflexivity].
      destruct (k (MState (lastOr (Some x) t) [] cs)); reflexivity.
    + apply Hk.
Qed.

Lemma eqc_refl c : eqc f c c = true.
Proof. unfold eqc. destruct (ignoreCase f); apply N.eqb_refl. Qed.

(** A literal read at the front of the input. *)
Lemma m_LitS t k pv r cs :
  t <> [] ->
  m f (LitS t) k (MState pv (t ++ r) cs) = k (MState (lastOr pv t) r cs).
Proof.
  revert pv. induction t as [|c t IH]; intros pv Ht; [congruence|].
  rewrite lastOr_cons.
  simpl. rewrite eqc_refl. unfold step. simpl.
  destruct t as [|d t'].
  - reflexivity.
  - apply IH. discriminate.
Qed.

(** A literal whose first character is not the next one of the input. *)
Lemma m_LitS_mismatch c t k pv x r cs :
  eqc f c x = false ->
  m f (LitS (c :: t)) k (MState pv (x :: r) cs) = None.
Proof. intros H. simpl. rewrite H. reflexivity. Qed.

End Matcher.

(** ** The patterns of the program *)

Lemma search_eq re before p s :
  search re before p s
  = match m (re_flags re) (re_body re) Some (MState p s []) with
    | Some e =>
        Some (RMatch (rev before) (firstn (length s - length (rest e)) s)
                (rest e) (behind e) (caps e))
    | None =>
        match s with
        | [] => None
        | x :: t => search re (x :: before) (Some x) t
        end
    end.
Proof. destruct s; reflexivity. Qed.

Lemma canon_quote x q : (q = squote \/ q = dquote) -> (canon q =? canon x)%N = (q =? x)%N.
Proof.
  intros Hq. 
  assert (Hc : canon q = q) by (destruct Hq; subst; reflexivity).
  rewrite Hc. unfold canon, is_lower, in_range.
  destruct ((97 <=? x)%N && (x <=? 122)%N) eqn:E; [|reflexivity].
  apply andb_prop in E. destruct E as [E1 E2].
  apply N.leb_le in E1. apply N.leb_le in E2.
  assert (q < 65)%N by (destruct Hq; subst; unfold squote, dquote; lia).
  transitivity false; [apply N.eqb_neq; lia | symmetry; apply N.eqb_neq; lia].
Qed.

Lemma notquote_class x :
  in_class f_i true [One dquote; One squote] x = noQuote x.
Proof.
  unfold in_class, noQuote. cbn [existsb in_item]. unfold eqc. cbn [ignoreCase f_i].
  rewrite (canon_quote x dquote (or_intror eq_refl)), (canon_quote x squote (or_introl eq_refl)).
  rewrite orb_false_r. rewrite (N.eqb_sym dquote), (N.eqb_sym squote).
  rewrite orb_comm. reflexivity.
Qed.

Lemma forallb_same (p q : char -> bool) (l : jsstring) :
  (forall x, p x = q x) -> forallb p l = forallb q l.
Proof.
  intros H. induction l as [|x l IH]; simpl; [reflexivity|]. rewrite H, IH. reflexivity.
Qed.

Lemma firstn_length_diff (v w : jsstring) :
  firstn (length (v ++ w) - length w) (v ++ w) = v.
Proof.
  rewrite length_app. replace (length v + length w - length w) with (length v) by lia.
  rewrite firstn_app, Nat.sub_diag, firstn_all. simpl. apply app_nil_r.
Qed.

Lemma m_Seq f r1 r2 k s : m f (Seq r1 r2) k s = m f r1 (m f r2 k) s.
Proof. reflexivity. Qed.

Lemma m_Grp f i r1 k s :
  m f (Grp i r1) k s
  = m f r1 (fun s' =>
              k (MState (behind s') (rest s')
                   ((i, firstn (length (rest s) - length (rest s')) (rest s))
                      :: caps s'))) s.
Proof. reflexivity. Qed.

Lemma attribute_at name pv q v rest0 :
  name <> [] -> (q = squote \/ q = dquote) -> forallb noQuote v = true ->
  exists e,
    m f_i (re_body (attributeRegex name)) Some
      (MState pv (name ++ js "=" ++ quoted q v ++ rest0) []) = Some e
    /\ cap_get value (caps e) = Some v.
Proof.
  intros Hn Hq Hv. unfold attributeRegex, Cat. simpl re_body. simpl fold_right.
  rewrite m_Seq, m_LitS by exact Hn.
  rewrite m_Seq, (m_Star_greedy f_i ws (in_class f_i false [Space])) by reflexivity.
  change (js "=" ++ quoted q v ++ rest0) with (61%N :: q :: (v ++ [q]) ++ rest0).
  cbn [rest caps behind].
  rewrite greedyRun_stop by reflexivity.
  rewrite m_Seq. 
  change (Lit "=") with (Seq (Chr 61) Eps). rewrite m_Seq, m_Chr. unfold single at 1.
  cbn [rest]. change (eqc f_i 61 61) with true. cbv iota. unfold step. cbn [caps].
  change (m f_i Eps ?k ?s) with (k s).
  assert (Hqs : is_space q = false) by (destruct Hq; subst; reflexivity).
  rewrite m_Seq, (m_Star_greedy f_i ws (in_class f_i false [Space])) by reflexivity.
  cbn [rest caps behind].
  rewrite greedyRun_stop
    by (unfold in_class; cbn [existsb in_item]; rewrite Hqs; reflexivity).
  rewrite m_Seq, m_Grp, m_Cls. unfold single at 1. cbn [rest].
  assert (Hqc : in_class f_i false [One squote; One dquote] q = true)
    by (destruct Hq; subst; reflexivity).
  rewrite Hqc. unfold step. cbn [rest caps behind].
  replace (length (q :: (v ++ [q]) ++ rest0) - length ((v ++ [q]) ++ rest0)) with 1
    by (cbn [length]; lia).
  cbn [firstn].
  rewrite m_Seq, m_Grp.
  rewrite (m_Star_greedy f_i _ (in_class f_i true [One dquote; One squote]))
    by reflexivity.
  cbn [rest caps behind]. rewrite <- app_assoc. cbn [app].
  eexists. split.
  - apply greedyRun_longest.
    + rewrite (forallb_same _ noQuote); [exact Hv | intros x; apply notquote_class].
    + rewrite notquote_class. destruct Hq; subst; reflexivity.
    + cbn [rest caps behind]. rewrite firstn_length_diff.
      change (m f_i (Seq (Bref 1) Eps) Some ?s) with (m f_i (Bref 1) Some s).
      cbn [m caps cap_get value Nat.eqb strip rest]. rewrite eqc_refl. reflexivity.
  - reflexivity.
Qed.

Lemma search_skip_literal fl c0 t R g st pre before pv s :
  (forall x, In x pre -> eqc fl c0 x = false) ->
  search (MkRegExp fl (Seq (LitS (c0 :: t)) R) g st) before pv (pre ++ s)
  = search (MkRegExp fl (Seq (LitS (c0 :: t)) R) g st) (rev pre ++ before)
      (lastOr pv pre) s.
Proof.
  revert before pv. induction pre as [|x pre IH]; intros before pv H.
  - reflexivity.
  - rewrite lastOr_cons. cbn [app]. rewrite search_eq. cbn [re_flags re_body].
    rewrite m_Seq, m_LitS_mismatch by (apply H; left; reflexivity).
    rewrite IH by (intros y Hy; apply H; right; exact Hy).
    cbn [rev]. rewrite <- app_assoc. reflexivity.
Qed.

Lemma extractAttribute_substring c0 name pre q v rest0 :
  (forall x, In x pre -> foldsTo c0 x = false) ->
  (q = squote \/ q = dquote) ->
  forallb noQuote v = true ->
  extractAttribute (pre ++ (c0 :: name) ++ js "=" ++ quoted q v ++ rest0) (c0 :: name)
  = Some v.
Proof.
  intros Hpre Hq Hv. unfold extractAttribute, exec.
  unfold attributeRegex at 1. unfold Cat. cbn [fold_right].
  rewrite search_skip_literal by exact Hpre.
  rewrite search_eq. cbn [re_flags re_body].
  destruct (attribute_at (c0 :: name) (lastOr None pre) q v rest0) as [e [He Hc]];
    [discriminate | exact Hq | exact Hv |].
  unfold attributeRegex, Cat in He. cbn [fold_right re_body] in He. rewrite He.
  exact Hc.
Qed.

Lemma TS_at pv s :
  m f_plain (re_body TRAILING_SLASH) Some (MState pv s [])
  = match s with
    | [x] => if (47 =? x)%N then Some (MState (Some x) [] []) else None
    | _ => None
    end.
Proof.
  destruct s as [|x [|y t]]; cbn -[N.eqb]; unfold eqc; cbn -[N.eqb];
    try reflexivity; destruct (47 =? x)%N; reflexivity.
Qed.

Lemma search_TS_slash r before pv :
  search TRAILING_SLASH before pv (r ++ [47%N])
  = Some (RMatch (rev before ++ r) [47%N] [] (Some 47%N) []).
Proof.
  revert before pv. induction r as [|x r IH]; intros before pv.
  - rewrite search_eq, TS_at. simpl. rewrite app_nil_r. reflexivity.
  - cbn [app]. rewrite search_eq.
    replace (m _ _ _ _) with (@None mstate)
      by (rewrite TS_at; destruct r; reflexivity).
    rewrite IH. cbn [rev]. rewrite <- app_assoc. reflexivity.
Qed.

Lemma search_TS_other r c before pv :
  c <> 47%N -> search TRAILING_SLASH before pv (r ++ [c]) = None.
Proof.
  intros Hc. revert before pv. induction r as [|x r IH]; intros before pv.
  - rewrite search_eq, TS_at. cbn [app].
    destruct (47 =? c)%N eqn:E; [apply N.eqb_eq in E; congruence|].
    rewrite search_eq, TS_at. reflexivity.
  - cbn [app]. rewrite search_eq.
    replace (m _ _ _ _) with (@None mstate)
      by (rewrite TS_at; destruct r; reflexivity).
    apply IH.
Qed.

Lemma removeFirst_TRAILING_SLASH p :
  removeFirst TRAILING_SLASH p = stripTrailingSlash p.
Proof.
  unfold removeFirst, stripTrailingSlash, exec.
  destruct (rev p) as [|c r] eqn:E.
  - apply (f_equal (@rev char)) in E. rewrite rev_involutive in E. subst p. reflexivity.
  - apply (f_equal (@rev char)) in E. rewrite rev_involutive in E. cbn [rev] in E. subst p.
    destruct (N.eq_dec c 47) as [->|Hc].
    + rewrite search_TS_slash. simpl. rewrite app_nil_r. reflexivity.
    + rewrite search_TS_other by exact Hc.
      destruct c as [|pc]; [reflexivity|].
      repeat (destruct pc as [pc|pc|]; try reflexivity). congruence.
Qed.

Lemma digit_class x : in_class f_plain false [Digit] x = is_digit x.
Proof. unfold in_class. simpl. rewrite orb_false_r. reflexivity. Qed.

Lemma sep_class x : in_class f_plain false [One 47; One 45; One 95] x = isSep x.
Proof.
  unfold in_class, isSep. cbn -[N.eqb]. unfold eqc. cbn -[N.eqb].
  rewrite orb_false_r, (N.eqb_sym 47), (N.eqb_sym 45), (N.eqb_sym 95), orb_assoc.
  reflexivity.
Qed.

Lemma digits_to_end pv ds cs :
  m f_plain digitsRest Some (MState pv ds cs)
  = if truthy ds && forallb is_digit ds
    then Some (MState (lastOr pv ds) [] ((2, ds) :: cs))
    else None.
Proof.
  unfold digitsRest, Plus, digit. rewrite m_Seq, m_Grp, m_Seq, m_Cls.
  unfold single. cbn [rest].
  destruct ds as [|x t]; [reflexivity|].
  rewrite digit_class. cbn [truthy forallb andb].
  destruct (is_digit x); [|reflexivity].
  rewrite (m_Star_greedy f_plain _ (in_class f_plain false [Digit])) by reflexivity.
  unfold step. cbn [rest caps behind].
  rewrite greedyRun_to_end by reflexivity.
  rewrite (forallb_same _ is_digit) by apply digit_class.
  destruct (forallb is_digit t); [|reflexivity].
  cbn [rest caps behind m]. rewrite Nat.sub_0_r, firstn_all, lastOr_cons. reflexivity.
Qed.

Lemma m_Bol_start f k r cs : m f Bol k (MState None r cs) = k (MState None r cs).
Proof. reflexivity. Qed.

Lemma path_at0 p :
  m f_plain (re_body PATH_PAGE_NUMBER) Some (MState None p [])
  = greedyRun anyChar (pathK p) None [] p.
Proof.
  unfold PATH_PAGE_NUMBER, Cat. cbn [re_body fold_right].
  rewrite m_Seq, m_Bol_start, m_Seq, m_Grp, m_Seq.
  rewrite (m_Star_greedy f_plain Dot anyChar) by reflexivity.
  reflexivity.
Qed.

Lemma pathK_spec p pv s :
  pathK p (MState pv s [])
  = match s with
    | c :: ds =>
        if isSep c && truthy ds && forallb is_digit ds
        then Some (MState (lastOr (Some c) ds) [] [(2, ds); (1, firstn (length p - length ds) p)])
        else None
    | [] => None
    end.
Proof.
  unfold pathK. rewrite m_Cls. unfold single. cbn [rest].
  destruct s as [|c ds]; [reflexivity|].
  rewrite sep_class. destruct (isSep c); [|reflexivity].
  unfold step. cbn [rest caps behind]. rewrite digits_to_end.
  cbn [andb]. destruct (truthy ds && forallb is_digit ds); reflexivity.
Qed.

Lemma greedy_path p pv s :
  option_map caps (greedyRun anyChar (pathK p) pv [] s) = pathCaps p (splitFrom s).
Proof.
  revert pv. induction s as [|x t IH]; intros pv.
  - cbn [greedyRun]. rewrite pathK_spec. reflexivity.
  - cbn [greedyRun splitFrom]. unfold anyChar at 1. cbn [orb].
    destruct (negb (is_line_terminator x)).
    + specialize (IH (Some x)).
      destruct (greedyRun anyChar (pathK p) (Some x) [] t) as [e|];
        destruct (splitFrom t) as [[a ds]|]; cbn in IH; try discriminate.
      * exact IH.
      * rewrite pathK_spec.
        destruct (isSep x && truthy t && forallb is_digit t); reflexivity.
    + rewrite pathK_spec.
      destruct (isSep x && truthy t && forallb is_digit t); reflexivity.
Qed.

Lemma splitFrom_app s a ds : splitFrom s = Some (a, ds) -> s = a ++ ds.
Proof.
  revert a ds. induction s as [|x t IH]; intros a ds H; [discriminate|].
  cbn [splitFrom] in H.
  destruct (if negb (is_line_terminator x) then splitFrom t else None)
    as [[a' ds']|] eqn:E.
  - injection H as <- <-. destruct (negb (is_line_terminator x)); [|discriminate].
    cbn [app]. f_equal. apply IH. exact E.
  - destruct (isSep x && truthy t && forallb is_digit t); [|discriminate].
    injection H as <- <-. reflexivity.
Qed.

Lemma search_PPN_later before x s :
  search PATH_PAGE_NUMBER before (Some x) s = None.
Proof.
  revert before x. induction s as [|y t IH]; intros before x.
  - reflexivity.
  - rewrite search_eq.
    replace (m _ _ _ _) with (@None mstate) by reflexivity.
    apply IH.
Qed.

Lemma exec_PATH_PAGE_NUMBER p :
  option_map m_caps (exec PATH_PAGE_NUMBER p)
  = match splitFrom p with
    | Some (a, ds) => Some [(2, ds); (1, a)]
    | None => None
    end.
Proof.
  unfold exec. rewrite search_eq. cbn [re_flags]. rewrite path_at0.
  pose proof (greedy_path p None p) as G.
  destruct (greedyRun anyChar (pathK p) None [] p) as [e|].
  - cbn in G. destruct (splitFrom p) as [[a ds]|] eqn:E; [|discriminate].
    cbn [pathCaps] in G. cbn [option_map m_caps]. rewrite G.
    rewrite (splitFrom_app p a ds E) at 1 2.
    rewrite firstn_length_diff. reflexivity.
  - destruct (splitFrom p) as [[a ds]|]; [discriminate|].
    destruct p; [reflexivity|]. rewrite search_PPN_later. reflexivity.
Qed.

Lemma splitFrom_digits ds : forallb is_digit ds = true -> splitFrom ds = None.
Proof.
  induction ds as [|x t IH]; intros H; [reflexivity|].
  cbn [forallb] in H. apply andb_prop in H. destruct H as [Hx Ht].
  cbn [splitFrom]. rewrite (IH Ht).
  assert (isSep x = false) as ->.
  { unfold is_digit, in_range in Hx. apply andb_prop in Hx. destruct Hx as [H1 H2].
    apply N.leb_le in H1. apply N.leb_le in H2. unfold isSep.
    repeat (apply orb_false_intro); apply N.eqb_neq; lia. }
  destruct (negb (is_line_terminator x)); reflexivity.
Qed.

Lemma sep_not_terminator c : isSep c = true -> negb (is_line_terminator c) = true.
Proof.
  unfold isSep, is_line_terminator. intros H.
  apply orb_prop in H. destruct H as [H|H]; [apply orb_prop in H; destruct H as [H|H]|];
    apply N.eqb_eq in H; subst; reflexivity.
Qed.

Lemma splitFrom_pagePath p a ds : splitFrom p = Some (a, ds) <-> pagePath p a ds.
Proof.
  split.
  - revert a ds. induction p as [|x t IH]; intros a ds H; [discriminate|].
    cbn [splitFrom] in H.
    destruct (negb (is_line_terminator x)) eqn:Hx.
    + destruct (splitFrom t) as [[a' ds']|] eqn:E.
      * injection H as <- <-.
        destruct (IH a' ds' eq_refl) as [H1 [H2 [H3 [pre [c [H4 [H5 H6]]]]]]].
        split; [rewrite H1; reflexivity|]. split; [exact H2|]. split; [exact H3|].
        exists (x :: pre), c. split; [rewrite H4; reflexivity|]. split; [exact H5|].
        cbn [forallb]. rewrite Hx, H6. reflexivity.
      * destruct (isSep x) eqn:Hs; [|discriminate].
        destruct (truthy t) eqn:Ht; [|discriminate].
        destruct (forallb is_digit t) eqn:Hd; [|discriminate].
        injection H as <- <-.
        split; [reflexivity|]. split; [destruct t; [discriminate|discriminate]|].
        split; [exact Hd|]. exists [], x. auto.
    + destruct (isSep x) eqn:Hs; [|discriminate].
      rewrite (sep_not_terminator x Hs) in Hx. discriminate.
  - intros [H1 [H2 [H3 [pre [c [H4 [H5 H6]]]]]]]. subst p a.
    induction pre as [|x pre IH].
    + cbn [app splitFrom]. rewrite (splitFrom_digits ds H3), H5, H3.
      destruct (negb (is_line_terminator c)); destruct ds; try congruence; reflexivity.
    + cbn [forallb] in H6. apply andb_prop in H6. destruct H6 as [Hx H6].
      cbn [app splitFrom]. rewrite Hx.
      change (pre ++ [c]) with (pre ++ [c]) in IH.
      rewrite (IH H6). reflexivity.
Qed.

Lemma parseInt_digits ds :
  ds <> [] -> forallb is_digit ds = true ->
  Number.parseInt ds = Some (Number.digitsValue ds).
Proof.
  intros Hn Hd. unfold Number.parseInt.
  destruct ds as [|x t]; [congruence|].
  cbn [forallb] in Hd. apply andb_prop in Hd. destruct Hd as [Hx Ht].
  assert (Hr : (48 <= x <= 57)%N).
  { unfold is_digit, in_range in Hx. apply andb_prop in Hx. destruct Hx as [H1 H2].
    apply N.leb_le in H1. apply N.leb_le in H2. lia. }
  assert (Hs : is_space x = false).
  { unfold is_space, in_range.
    repeat (apply orb_false_intro);
      try (apply N.eqb_neq; lia);
      try (apply andb_false_intro1; apply N.leb_gt; lia);
      try (apply andb_false_intro2; apply N.leb_gt; lia). }
  cbn [trimStart]. rewrite Hs.
  assert (Ht' : Number.takeDigits (x :: t) = x :: t).
  { cbn [Number.takeDigits]. rewrite Hx. f_equal.
    clear -Ht. induction t as [|y t IH]; [reflexivity|].
    cbn [forallb] in Ht. apply andb_prop in Ht. destruct Ht as [Hy Ht].
    cbn [Number.takeDigits]. rewrite Hy, (IH Ht). reflexivity. }
  destruct x as [|px]; [lia|].
  do 6 (destruct px as [px|px|]; try lia); try (rewrite Ht'; reflexivity).
Qed.

(** ** Link resolution and the strategies *)

Section Resolution.

Context {P : Platform}.

Lemma truthy_nonempty (s : jsstring) : truthy s = true <-> s <> [].
Proof. destruct s; simpl; split; congruence. Qed.

Lemma returnIfTruthy_some r u : returnIfTruthy r = Some u -> r = Some u /\ truthy u = true.
Proof.
  destruct r as [v|]; simpl; [|discriminate].
  destruct (truthy v) eqn:E; [|discriminate]. intros [= <-]. auto.
Qed.

Lemma href_nonempty (u : URL.t) : truthy (URL.href u) = true.
Proof.
  unfold URL.href. destruct (URL.scheme u); reflexivity.
Qed.

(** What a resolved link is: the serialization of the record that the URL
    parser makes of a non-empty [href] value and the base. *)
Lemma resolveAndReturn_found attributes baseUrl options u :
  result (resolveAndReturn attributes baseUrl options) = Some u ->
  exists href record,
    extractAttribute attributes (js "href") = Some href
    /\ truthy href = true
    /\ URL_new href (Some baseUrl) = inl record
    /\ u = URL.href record.
Proof.
  unfold resolveAndReturn. rewrite result_bind. cbn [ret result fst].
  intros H. apply returnIfTruthy_some in H. destruct H as [H _].
  unfold extractAbsoluteHref in H.
  destruct (extractAttribute attributes (js "href")) as [href|]; [|discriminate].
  destruct (truthy href) eqn:Ht; [|discriminate].
  destruct (URL_new href (Some baseUrl)) as [record|message] eqn:E.
  - injection H as <-. exists href, record. auto.
  - rewrite result_bind in H. discriminate.
Qed.

Lemma resolveAndReturn_truthy attributes baseUrl options u :
  result (resolveAndReturn attributes baseUrl options) = Some u -> truthy u = true.
Proof.
  intros H. destruct (resolveAndReturn_found _ _ _ _ H) as [h [r [_ [_ [_ ->]]]]].
  apply href_nonempty.
Qed.

(** A link that a strategy finds is resolved from the attribute text of a
    tag of the document. *)
Lemma strategies_resolved html baseUrl d (options : FindNextOptions) method u :
  result (strategies html baseUrl d options method) = Some u ->
  resolved html baseUrl options u.
Proof.
  destruct method; cbn [strategies];
    [unfold findLinkByRel | unfold findLinkByPaginationStructure | unfold findLinkByText
    | unfold findLinkByClassName | unfold findLinkByAriaLabel | unfold findLinkByAltText];
    intros H; apply for_of_found in H; destruct H as [x [Hin H]].
  - unfold relCandidate in H.
    destruct (truthyGroup attributes x) as [a|] eqn:Ha; [|discriminate].
    destruct (test (REL d) a); [|discriminate].
    exists a. split; [left; exists POTENTIAL_LINK_TAGS, x; auto | exact H].
  - unfold paginationCandidate in H.
    destruct (truthyGroup containerHtml x) as [c|] eqn:Hc; [|discriminate].
    rewrite result_bind in H.
    assert (T : forall re, result (tryRule c baseUrl re options) = Some u ->
                           resolved html baseUrl options u).
    { intros re. unfold tryRule.
      destruct (exec re c) as [y|] eqn:Hy; [|discriminate].
      destruct (truthyGroup attributes y) as [a|] eqn:Ha; [|discriminate].
      intros R. exists a. split; [right; exists x, c, re, y; auto | exact R]. }
    destruct (result (tryRule c baseUrl (PAGINATION_LI d) options)) as [v|] eqn:E.
    + cbn in H. injection H as <-. exact (T _ E).
    + exact (T _ H).
  - unfold textCandidate in H.
    destruct (truthyGroup attributes x) as [a|] eqn:Ha; [|discriminate].
    destruct (truthyGroup innerText x) as [t|]; [|discriminate].
    destruct (truthy (cleanText t)); [|discriminate].
    destruct (test (TEXT d) (cleanText t)); [|discriminate].
    exists a. split; [left; exists ANCHOR_TAG, x; auto | exact H].
  - unfold classNameCandidate in H.
    destruct (truthyGroup attributes x) as [a|] eqn:Ha; [|discriminate].
    destruct (_ || _); [|discriminate].
    exists a. split; [left; exists ANCHOR_TAG_START, x; auto | exact H].
  - unfold ariaLabelCandidate in H.
    destruct (truthyGroup attributes x) as [a|] eqn:Ha; [|discriminate].
    destruct (attrMatches _ _); [|discriminate].
    exists a. split; [left; exists ANCHOR_TAG_START, x; auto | exact H].
  - unfold altCandidate in H.
    destruct (truthyGroup attributes x) as [a|] eqn:Ha; [|discriminate].
    destruct (truthyGroup innerText x) as [t|]; [|discriminate].
    apply for_of_found in H. destruct H as [img [_ H]].
    unfold imgCandidate in H.
    destruct (extractAttribute (m_text img) (js "alt")) as [al|]; [|discriminate].
    destruct (_ && _); [|discriminate].
    exists a. split; [left; exists ANCHOR_TAG, x; auto | exact H].
Qed.

Lemma strategies_truthy html baseUrl d (options : FindNextOptions) method :
  returnIfTruthy (result (strategies html baseUrl d options method))
  = result (strategies html baseUrl d options method).
Proof.
  destruct (result (strategies html baseUrl d options method)) as [u|] eqn:E;
    [|reflexivity].
  apply strategies_resolved in E. destruct E as [a [_ E]].
  apply resolveAndReturn_truthy in E. cbn. rewrite E. reflexivity.
Qed.

End Resolution.

Lemma map_same {A B} (f g : A -> B) (l : list A) :
  (forall x, f x = g x) -> map f l = map g l.
Proof. intros H. induction l; simpl; [reflexivity|]. rewrite H, IHl. reflexivity. Qed.

Lemma scanned_same {A B} (f g : A -> option B) (l : list A) :
  (forall x, f x = g x) -> scanned f l = scanned g l.
Proof. intros H. induction l; simpl; [reflexivity|]. rewrite H, IHl. reflexivity. Qed.

Lemma flat_map_same {A B} (f g : A -> list B) (l : list A) :
  (forall x, f x = g x) -> flat_map f l = flat_map g l.
Proof. intros H. induction l; simpl; [reflexivity|]. rewrite H, IHl. reflexivity. Qed.







Section Dispatcher.

Context {P : Platform}.

Variables (html baseUrl : jsstring) (d : Direction) (options : FindNextOptions).

Lemma findLink_result :
  result (findLink html baseUrl d options)
  = firstFound (map (fun method => result (strategies html baseUrl d options method))
                  (effectiveMethods options)).
Proof.
  unfold findLink. rewrite for_of_result. f_equal. apply map_same. intros method.
  rewrite result_bind. cbn. apply strategies_truthy.
Qed.

Lemma findLink_trace :
  trace (findLink html baseUrl d options)
  = flat_map (fun method => trace (strategies html baseUrl d options method))
      (scanned (fun method => result (strategies html baseUrl d options method))
         (effectiveMethods options)).
Proof.
  unfold findLink. rewrite for_of_trace.
  rewrite (scanned_same _
             (fun method => result (strategies html baseUrl d options method))).
  - apply flat_map_same. intros method. rewrite trace_bind. cbn. apply app_nil_r.
  - intros method. rewrite result_bind. cbn. apply strategies_truthy.
Qed.

(** A link that [findLink] returns was found by one of the strategies. *)
Lemma findLink_found u :
  result (findLink html baseUrl d options) = Some u ->
  exists method, result (strategies html baseUrl d options method) = Some u.
Proof.
  rewrite findLink_result.
  induction (effectiveMethods options) as [|method l IH]; [discriminate|].
  cbn [map firstFound].
  destruct (result (strategies html baseUrl d options method)) eqn:E.
  - intros [= <-]. exists method. exact E.
  - exact IH.
Qed.




End Dispatcher.

(** ** URL pattern inference *)

Section Inference.

Context {P : Platform}.

Lemma findTarget_cons params key keys :
  findTarget params (key :: keys)
  = match integerParam params key with
    | Some n => Some (key, n)
    | None => findTarget params keys
    end.
Proof.
  unfold integerParam. cbn [findTarget].
  destruct (URLSearchParams.get params key) as [v|]; [|reflexivity].
  destruct v as [|c v]; [reflexivity|]. reflexivity.
Qed.

Lemma findTarget_specTarget params : findTarget params pageKeys = specTarget params.
Proof.
  unfold specTarget, pageKeys. rewrite !findTarget_cons. reflexivity.
Qed.

Lemma verified_result candidate (options : BaseOptions) :
  result (verified candidate options)
  = match verifyExists options with
    | Some false => true
    | _ => HEAD_ok candidate
    end.
Proof.
  unfold verified. destruct (verifyExists options) as [[|]|]; reflexivity.
Qed.

Lemma findUrlByQueryParam_parsed url u d (options : BaseOptions) :
  URL_new url None = inl u ->
  findUrlByQueryParam url d options
  = match specTarget (URLSearchParams.ofURL u) with
    | Some (key, n) =>
        if (adjacent d n <=? 0)%Z then ret None
        else verifiedCandidate (queryCandidate u key (adjacent d n)) options
    | None => ret None
    end.
Proof.
  intros Hu. unfold findUrlByQueryParam. rewrite Hu, findTarget_specTarget.
  destruct (specTarget (URLSearchParams.ofURL u)) as [[key n]|]; [|reflexivity].
  rewrite Z.leb_antisym. destruct (0 <? adjacent d n)%Z; [|reflexivity].
  cbn [negb]. unfold verifiedCandidate, queryCandidate.
  destruct (verified _ options) as [[|] t]; reflexivity.
Qed.

Lemma findUrlByQueryParam_truthy url d (options : BaseOptions) :
  returnIfTruthy (result (findUrlByQueryParam url d options))
  = result (findUrlByQueryParam url d options).
Proof.
  unfold findUrlByQueryParam.
  destruct (URL_new url None) as [u|e]; [|reflexivity].
  destruct (findTarget _ _) as [[key n]|]; [|reflexivity].
  destruct (0 <? adjacent d n)%Z; [|reflexivity].
  rewrite result_bind. destruct (result (verified _ options)); [|reflexivity].
  unfold ret, result, fst, returnIfTruthy. rewrite href_nonempty. reflexivity.
Qed.

Lemma findUrlByPattern_unfold url d (options : BaseOptions) :
  findUrlByPattern url d options
  = match result (findUrlByQueryParam url d options) with
    | Some c => (Some c, trace (findUrlByQueryParam url d options))
    | None =>
        (returnIfTruthy (result (findUrlByPathSegment url d options)),
         trace (findUrlByQueryParam url d options)
         ++ trace (findUrlByPathSegment url d options))
    end.
Proof.
  unfold findUrlByPattern.
  pose proof (findUrlByQueryParam_truthy url d options) as T.
  destruct (findUrlByQueryParam url d options) as [r t]. cbn [result trace fst snd] in *.
  unfold bind at 1. rewrite T. destruct r as [c|].
  - cbn. rewrite app_nil_r. reflexivity.
  - destruct (findUrlByPathSegment url d options) as [r' t']. cbn.
    rewrite app_nil_r. reflexivity.
Qed.

Lemma truthy_app_middle (a b c : jsstring) : truthy b = true -> truthy (a ++ b ++ c) = true.
Proof.
  intros H. destruct a; [|reflexivity]. destruct b; [discriminate|reflexivity].
Qed.

Lemma splitFrom_parts s a ds :
  splitFrom s = Some (a, ds) ->
  truthy a = true /\ truthy ds = true /\ forallb is_digit ds = true.
Proof.
  intros H. apply splitFrom_pagePath in H.
  destruct H as [_ [H2 [H3 [pre [c [H4 _]]]]]]. subst a.
  repeat split.
  - destruct pre; reflexivity.
  - destruct ds; [congruence|reflexivity].
  - exact H3.
Qed.

Lemma findUrlByPathSegment_parsed url u d (options : BaseOptions) :
  URL_new url None = inl u ->
  findUrlByPathSegment url d options
  = match splitFrom (stripTrailingSlash (URL.pathname u)) with
    | Some (prefix, digits) =>
        if (adjacent d (Number.digitsValue digits) <=? 0)%Z then ret None
        else verifiedCandidate
               (pathCandidate u prefix (adjacent d (Number.digitsValue digits))) options
    | None => ret None
    end.
Proof.
  intros Hu. unfold findUrlByPathSegment. rewrite Hu, removeFirst_TRAILING_SLASH.
  pose proof (exec_PATH_PAGE_NUMBER (stripTrailingSlash (URL.pathname u))) as E.
  destruct (exec PATH_PAGE_NUMBER (stripTrailingSlash (URL.pathname u))) as [x|];
    destruct (splitFrom (stripTrailingSlash (URL.pathname u))) as [[a ds]|] eqn:S;
    cbn [option_map] in E; try discriminate; [|reflexivity].
  injection E as E.
  destruct (splitFrom_parts _ _ _ S) as [Ta [Td Hd]].
  unfold truthyGroup, group. rewrite E. cbn [cap_get Nat.eqb]. rewrite Ta, Td.
  rewrite parseInt_digits; [| destruct ds; [discriminate|congruence] | exact Hd].
  rewrite Z.leb_antisym.
  destruct (0 <? adjacent d (Number.digitsValue ds))%Z; [|reflexivity].
  cbn [negb]. unfold verifiedCandidate, pathCandidate.
  destruct (verified _ options) as [[|] t]; reflexivity.
Qed.

Lemma findUrlByPathSegment_truthy url d (options : BaseOptions) :
  returnIfTruthy (result (findUrlByPathSegment url d options))
  = result (findUrlByPathSegment url d options).
Proof.
  destruct (URL_new url None) as [u|e] eqn:Hu.
  - rewrite (findUrlByPathSegment_parsed url u d options Hu).
    destruct (splitFrom _) as [[a ds]|] eqn:S; [|reflexivity].
    destruct (_ <=? 0)%Z; [reflexivity|].
    unfold verifiedCandidate. rewrite result_bind.
    destruct (result (verified _ options)); [|reflexivity].
    unfold ret, result, fst, returnIfTruthy, pathCandidate.
    destruct (splitFrom_parts _ _ _ S) as [Ta _].
    rewrite truthy_app_middle by (destruct a; [discriminate|reflexivity]). reflexivity.
  - unfold findUrlByPathSegment. rewrite Hu. reflexivity.
Qed.

End Inference.

(** ** The parameter list *)

Lemma eqs_refl s : eqs s s = true.
Proof. induction s as [|c s IH]; [reflexivity|]. cbn. rewrite N.eqb_refl. exact IH. Qed.

Lemma eqs_eq a b : eqs a b = true -> a = b.
Proof.
  revert b. induction a as [|x a IH]; intros [|y b] H; try discriminate; [reflexivity|].
  cbn in H. apply andb_prop in H. destruct H as [H1 H2].
  apply N.eqb_eq in H1. subst. f_equal. apply IH. exact H2.
Qed.

Section Params.

Import URLSearchParams.

Lemma remove_idempotent l key : remove (remove l key) key = remove l key.
Proof.
  unfold remove. induction l as [|[n v] l IH]; [reflexivity|].
  cbn [filter fst]. destruct (eqs n key) eqn:E; cbn [negb].
  - exact IH.
  - cbn [filter fst]. rewrite E. cbn [negb]. rewrite IH. reflexivity.
Qed.

Lemma remove_set l key value : remove (set l key value) key = remove l key.
Proof.
  induction l as [|[n v] l IH]; cbn [set].
  - unfold remove. cbn [filter fst]. rewrite eqs_refl. reflexivity.
  - destruct (eqs n key) eqn:E.
    + unfold remove at 1 3. cbn [filter fst]. rewrite E. cbn [negb].
      apply remove_idempotent.
    + unfold remove in *. cbn [filter fst]. rewrite E. cbn [negb]. rewrite IH. reflexivity.
Qed.

Lemma get_set l key value : get (set l key value) key = Some value.
Proof.
  induction l as [|[n v] l IH]; cbn [set].
  - cbn [get]. rewrite eqs_refl. reflexivity.
  - destruct (eqs n key) eqn:E; cbn [get]; rewrite E; [reflexivity | exact IH].
Qed.

Lemma named_remove l key : filter (named key) (remove l key) = [].
Proof.
  unfold remove, named. induction l as [|[n v] l IH]; [reflexivity|].
  cbn [filter fst]. destruct (eqs n key) eqn:E; cbn [negb filter fst]; [exact IH|].
  rewrite E. exact IH.
Qed.

Lemma named_set l key value : length (filter (named key) (set l key value)) = 1.
Proof.
  induction l as [|[n v] l IH]; cbn [set].
  - unfold named. cbn [filter fst]. rewrite eqs_refl. reflexivity.
  - destruct (eqs n key) eqn:E; unfold named in *; cbn [filter fst]; rewrite E.
    + cbn [length]. f_equal. fold (named key). rewrite named_remove. reflexivity.
    + exact IH.
Qed.

Lemma serialize_nonempty p l : serialize (p :: l) <> [].
Proof.
  destruct p as [n v]. cbn [serialize].
  destruct l; intros H; apply (f_equal (@length char)) in H;
    rewrite !length_app in H; cbn in H; lia.
Qed.

Lemma set_nonempty l key value : set l key value <> [].
Proof. destruct l as [|[n v] l]; cbn [set]; [discriminate|]. destruct (eqs n key); discriminate. Qed.

Lemma update_set u l key value :
  update u (set l key value) = URL.withQuery u (Some (serialize (set l key value))).
Proof.
  unfold update. destruct (set l key value) as [|p l'] eqn:E.
  - destruct (set_nonempty _ _ _ E).
  - destruct (serialize (p :: l')) eqn:S; [destruct (serialize_nonempty _ _ S)|reflexivity].
Qed.

End Params.

(** ** The form-urlencoded serializer and parser *)

Module EncodingFacts.
Import Encoding.

Local Open Scope N_scope.

Ltac Zify.zify_post_hook ::= Z.to_euclidean_division_equations.

Ltac bools :=
  repeat match goal with
         | H : _ && _ = true |- _ => apply andb_prop in H; destruct H
         | H : _ || _ = true |- _ => apply orb_prop in H; destruct H
         | H : _ && _ = false |- _ => apply andb_false_iff in H; destruct H
         | H : _ || _ = false |- _ => apply orb_false_iff in H; destruct H
         | H : negb _ = true |- _ => apply negb_true_iff in H
         | H : negb _ = false |- _ => apply negb_false_iff in H
         | H : (_ <? _) = true |- _ => apply N.ltb_lt in H
         | H : (_ <? _) = false |- _ => apply N.ltb_ge in H
         | H : (_ <=? _) = true |- _ => apply N.leb_le in H
         | H : (_ <=? _) = false |- _ => apply N.leb_gt in H
         | H : (_ =? _) = true |- _ => apply N.eqb_eq in H
         | H : (_ =? _) = false |- _ => apply N.eqb_neq in H
         end.

(** Decide the comparisons of the goal by arithmetic. *)
Ltac decide_tests :=
  repeat match goal with
         | |- context [?a <? ?b] =>
             first [ replace (a <? b) with true by (symmetry; apply N.ltb_lt; lia)
                   | replace (a <? b) with false by (symmetry; apply N.ltb_ge; lia) ]
         | |- context [?a <=? ?b] =>
             first [ replace (a <=? b) with true by (symmetry; apply N.leb_le; lia)
                   | replace (a <=? b) with false by (symmetry; apply N.leb_gt; lia) ]
         | |- context [?a =? ?b] =>
             first [ replace (a =? b) with true by (symmetry; apply N.eqb_eq; lia)
                   | replace (a =? b) with false by (symmetry; apply N.eqb_neq; lia) ]
         end.

Lemma isScalar_spec cp :
  isScalar cp = true <-> cp < 0xD800 \/ (0xE000 <= cp /\ cp < 0x110000).
Proof.
  unfold isScalar. split.
  - intros H. bools; lia.
  - intros [H|[H1 H2]].
    + apply orb_true_intro. left. apply N.ltb_lt. lia.
    + apply orb_true_intro. right. apply andb_true_intro.
      split; [apply N.leb_le | apply N.ltb_lt]; lia.
Qed.

Lemma decode_none b bs :
  utf8_decode_from None (b :: bs)
  = match classify b with
    | Emit cp => cp :: utf8_decode_from None bs
    | Lead p => utf8_decode_from (Some p) bs
    end.
Proof. reflexivity. Qed.

Lemma decode_some p b bs :
  utf8_decode_from (Some p) (b :: bs)
  = if in_range (p_lower p) (p_upper p) b then
      match p_needed p with
      | S (S n) =>
          utf8_decode_from (Some (Pending (p_cp p * 64 + (b - 0x80)) (S n) 0x80 0xBF)) bs
      | _ => (p_cp p * 64 + (b - 0x80)) :: utf8_decode_from None bs
      end
    else REPLACEMENT :: match classify b with
                        | Emit cp => cp :: utf8_decode_from None bs
                        | Lead p' => utf8_decode_from (Some p') bs
                        end.
Proof. reflexivity. Qed.

Lemma utf8_roundtrip1 cp bs :
  isScalar cp = true ->
  utf8_decode_from None (utf8_encode1 cp ++ bs) = cp :: utf8_decode_from None bs.
Proof.
  intros H. apply isScalar_spec in H. unfold utf8_encode1.
  destruct (cp <? 0x80) eqn:E1; bools.
  { cbn [app]. rewrite decode_none. unfold classify. decide_tests. reflexivity. }
  destruct (cp <? 0x800) eqn:E2; bools.
  { cbn [app]. rewrite decode_none. unfold classify, in_range. decide_tests.
    cbn [andb]. rewrite decode_some. cbn [p_lower p_upper p_needed p_cp].
    unfold in_range. decide_tests. cbn [andb]. f_equal. lia. }
  destruct (cp <? 0x10000) eqn:E3; bools.
  { cbn [app]. rewrite decode_none. unfold classify, in_range. decide_tests.
    cbn [andb]. rewrite decode_some. cbn [p_lower p_upper p_needed p_cp].
    unfold in_range.
    destruct (0xE0 + cp / 4096 =? 0xE0) eqn:A; destruct (0xE0 + cp / 4096 =? 0xED) eqn:B;
      bools; decide_tests; cbn [andb]; rewrite decode_some;
      cbn [p_lower p_upper p_needed p_cp]; unfold in_range; decide_tests; cbn [andb];
      f_equal; lia. }
  cbn [app]. rewrite decode_none. unfold classify, in_range. decide_tests.
  cbn [andb]. rewrite decode_some. cbn [p_lower p_upper p_needed p_cp].
  unfold in_range.
  destruct (0xF0 + cp / 262144 =? 0xF0) eqn:A; destruct (0xF0 + cp / 262144 =? 0xF4) eqn:B;
    bools; decide_tests; cbn [andb]; rewrite decode_some;
    cbn [p_lower p_upper p_needed p_cp]; unfold in_range; decide_tests; cbn [andb];
    rewrite decode_some;
    cbn [p_lower p_upper p_needed p_cp]; unfold in_range; decide_tests; cbn [andb];
    f_equal; lia.
Qed.

Lemma utf8_roundtrip_scalars cps :
  forallb isScalar cps = true ->
  utf8_decode_from None (concat (map utf8_encode1 cps)) = cps.
Proof.
  induction cps as [|cp cps IH]; intros H; [reflexivity|].
  cbn [forallb] in H. apply andb_prop in H. destruct H as [H1 H2].
  cbn [map concat]. rewrite utf8_roundtrip1 by exact H1. rewrite IH by exact H2.
  reflexivity.
Qed.

Lemma toScalars_ofScalar cp rest0 :
  isScalar cp = true -> toScalars (ofScalar cp ++ rest0) = cp :: toScalars rest0.
Proof.
  intros H. apply isScalar_spec in H. unfold ofScalar.
  destruct (cp <? 0x10000) eqn:E; bools.
  - cbn [app toScalars]. unfold is_high_surrogate, is_low_surrogate, in_range.
    destruct H as [H|H].
    + decide_tests. reflexivity.
    + decide_tests. reflexivity.
  - cbn [app toScalars]. unfold is_high_surrogate, is_low_surrogate, in_range.
    decide_tests. cbn [andb]. f_equal. lia.
Qed.

Lemma toScalars_ofScalars cps :
  forallb isScalar cps = true -> toScalars (ofScalars cps) = cps.
Proof.
  unfold ofScalars. induction cps as [|cp cps IH]; intros H; [reflexivity|].
  cbn [forallb] in H. apply andb_prop in H. destruct H as [H1 H2].
  cbn [map concat]. rewrite toScalars_ofScalar by exact H1. rewrite IH by exact H2.
  reflexivity.
Qed.

(** Encoding and decoding a well-formed string gives it back. *)
Lemma utf8_roundtrip s : wellFormed s -> utf8_decode (utf8_encode s) = s.
Proof.
  intros [cps [H ->]]. unfold utf8_decode, utf8_encode.
  rewrite toScalars_ofScalars by exact H. rewrite utf8_roundtrip_scalars by exact H.
  reflexivity.
Qed.

Lemma encode1_bytes cp : isScalar cp = true -> forallb isByte (utf8_encode1 cp) = true.
Proof.
  intros H. apply isScalar_spec in H. unfold utf8_encode1, isByte.
  destruct (cp <? 0x80) eqn:E1; [|destruct (cp <? 0x800) eqn:E2;
    [|destruct (cp <? 0x10000) eqn:E3]]; bools; cbn [forallb]; decide_tests; reflexivity.
Qed.

Lemma forallb_concat {A} (p : A -> bool) (l : list (list A)) :
  forallb (forallb p) l = true -> forallb p (concat l) = true.
Proof.
  induction l as [|x l IH]; intros H; [reflexivity|].
  cbn [forallb] in H. apply andb_prop in H. destruct H as [H1 H2].
  cbn [concat]. rewrite forallb_app, H1, (IH H2). reflexivity.
Qed.

Lemma encode_bytes cps :
  forallb isScalar cps = true -> forallb isByte (concat (map utf8_encode1 cps)) = true.
Proof.
  intros H. apply forallb_concat. rewrite forallb_forall in *.
  intros bs Hb. apply in_map_iff in Hb. destruct Hb as [cp [<- Hc]].
  apply encode1_bytes. apply H. exact Hc.
Qed.

Lemma hexval_hexdigit n : n < 16 -> hexval (hexdigit n) = Some n.
Proof.
  intros H. unfold hexval, hexdigit, is_digit, in_range.
  destruct (n <? 10) eqn:E; bools; decide_tests; cbn [andb]; f_equal; lia.
Qed.

Lemma hexdigit_range n : n < 16 -> 48 <= hexdigit n <= 70 /\ hexdigit n <> 61.
Proof. intros H. unfold hexdigit. destruct (n <? 10) eqn:E; bools; lia. Qed.

Lemma unreserved_spec b :
  unreserved b = true ->
  b <> 37 /\ b <> 43 /\ b <> 38 /\ b <> 61 /\ b < 128.
Proof.
  unfold unreserved, is_lower, is_upper, is_digit, in_range. intros H. bools; lia.
Qed.

Lemma percent_roundtrip bs :
  forallb isByte bs = true ->
  percent_decode (URLSearchParams.plusToSpace (concat (map encode_byte bs))) = bs.
Proof.
  unfold URLSearchParams.plusToSpace.
  induction bs as [|b bs IH]; intros H; [reflexivity|].
  cbn [forallb] in H. apply andb_prop in H. destruct H as [Hb H]. unfold isByte in Hb. bools.
  cbn [map concat]. rewrite map_app. unfold encode_byte at 1.
  destruct (unreserved b) eqn:U.
  - apply unreserved_spec in U. destruct U as [U1 [U2 _]].
    cbn [map app]. decide_tests. cbn [percent_decode]. decide_tests.
    f_equal. apply IH. exact H.
  - destruct (b =? 32) eqn:E; bools.
    + subst b. cbn [map app]. decide_tests. cbn [percent_decode]. decide_tests.
      f_equal. apply IH. exact H.
    + pose proof (hexdigit_range (b / 16) ltac:(lia)) as R1.
      pose proof (hexdigit_range (b mod 16) ltac:(lia)) as R2.
      cbn [map app]. decide_tests. cbn [percent_decode]. decide_tests.
      rewrite (hexval_hexdigit (b / 16)) by lia.
      rewrite (hexval_hexdigit (b mod 16)) by lia.
      f_equal; [lia | apply IH; exact H].
Qed.

(** A component survives the serializer and the parser. *)
Lemma component_roundtrip s :
  wellFormed s -> URLSearchParams.decodeComponent (urlencode s) = s.
Proof.
  intros W. unfold URLSearchParams.decodeComponent, urlencode.
  rewrite percent_roundtrip.
  - apply utf8_roundtrip. exact W.
  - destruct W as [cps [H ->]]. unfold utf8_encode.
    rewrite toScalars_ofScalars by exact H. apply encode_bytes. exact H.
Qed.

Lemma encode_byte_plain b : isByte b = true -> forallb plainChar (encode_byte b) = true.
Proof.
  unfold isByte. intros H. bools. unfold encode_byte.
  destruct (unreserved b) eqn:U.
  - apply unreserved_spec in U. cbn [forallb]. unfold plainChar. decide_tests. reflexivity.
  - destruct (b =? 32); [reflexivity|].
    pose proof (hexdigit_range (b / 16) ltac:(lia)) as R1.
    pose proof (hexdigit_range (b mod 16) ltac:(lia)) as R2.
    cbn [forallb]. unfold plainChar. decide_tests. reflexivity.
Qed.

Lemma urlencode_plain s : wellFormed s -> forallb plainChar (urlencode s) = true.
Proof.
  intros [cps [H ->]]. unfold urlencode, utf8_encode.
  rewrite toScalars_ofScalars by exact H.
  apply forallb_concat. rewrite forallb_forall. intros x Hx.
  apply in_map_iff in Hx. destruct Hx as [b [<- Hb]]. apply encode_byte_plain.
  pose proof (encode_bytes cps H) as B. rewrite forallb_forall in B. apply B. exact Hb.
Qed.

Lemma plainChar_spec c : plainChar c = true -> c < 128 /\ c <> 38 /\ c <> 61.
Proof. unfold plainChar. intros H. bools. lia. Qed.

Lemma ascii_utf8_encode s : forallb (fun c => c <? 128) s = true -> utf8_encode s = s.
Proof.
  unfold utf8_encode. induction s as [|c s IH]; intros H; [reflexivity|].
  cbn [forallb] in H. apply andb_prop in H. destruct H as [Hc H]. bools.
  cbn [toScalars]. unfold is_high_surrogate, is_low_surrogate, in_range. decide_tests.
  cbn [andb map concat]. unfold utf8_encode1 at 1. decide_tests. cbn [app].
  f_equal. apply IH. exact H.
Qed.

End EncodingFacts.

Module ParamsFacts.
Import Encoding EncodingFacts URLSearchParams.

Lemma splitOn_without sep cur a :
  forallb (fun c => negb (c =? sep)%N) a = true ->
  splitOn sep cur a = [rev cur ++ a].
Proof.
  revert cur. induction a as [|c a IH]; intros cur H.
  - cbn. rewrite app_nil_r. reflexivity.
  - cbn [forallb] in H. apply andb_prop in H. destruct H as [Hc H].
    cbn [splitOn]. apply negb_true_iff in Hc. rewrite Hc.
    rewrite IH by exact H. cbn [rev]. rewrite <- app_assoc. reflexivity.
Qed.

Lemma splitOn_at sep cur a b :
  forallb (fun c => negb (c =? sep)%N) a = true ->
  splitOn sep cur (a ++ sep :: b) = (rev cur ++ a) :: splitOn sep [] b.
Proof.
  revert cur. induction a as [|c a IH]; intros cur H.
  - cbn [app splitOn]. rewrite N.eqb_refl, app_nil_r. reflexivity.
  - cbn [forallb] in H. apply andb_prop in H. destruct H as [Hc H].
    cbn [app splitOn]. apply negb_true_iff in Hc. rewrite Hc.
    rewrite IH by exact H. cbn [rev]. rewrite <- app_assoc. reflexivity.
Qed.

Lemma cutAt_at sep a b :
  forallb (fun c => negb (c =? sep)%N) a = true ->
  cutAt sep (a ++ sep :: b) = (a, b).
Proof.
  induction a as [|c a IH]; intros H.
  - cbn [app cutAt]. rewrite N.eqb_refl. reflexivity.
  - cbn [forallb] in H. apply andb_prop in H. destruct H as [Hc H].
    cbn [app cutAt]. apply negb_true_iff in Hc. rewrite Hc, IH by exact H. reflexivity.
Qed.

Lemma plain_without c s :
  (c = 38 \/ c = 61)%N ->
  forallb plainChar s = true -> forallb (fun x => negb (x =? c)%N) s = true.
Proof.
  intros Hc H. rewrite forallb_forall in *. intros x Hx. specialize (H x Hx).
  apply plainChar_spec in H. apply negb_true_iff, N.eqb_neq. lia.
Qed.

Lemma in_piece p x :
  wellFormedPair p -> In x (piece p) -> (x < 128 /\ x <> 38)%N.
Proof.
  intros [Hn Hv] Hx. unfold piece in Hx.
  pose proof (urlencode_plain _ Hn) as Pn. pose proof (urlencode_plain _ Hv) as Pv.
  rewrite forallb_forall in Pn, Pv.
  apply in_app_or in Hx. destruct Hx as [Hx|Hx].
  - apply Pn, plainChar_spec in Hx. lia.
  - apply in_app_or in Hx. destruct Hx as [Hx|Hx].
    + cbn in Hx. destruct Hx as [<-|[]]. lia.
    + apply Pv, plainChar_spec in Hx. lia.
Qed.

Lemma piece_without_amp p :
  wellFormedPair p -> forallb (fun x => negb (x =? 38)%N) (piece p) = true.
Proof.
  intros H. apply forallb_forall. intros x Hx.
  apply negb_true_iff, N.eqb_neq. apply (in_piece p x H Hx).
Qed.

Lemma piece_ascii p :
  wellFormedPair p -> forallb (fun c => (c <? 128)%N) (piece p) = true.
Proof.
  intros H. apply forallb_forall. intros x Hx.
  apply N.ltb_lt. apply (in_piece p x H Hx).
Qed.

Lemma serialize_cons p l :
  serialize (p :: l)
  = match l with
    | [] => piece p
    | _ :: _ => piece p ++ 38%N :: serialize l
    end.
Proof.
  destruct p as [n v]. unfold piece. cbn [serialize fst snd].
  destruct l; [reflexivity|]. rewrite <- !app_assoc. reflexivity.
Qed.

Lemma serialize_ascii l :
  Forall wellFormedPair l -> forallb (fun c => (c <? 128)%N) (serialize l) = true.
Proof.
  intros H. apply forallb_forall. intros x Hx. apply N.ltb_lt.
  induction H as [|p l Hp Hl IH]; [destruct Hx|].
  rewrite serialize_cons in Hx.
  destruct l as [|q l]; [apply (in_piece p x Hp Hx)|].
  apply in_app_or in Hx. destruct Hx as [Hx|[<-|Hx]].
  - apply (in_piece p x Hp Hx).
  - lia.
  - apply IH. exact Hx.
Qed.

Lemma splitOn_serialize p l :
  Forall wellFormedPair (p :: l) ->
  splitOn 38 [] (serialize (p :: l)) = map piece (p :: l).
Proof.
  revert p. induction l as [|q l IH]; intros p H; inversion H as [|? ? Hp Hl]; subst.
  - rewrite serialize_cons. rewrite splitOn_without by (apply piece_without_amp; exact Hp).
    reflexivity.
  - rewrite serialize_cons. rewrite splitOn_at by (apply piece_without_amp; exact Hp).
    cbn [rev app map]. f_equal. apply IH. exact Hl.
Qed.

Lemma parse_piece p :
  wellFormedPair p ->
  (match piece p with
   | [] => []
   | _ => let (n, v) := cutAt 61 (piece p) in [(decodeComponent n, decodeComponent v)]
   end) = [p].
Proof.
  intros [Hn Hv]. destruct p as [n v]. cbn [fst snd] in *. unfold piece. cbn [fst snd].
  change (js "=" ++ urlencode v) with (61%N :: urlencode v).
  rewrite cutAt_at
    by exact (plain_without 61%N _ (or_intror eq_refl) (urlencode_plain _ Hn)).
  rewrite !component_roundtrip by assumption.
  destruct (urlencode n ++ 61%N :: urlencode v) eqn:E; [|reflexivity].
  destruct (urlencode n); discriminate.
Qed.

(** The parser reads back what the serializer wrote. *)
Lemma parse_serialize l : Forall wellFormedPair l -> parse (serialize l) = l.
Proof.
  intros H. unfold parse. rewrite ascii_utf8_encode by (apply serialize_ascii; exact H).
  destruct l as [|p l]; [reflexivity|].
  rewrite splitOn_serialize by exact H.
  induction H as [|q l' Hq Hl IH]; [reflexivity|].
  cbn [map flat_map]. rewrite parse_piece by exact Hq. cbn [app]. f_equal.
  destruct l' as [|r l'']; [reflexivity|]. apply IH.
Qed.

End ParamsFacts.

Module DecoderFacts.
Import Encoding EncodingFacts URLSearchParams ParamsFacts.

Local Open Scope N_scope.

Ltac Zify.zify_post_hook ::= Z.to_euclidean_division_equations.

Lemma classify_ok b : okFirst (classify b).
Proof.
  unfold classify, in_range.
  destruct (b <? 0x80) eqn:E1.
  { cbn [okFirst]. apply isScalar_spec. bools. lia. }
  destruct ((0xC2 <=? b) && (b <=? 0xDF)) eqn:E2.
  { cbn [okFirst okPending p_needed p_cp p_lower p_upper]. intros c Hc.
    apply isScalar_spec. bools. lia. }
  destruct ((0xE0 <=? b) && (b <=? 0xEF)) eqn:E3.
  { cbn [okFirst okPending p_needed p_cp p_lower p_upper]. intros c c' Hc Hc'.
    apply isScalar_spec.
    destruct (b =? 0xE0) eqn:A; destruct (b =? 0xED) eqn:B; bools; lia. }
  destruct ((0xF0 <=? b) && (b <=? 0xF4)) eqn:E4.
  { cbn [okFirst okPending p_needed p_cp p_lower p_upper]. intros c c' c'' Hc Hc' Hc''.
    apply isScalar_spec.
    destruct (b =? 0xF0) eqn:A; destruct (b =? 0xF4) eqn:B; bools; lia. }
  reflexivity.
Qed.

Lemma decode_scalar bs st :
  match st with Some p => okPending p | None => True end ->
  forallb isScalar (utf8_decode_from st bs) = true.
Proof.
  revert st. induction bs as [|b bs IH]; intros st Hst.
  - destruct st; reflexivity.
  - assert (F : forallb isScalar
                  match classify b with
                  | Emit cp => cp :: utf8_decode_from None bs
                  | Lead p' => utf8_decode_from (Some p') bs
                  end = true).
    { pose proof (classify_ok b) as C. destruct (classify b) as [cp|p'].
      - cbn [forallb]. cbn in C. rewrite C. apply (IH None I).
      - apply (IH (Some p')). exact C. }
    destruct st as [p|]; [|rewrite decode_none; exact F].
    rewrite decode_some. unfold in_range.
    destruct ((p_lower p <=? b) && (b <=? p_upper p)) eqn:R; bools.
    + unfold okPending in Hst.
      destruct (p_needed p) as [|[|[|[|n]]]]; try contradiction.
      * cbn [forallb]. rewrite Hst by lia. apply (IH None I).
      * apply (IH (Some _)). unfold okPending. cbn [p_needed p_cp p_lower p_upper].
        intros c Hc. apply Hst; lia.
      * apply (IH (Some _)). unfold okPending. cbn [p_needed p_cp p_lower p_upper].
        intros c c' Hc Hc'. apply Hst; lia.
    + cbn [forallb]. exact F.
    + cbn [forallb]. exact F.
Qed.

Lemma decodeComponent_wellFormed bs : wellFormed (decodeComponent bs).
Proof.
  unfold decodeComponent, utf8_decode. eexists. split; [|reflexivity].
  apply decode_scalar. exact I.
Qed.

Lemma parse_wellFormed q : Forall wellFormedPair (parse q).
Proof.
  unfold parse. induction (splitOn 38 [] (utf8_encode q)) as [|x l IH]; [constructor|].
  cbn [flat_map]. destruct x as [|c x]; [exact IH|].
  destruct (cutAt 61 (c :: x)) as [n v]. cbn [app]. constructor; [|exact IH].
  split; apply decodeComponent_wellFormed.
Qed.

Lemma ofURL_wellFormed u : Forall wellFormedPair (ofURL u).
Proof.
  unfold ofURL. destruct (URL.query u); [apply parse_wellFormed | constructor].
Qed.

(** A string of characters below the surrogates is well formed. *)
Lemma wellFormed_below_surrogates s :
  forallb (fun c => c <? 0xD800) s = true -> wellFormed s.
Proof.
  intros H. exists s. split.
  - rewrite forallb_forall in *. intros x Hx. specialize (H x Hx). bools.
    apply isScalar_spec. lia.
  - unfold ofScalars. induction s as [|c s IH]; [reflexivity|].
    cbn [forallb] in H. apply andb_prop in H. destruct H as [Hc H]. bools.
    cbn [map concat]. unfold ofScalar at 1. decide_tests. cbn [app].
    f_equal. apply IH. exact H.
Qed.

Lemma digitsOf_ascii fuel n acc :
  forallb (fun c => c <? 0xD800) acc = true ->
  forallb (fun c => c <? 0xD800) (Number.digitsOf fuel n acc) = true.
Proof.
  revert n acc. induction fuel as [|fuel IH]; intros n acc H; [exact H|].
  cbn [Number.digitsOf].
  assert (A : forallb (fun c => c <? 0xD800) ((48 + n mod 10) :: acc) = true).
  { cbn [forallb]. apply andb_true_intro. split; [apply N.ltb_lt; lia | exact H]. }
  destruct (n <? 10); [exact A | apply IH; exact A].
Qed.

Lemma String_wellFormed n : wellFormed (Number.String n).
Proof.
  apply wellFormed_below_surrogates. unfold Number.String, Number.decimal.
  destruct n as [|p|p];
    first [ apply digitsOf_ascii; reflexivity
          | cbn [forallb]; apply andb_true_intro;
            split; [reflexivity | apply digitsOf_ascii; reflexivity] ].
Qed.

Lemma remove_wellFormed l key :
  Forall wellFormedPair l -> Forall wellFormedPair (remove l key).
Proof.
  unfold remove. intros H. induction H as [|p l Hp Hl IH]; [constructor|].
  cbn [filter]. destruct (negb (eqs (fst p) key)); [constructor; assumption | exact IH].
Qed.

Lemma set_wellFormed l key value :
  Forall wellFormedPair l -> wellFormed key -> wellFormed value ->
  Forall wellFormedPair (set l key value).
Proof.
  intros H Hk Hv. induction H as [|[n v] l Hp Hl IH]; cbn [set].
  - constructor; [split; assumption | constructor].
  - destruct (eqs n key).
    + constructor; [split; [apply Hp | exact Hv] | apply remove_wellFormed; exact Hl].
    + constructor; [exact Hp | exact IH].
Qed.

End DecoderFacts.

Lemma findTarget_key params keys key n :
  findTarget params keys = Some (key, n) -> In key keys.
Proof.
  induction keys as [|k keys IH]; [discriminate|].
  cbn [findTarget].
  destruct (URLSearchParams.get params k) as [v|]; [|intros H; right; exact (IH H)].
  destruct (truthy v); [|intros H; right; exact (IH H)].
  destruct (Number.parseInt v); [|intros H; right; exact (IH H)].
  intros [= <- _]. left. reflexivity.
Qed.

Lemma findTarget_get params keys key n :
  findTarget params keys = Some (key, n) ->
  exists v, URLSearchParams.get params key = Some v /\ Number.parseInt v = Some n.
Proof.
  induction keys as [|k keys IH]; [discriminate|].
  cbn [findTarget].
  destruct (URLSearchParams.get params k) as [v|] eqn:G; [|exact IH].
  destruct (truthy v); [|exact IH].
  destruct (Number.parseInt v) as [num|] eqn:E; [|exact IH].
  intros [= <- <-]. exists v. split; [exact G | exact E].
Qed.

(** [set] writes the value in the place of the first pair of that name and
    removes the later pairs of that name. *)
Lemma set_first l key v value :
  URLSearchParams.get l key = Some v ->
  exists before after,
    l = before ++ (key, v) :: after
    /\ filter (named key) before = []
    /\ URLSearchParams.set l key value
       = before ++ (key, value) :: URLSearchParams.remove after key.
Proof.
  induction l as [|[n0 v0] l IH]; [discriminate|].
  cbn [URLSearchParams.get URLSearchParams.set].
  destruct (eqs n0 key) eqn:E.
  - intros [= ->]. apply eqs_eq in E. subst n0.
    exists [], l. repeat split.
  - intros G. destruct (IH G) as (before & after & -> & F & S).
    exists ((n0, v0) :: before), after. repeat split.
    + unfold named. cbn [filter fst]. rewrite E. exact F.
    + cbn [app]. rewrite S. reflexivity.
Qed.

Lemma pageKeys_wellFormed key : In key pageKeys -> wellFormed key.
Proof.
  intros H. apply DecoderFacts.wellFormed_below_surrogates.
  destruct H as [<-|[<-|[<-|[]]]]; reflexivity.
Qed.

(** The parameter list that query-parameter detection writes is read back
    unchanged from the query string of the candidate. *)
Lemma rewritten_query_parses_back u key n value :
  findTarget (URLSearchParams.ofURL u) pageKeys = Some (key, n) ->
  let params' := URLSearchParams.set (URLSearchParams.ofURL u) key (Number.String value) in
  URLSearchParams.ofURL (URL.withQuery u (Some (URLSearchParams.serialize params')))
  = params'.
Proof.
  intros H params'. unfold URLSearchParams.ofURL at 1. cbn [URL.withQuery URL.query].
  apply ParamsFacts.parse_serialize. apply DecoderFacts.set_wellFormed.
  - apply DecoderFacts.ofURL_wellFormed.
  - apply pageKeys_wellFormed. exact (findTarget_key _ _ _ _ H).
  - apply DecoderFacts.String_wellFormed.
Qed.

(** ** The properties of the specification *)

(** *** C1: a rejected query candidate and path-segment detection *)

(** C1, counterexample.  The claim says that once query-parameter detection
    has found a target parameter and its candidate is rejected, the result is
    not-found and path-segment detection is not attempted.  In
    [https://example.com/archive/2?page=1] the target is [page] with value 1;
    going back gives 0, which is rejected, and [findPrevByUrl] still returns
    [https://example.com/archive/1?page=1], built by path-segment detection.
    In [https://example.com/archive/2?page=2], when the probe confirms only
    the path candidate, [findNextByUrl] probes the query candidate, drops it,
    and returns the path candidate. *)
Lemma rejected_query_candidate_falls_to_path :
  let url := js "https://example.com/archive/2?page=1" in
  let url2 := js "https://example.com/archive/2?page=2" in
  let onlyThePath :=
    Model.platform (fun u => eqs u (js "https://example.com/archive/3?page=2")) in
  findTarget (URLSearchParams.parse (js "page=1")) pageKeys = Some (js "page", 1%Z)
  /\ findUrlByQueryParam (P := Model.offline) url prev unverified = (None, [])
  /\ findPrevByUrl (P := Model.offline) url unverified
     = (Some (js "https://example.com/archive/1?page=1"), [])
  /\ findUrlByQueryParam (P := onlyThePath) url2 next noOptions
     = (None, [Head (js "https://example.com/archive/2?page=3")])
  /\ findNextByUrl (P := onlyThePath) url2 noOptions
     = (Some (js "https://example.com/archive/3?page=2"),
        [Head (js "https://example.com/archive/2?page=3");
         Head (js "https://example.com/archive/3?page=2")]).
Proof. vm_compute. repeat split; reflexivity. Qed.

(** C1, amended.  When query-parameter detection has found a target
    parameter, with a page number of magnitude below 2^53, and its candidate
    is rejected (the adjacent value is not positive, or verification does not
    confirm it), query-parameter detection returns not-found, and
    [findUrlByPattern] goes on to path-segment detection: its result is the
    result of path-segment detection, and its effects are those of the two
    detections in that order. *)
Theorem rejected_query_candidate_leaves_path_detection (P : Platform)
  (url : jsstring) (u : URL.t) (d : Direction) (options : BaseOptions)
  (key : jsstring) (n : Z) :
  URL_new url None = inl u ->
  findTarget (URLSearchParams.ofURL u) pageKeys = Some (key, n) ->
  Number.safe n ->
  (adjacent d n <= 0)%Z
  \/ result (verified (queryCandidate u key (adjacent d n)) options) = false ->
  result (findUrlByQueryParam url d options) = None
  /\ result (findUrlByPattern url d options) = result (findUrlByPathSegment url d options)
  /\ trace (findUrlByPattern url d options)
     = trace (findUrlByQueryParam url d options)
       ++ trace (findUrlByPathSegment url d options).
Proof.
  intros Hu Ht _ Hr.
  assert (Q : result (findUrlByQueryParam url d options) = None).
  { rewrite (findUrlByQueryParam_parsed url u d options Hu).
    rewrite <- findTarget_specTarget, Ht.
    destruct (adjacent d n <=? 0)%Z eqn:E; [reflexivity|].
    destruct Hr as [Hr|Hr]; [apply Z.leb_gt in E; lia|].
    unfold verifiedCandidate. rewrite result_bind, Hr. reflexivity. }
  rewrite findUrlByPattern_unfold, Q. cbn [result trace fst snd].
  split; [reflexivity|]. split; [|reflexivity].
  apply findUrlByPathSegment_truthy.
Qed.

(** C1, witness: the amended statement at
    [https://example.com/archive/2?page=1], going back, without verification. *)
Lemma rejected_query_candidate_leaves_path_detection_example :
  let url := js "https://example.com/archive/2?page=1" in
  result (findUrlByQueryParam (P := Model.offline) url prev unverified) = None
  /\ result (findUrlByPattern (P := Model.offline) url prev unverified)
     = result (findUrlByPathSegment (P := Model.offline) url prev unverified)
  /\ trace (findUrlByPattern (P := Model.offline) url prev unverified)
     = trace (findUrlByQueryParam (P := Model.offline) url prev unverified)
       ++ trace (findUrlByPathSegment (P := Model.offline) url prev unverified).
Proof.
  intros url.
  refine (rejected_query_candidate_leaves_path_detection Model.offline url
            (URL.Make (js "https") [] [] (Some (js "example.com")) None
               (URL.Segments [js "archive"; js "2"]) (Some (js "page=1")) None)
            prev unverified (js "page") 1%Z _ _ _ _).
  - vm_compute. reflexivity.
  - vm_compute. reflexivity.
  - unfold Number.safe. vm_compute. reflexivity.
  - left. vm_compute. discriminate.
Defined.

(** *** C2: an unresolved link does not stop a strategy *)

(** C2, counterexample.  The claim says that inside a pagination container
    the scan goes on to the next matching occurrence.  The container below
    holds two occurrences of the list-item rule; the link of the first does
    not resolve and the link of the second does.  A rule that went on to the
    next occurrence ([tryRuleEvery]) finds [https://example.com/page/2]; the
    strategy of the program finds nothing, and neither does [findNext]. *)
Lemma pagination_stops_at_first_match_of_a_rule :
  let html := js "<ul class='pagination'>" ++ twoOccurrences ++ js "</ul>" in
  map (group containerHtml) (matchAll PAGINATION_CONTAINER html) = [Some twoOccurrences]
  /\ result (tryRuleEvery (P := Model.online) twoOccurrences exampleBase
               (PAGINATION_LI next) noOptions)
     = Some (js "https://example.com/page/2")
  /\ result (findLinkByPaginationStructure (P := Model.online) html exampleBase
               (PAGINATION_LI next) (PAGINATION_FALLBACK next) noOptions) = None
  /\ result (findNext (P := Model.online) html exampleBase noFindOptions) = None.
Proof. vm_compute. repeat split; reflexivity. Qed.

(** C2, amended.  In the strategies rel, text, className, aria-label and alt,
    an occurrence whose link does not resolve counts as no match and the scan
    goes on: the result is the first occurrence, in document order, that
    qualifies and resolves (for alt, over the images of each anchor in turn);
    for className this is said of the built-in pattern and of a
    [classNameRegex] without the flags [g] and [y].
    The pagination strategy scans the containers in document order in the
    same way, but inside a container it makes at most two attempts: the first
    match of the list-item rule, then the first match of the fallback rule;
    later matches of a rule in the same container are not looked at. *)
Theorem strategies_take_first_resolved (P : Platform) (html baseUrl : jsstring)
  (d : Direction) (options : FindNextOptions) :
  let first {A} (l : list A) (candidate : A -> M (option jsstring)) :=
    firstFound (map (fun x => result (candidate x)) l) in
  (forall A (before : list A) x after candidate u,
      (forall y, In y before -> result (candidate y) = None) ->
      result (candidate x) = Some u ->
      first (before ++ x :: after) candidate = Some u)
  /\ result (findLinkByRel html baseUrl (REL d) options)
  = first (matchAll POTENTIAL_LINK_TAGS html) (relCandidate baseUrl (REL d) options)
  /\ result (findLinkByText html baseUrl (TEXT d) options)
     = first (matchAll ANCHOR_TAG html) (textCandidate baseUrl (TEXT d) options)
  /\ (statelessClassName options ->
      result (findLinkByClassName html baseUrl (CLASS_NAME d) (classNameRegex options)
                options)
      = first (matchAll ANCHOR_TAG_START html)
          (classNameCandidate baseUrl (CLASS_NAME d) (classNameRegex options) options))
  /\ result (findLinkByAriaLabel html baseUrl (TEXT d) options)
     = first (matchAll ANCHOR_TAG_START html) (ariaLabelCandidate baseUrl (TEXT d) options)
  /\ result (findLinkByAltText html baseUrl (TEXT d) options)
     = first (matchAll ANCHOR_TAG html) (altCandidate baseUrl (TEXT d) options)
  /\ (forall x attributes innerHtml,
        truthyGroup REGEX.attributes x = Some attributes ->
        truthyGroup innerText x = Some innerHtml ->
        result (altCandidate baseUrl (TEXT d) options x)
        = first (matchAll IMG_TAG innerHtml)
            (imgCandidate attributes baseUrl (TEXT d) options))
  /\ result (findLinkByPaginationStructure html baseUrl (PAGINATION_LI d)
               (PAGINATION_FALLBACK d) options)
     = first (matchAll PAGINATION_CONTAINER html)
         (paginationCandidate baseUrl (PAGINATION_LI d) (PAGINATION_FALLBACK d) options)
  /\ (forall x container,
        truthyGroup containerHtml x = Some container ->
        result (paginationCandidate baseUrl (PAGINATION_LI d) (PAGINATION_FALLBACK d)
                  options x)
        = firstFound
            [result (tryRule container baseUrl (PAGINATION_LI d) options);
             result (tryRule container baseUrl (PAGINATION_FALLBACK d) options)])
  /\ (forall container re,
        result (tryRule container baseUrl re options)
        = match exec re container with
          | Some x =>
              match truthyGroup REGEX.attributes x with
              | Some attributes => result (resolveAndReturn attributes baseUrl options)
              | None => None
              end
          | None => None
          end).
Proof.
  intros first. unfold first.
  split.
  { intros A before x after candidate u Hb Hx.
    apply (firstFound_first _ _ (fun y => result (candidate y))); assumption. }
  repeat split; try apply for_of_result.
  - intros _. apply for_of_result.
  - intros x a t Ha Ht. unfold altCandidate. rewrite Ha, Ht. apply for_of_result.
  - intros x c Hc. unfold paginationCandidate. rewrite Hc, result_bind. cbn [firstFound].
    destruct (result (tryRule c baseUrl (PAGINATION_LI d) options)); [reflexivity|].
    destruct (result (tryRule c baseUrl (PAGINATION_FALLBACK d) options)); reflexivity.
  - intros c re. unfold tryRule. destruct (exec re c) as [x|]; [|reflexivity].
    destruct (truthyGroup attributes x); reflexivity.
Qed.

(** An unresolved [rel] link followed by one that resolves. *)
Example unresolved_link_is_passed_over :
  findNext (P := Model.online)
    (js "<a rel='next' href='http://invalid url'>x</a><a rel='next' href='/page/2'>y</a>")
    exampleBase withLogger
  = (Some (js "https://example.com/page/2"),
     [Logged warn
        (js "Invalid URL 'http://invalid url' for base 'https://example.com': Invalid URL")]).
Proof. vm_compute. reflexivity. Qed.

(** *** C3: the dispatcher *)

(** C3.  [findLink] (and so [findNext] and [findPrev]) runs the strategies in
    the order of [methods], by default rel, pagination, text, className,
    aria-label, alt.  Its result is the first result that is not not-found,
    and not-found when there is none; the strategies it has run, as their
    effects show, are those up to and including the first that found a link.
    So of two strategies that both find a link, the earlier one in the
    effective order decides. *)
Theorem findLink_first_strategy_wins (P : Platform) (html baseUrl : jsstring)
  (d : Direction) (options : FindNextOptions) :
  let run := fun method => strategies html baseUrl d options method in
  effectiveMethods options
  = match methods options with
    | Some l => l
    | None => [rel; pagination; text; className; aria_label; alt]
    end
  /\ result (findLink html baseUrl d options)
     = firstFound (map (fun method => result (run method)) (effectiveMethods options))
  /\ trace (findLink html baseUrl d options)
     = flat_map (fun method => trace (run method))
         (scanned (fun method => result (run method)) (effectiveMethods options))
  /\ (forall earlier method later u,
        effectiveMethods options = earlier ++ method :: later ->
        (forall m', In m' earlier -> result (run m') = None) ->
        result (run method) = Some u ->
        result (findLink html baseUrl d options) = Some u
        /\ trace (findLink html baseUrl d options)
           = flat_map (fun m' => trace (run m')) (earlier ++ [method]))
  /\ ((forall method, In method (effectiveMethods options) -> result (run method) = None) ->
      result (findLink html baseUrl d options) = None)
  /\ findNext html baseUrl options = findLink html baseUrl next options
  /\ findPrev html baseUrl options = findLink html baseUrl prev options.
Proof.
  intros run. split; [reflexivity|].
  split; [apply findLink_result|]. split; [apply findLink_trace|].
  split.
  { intros earlier method later u Hm He Hu. split.
    - rewrite findLink_result, Hm.
      apply (firstFound_first _ _ (fun m' => result (run m'))); assumption.
    - rewrite findLink_trace, Hm. subst run. cbv beta in He, Hu.
      rewrite (scanned_first _ _ _ earlier later method u He Hu).
      reflexivity. }
  split.
  { intros Hn. rewrite findLink_result.
    apply (firstFound_none _ _ (fun m' => result (run m'))). exact Hn. }
  split; reflexivity.
Qed.

(** A [rel] link and a text link: [rel] wins by default. *)
Example rel_before_text_by_default :
  result (findNext (P := Model.online)
            (js "<a href='/from-text'>Next</a><link rel='next' href='/from-rel'>")
            exampleBase noFindOptions)
  = Some (js "https://example.com/from-rel").
Proof. vm_compute. reflexivity. Qed.

(** The same document under [methods: ["text", "rel"]] and under
    [methods: ["rel", "text"]]. *)
Example methods_order_decides :
  let html := js "<a href='/from-text'>Next</a><link rel='next' href='/from-rel'>" in
  result (findNext (P := Model.online) html exampleBase (onlyMethods [text; rel]))
  = Some (js "https://example.com/from-text")
  /\ result (findNext (P := Model.online) html exampleBase (onlyMethods [rel; text]))
     = Some (js "https://example.com/from-rel").
Proof. vm_compute. split; reflexivity. Qed.

(** *** C4: query-parameter detection *)

(** C4.  For a URL that parses, query-parameter detection looks at [page],
    [p], [index] in that order and takes the first that is present with a
    value that [parseInt] reads as an integer.  Without such a parameter the
    result is not-found.  With one, the adjacent value is the value plus or
    minus one by direction; an adjacent value of zero or less gives
    not-found, with no probe; otherwise the candidate is the URL with that
    parameter set to the adjacent value, returned when verification is off or
    the probe confirms it. *)
Theorem query_parameter_detection (P : Platform) (url : jsstring) (u : URL.t)
  (d : Direction) (options : BaseOptions) :
  URL_new url None = inl u ->
  let params := URLSearchParams.ofURL u in
  findTarget params pageKeys = specTarget params
  /\ (specTarget params = None -> findUrlByQueryParam url d options = ret None)
  /\ (forall key n,
        specTarget params = Some (key, n) -> Number.safe n ->
        findUrlByQueryParam url d options
        = if (adjacent d n <=? 0)%Z then ret None
          else verifiedCandidate (queryCandidate u key (adjacent d n)) options)
  /\ (forall n, adjacent next n = (n + 1)%Z /\ adjacent prev n = (n - 1)%Z)
  /\ (forall candidate,
        verified candidate options
        = match verifyExists options with
          | Some false => (true, [])
          | _ => (HEAD_ok candidate, [Head candidate])
          end).
Proof.
  intros Hu params. split; [apply findTarget_specTarget|].
  pose proof (findUrlByQueryParam_parsed url u d options Hu) as E. fold params in E.
  split; [intros H; rewrite E, H; reflexivity|].
  split; [intros key n H _; rewrite E, H; reflexivity|].
  split; [intros n; split; reflexivity|].
  intros candidate. unfold verified. destruct (verifyExists options) as [[|]|]; reflexivity.
Qed.

(** C4, witness: [https://example.com/search?page=2] gives [?page=3] forward
    and [?page=1] back once the probe has confirmed them, and going back from
    [?page=1] gives not-found, without a probe, whatever the network and the
    options. *)
Lemma query_parameter_detection_example :
  let url := js "https://example.com/search?page=2" in
  findNextByUrl (P := Model.online) url noOptions
  = (Some (js "https://example.com/search?page=3"),
     [Head (js "https://example.com/search?page=3")])
  /\ findPrevByUrl (P := Model.online) url noOptions
     = (Some (js "https://example.com/search?page=1"),
        [Head (js "https://example.com/search?page=1")])
  /\ (forall head options,
        findPrevByUrl (P := Model.platform head)
          (js "https://example.com/search?page=1") options = (None, []))
  /\ findUrlByQueryParam (P := Model.online) url next noOptions
     = verifiedCandidate (P := Model.online) (js "https://example.com/search?page=3")
         noOptions.
Proof.
  intros url.
  split; [vm_compute; reflexivity|]. split; [vm_compute; reflexivity|].
  split; [intros head options; vm_compute; reflexivity|].
  refine (proj1 (proj2 (proj2
            (query_parameter_detection Model.online url
               (URL.Make (js "https") [] [] (Some (js "example.com")) None
                  (URL.Segments [js "search"]) (Some (js "page=2")) None)
               next noOptions _))) (js "page") 2%Z _ _).
  - vm_compute. reflexivity.
  - vm_compute. reflexivity.
  - unfold Number.safe. vm_compute. reflexivity.
Defined.

(** The order of the three names, and a value that does not parse. *)
Example page_before_p_before_index :
  specTarget (URLSearchParams.parse (js "index=7&p=5&page=3")) = Some (js "page", 3%Z)
  /\ specTarget (URLSearchParams.parse (js "index=7&p=5&page=x")) = Some (js "p", 5%Z)
  /\ specTarget (URLSearchParams.parse (js "index=7&p=&page=x")) = Some (js "index", 7%Z)
  /\ specTarget (URLSearchParams.parse (js "q=7")) = None.
Proof. vm_compute. repeat split; reflexivity. Qed.

(** *** C5: path-segment detection *)

(** C5.  For a URL that parses, path-segment detection takes the path without
    its trailing slash, when it has one.  When that path is a prefix ending
    in [/], [-] or [_] followed by digits up to its end, the adjacent number
    is the number plus or minus one; zero or less gives not-found, otherwise
    the candidate is origin, prefix and adjacent number, query string and
    fragment, one after the other, returned when verification is off or the
    probe confirms it.  A path of another shape gives not-found.  When the
    query holds no target parameter, [findUrlByPattern] is this detection. *)
Theorem path_segment_detection (P : Platform) (url : jsstring) (u : URL.t)
  (d : Direction) (options : BaseOptions) :
  URL_new url None = inl u ->
  let path := stripTrailingSlash (URL.pathname u) in
  removeFirst TRAILING_SLASH (URL.pathname u) = path
  /\ (forall prefix digits,
        pagePath path prefix digits -> Number.safe (Number.digitsValue digits) ->
        findUrlByPathSegment url d options
        = if (adjacent d (Number.digitsValue digits) <=? 0)%Z then ret None
          else verifiedCandidate
                 (origin u ++ (prefix ++ Number.String (adjacent d (Number.digitsValue digits)))
                  ++ URL.search u ++ URL.hash u) options)
  /\ ((forall prefix digits, ~ pagePath path prefix digits) ->
      findUrlByPathSegment url d options = ret None)
  /\ (findTarget (URLSearchParams.ofURL u) pageKeys = None ->
      findUrlByPattern url d options = findUrlByPathSegment url d options).
Proof.
  intros Hu path. split; [apply removeFirst_TRAILING_SLASH|].
  pose proof (findUrlByPathSegment_parsed url u d options Hu) as E. fold path in E.
  split.
  { intros prefix digits H _. apply splitFrom_pagePath in H. rewrite E, H. reflexivity. }
  split.
  { intros H. rewrite E. destruct (splitFrom path) as [[a ds]|] eqn:S; [|reflexivity].
    apply splitFrom_pagePath in S. destruct (H a ds S). }
  intros H. rewrite findUrlByPattern_unfold.
  assert (Q : findUrlByQueryParam url d options = ret None).
  { rewrite (findUrlByQueryParam_parsed url u d options Hu), <- findTarget_specTarget, H.
    reflexivity. }
  rewrite Q. cbn [ret result trace fst snd app].
  rewrite findUrlByPathSegment_truthy. destruct (findUrlByPathSegment url d options).
  reflexivity.
Qed.

(** C5, witness: [https://example.com/archive/2] gives [.../archive/3] forward
    and [.../archive/1] back. *)
Lemma path_segment_detection_example :
  let url := js "https://example.com/archive/2" in
  findNextByUrl (P := Model.online) url noOptions
  = (Some (js "https://example.com/archive/3"),
     [Head (js "https://example.com/archive/3")])
  /\ findPrevByUrl (P := Model.online) url noOptions
     = (Some (js "https://example.com/archive/1"),
        [Head (js "https://example.com/archive/1")])
  /\ findUrlByPathSegment (P := Model.online) url next noOptions
     = verifiedCandidate (P := Model.online) (js "https://example.com/archive/3") noOptions.
Proof.
  intros url.
  split; [vm_compute; reflexivity|]. split; [vm_compute; reflexivity|].
  refine (proj1 (proj2
            (path_segment_detection Model.online url
               (URL.Make (js "https") [] [] (Some (js "example.com")) None
                  (URL.Segments [js "archive"; js "2"]) None None)
               next noOptions _)) (js "/archive/") (js "2") _ _).
  - vm_compute. reflexivity.
  - unfold pagePath. split; [vm_compute; reflexivity|]. split; [discriminate|].
    split; [reflexivity|]. exists (js "/archive"), 47%N.
    split; [reflexivity|]. split; reflexivity.
  - unfold Number.safe. vm_compute. reflexivity.
Defined.

(** A trailing slash, a hyphen, the query string and the fragment, and the
    lower bound. *)
Example path_segment_variants :
  result (findNextByUrl (P := Model.online)
            (js "https://example.com/list/page-9/?sort=asc#top") unverified)
  = Some (js "https://example.com/list/page-10?sort=asc#top")
  /\ result (findPrevByUrl (P := Model.online) (js "https://example.com/archive/1")
               unverified) = None
  /\ findNextByUrl (P := Model.online) (js "https://example.com/about") noOptions
     = (None, []).
Proof. vm_compute. repeat split; reflexivity. Qed.

(** *** C6: the other query parameters *)

(** C6, counterexample.  The claim says that only the target parameter
    differs between the query string of the input and that of the candidate.
    The candidate's query string is written anew from the parameter list: in
    [?page=2&tag] the piece [tag] becomes [tag=], and in
    [?page=2&page=7&q=a%20b] the second [page] is dropped, so that [q] moves
    up, and [a%20b] becomes [a+b]. *)
Lemma query_rewrite_reserializes_and_drops_duplicates :
  findNextByUrl (P := Model.online) (js "https://example.com/list?page=2&tag") noOptions
  = (Some (js "https://example.com/list?page=3&tag="),
     [Head (js "https://example.com/list?page=3&tag=")])
  /\ sameButTarget (js "page") (queryPieces (js "page=2&tag")) (queryPieces (js "page=3&tag="))
     = false
  /\ findNextByUrl (P := Model.online)
       (js "https://example.com/list?page=2&page=7&q=a%20b") noOptions
     = (Some (js "https://example.com/list?page=3&q=a+b"),
        [Head (js "https://example.com/list?page=3&q=a+b")])
  /\ sameButTarget (js "page") (queryPieces (js "page=2&page=7&q=a%20b"))
       (queryPieces (js "page=3&q=a+b")) = false.
Proof. vm_compute. repeat split; reflexivity. Qed.

(** C6, amended.  For a target with a page number of magnitude below 2^53,
    the candidate of query-parameter detection is the input URL with its
    query replaced by the form-urlencoded serialization of the parameter list
    after [set], and that list is what the query string of the candidate
    holds when it is parsed again: every parameter other than the target
    keeps its decoded name and value, and these parameters keep their
    relative order; the target is there exactly once, with the adjacent
    value, in the place of its first occurrence in the input (the one whose
    value was read), and its later occurrences are gone. *)
Theorem query_rewrite_keeps_other_parameters (P : Platform) (url : jsstring) (u : URL.t)
  (d : Direction) (options : BaseOptions) (key : jsstring) (n : Z) (candidate : jsstring) :
  URL_new url None = inl u ->
  findTarget (URLSearchParams.ofURL u) pageKeys = Some (key, n) ->
  Number.safe n ->
  result (findUrlByQueryParam url d options) = Some candidate ->
  let params := URLSearchParams.ofURL u in
  let params' := URLSearchParams.set params key (Number.String (adjacent d n)) in
  let u' := URL.withQuery u (Some (URLSearchParams.serialize params')) in
  candidate = URL.href u'
  /\ URLSearchParams.ofURL u' = params'
  /\ URLSearchParams.remove params' key = URLSearchParams.remove params key
  /\ URLSearchParams.get params' key = Some (Number.String (adjacent d n))
  /\ length (filter (named key) params') = 1
  /\ exists before v after,
       params = before ++ (key, v) :: after
       /\ filter (named key) before = []
       /\ Number.parseInt v = Some n
       /\ params'
          = before ++ (key, Number.String (adjacent d n))
              :: URLSearchParams.remove after key.
Proof.
  intros Hu Ht _ Hr params params' u'.
  split.
  - rewrite (findUrlByQueryParam_parsed url u d options Hu) in Hr.
    rewrite <- findTarget_specTarget, Ht in Hr.
    destruct (adjacent d n <=? 0)%Z; [discriminate|].
    unfold verifiedCandidate in Hr. rewrite result_bind in Hr.
    destruct (result (verified _ options)); [|discriminate].
    injection Hr as <-. unfold queryCandidate. rewrite update_set. reflexivity.
  - split; [exact (rewritten_query_parses_back u key n (adjacent d n) Ht)|].
    split; [apply remove_set|]. split; [apply get_set|]. split; [apply named_set|].
    destruct (findTarget_get _ _ _ _ Ht) as (v & G & E).
    destruct (set_first _ _ _ (Number.String (adjacent d n)) G)
      as (before & after & R & F & S).
    exists before, v, after. repeat split; assumption.
Qed.

(** C6, witness: [?q=a%20b&page=2&lang=en&page=7], forward. *)
Lemma query_rewrite_keeps_other_parameters_example :
  let url := js "https://example.com/list?q=a%20b&page=2&lang=en&page=7" in
  let u := URL.Make (js "https") [] [] (Some (js "example.com")) None
             (URL.Segments [js "list"]) (Some (js "q=a%20b&page=2&lang=en&page=7")) None in
  let params := [(js "q", js "a b"); (js "page", js "2"); (js "lang", js "en");
                 (js "page", js "7")] in
  let params' := [(js "q", js "a b"); (js "page", js "3"); (js "lang", js "en")] in
  let u' := URL.withQuery u (Some (js "q=a+b&page=3&lang=en")) in
  URLSearchParams.ofURL u = params
  /\ js "https://example.com/list?q=a+b&page=3&lang=en" = URL.href u'
  /\ URLSearchParams.ofURL u' = params'
  /\ URLSearchParams.remove params' (js "page") = URLSearchParams.remove params (js "page")
  /\ URLSearchParams.get params' (js "page") = Some (js "3")
  /\ length (filter (named (js "page")) params') = 1
  /\ exists before v after,
       params = before ++ (js "page", v) :: after
       /\ filter (named (js "page")) before = []
       /\ Number.parseInt v = Some 2%Z
       /\ params' = before ++ (js "page", js "3") :: URLSearchParams.remove after (js "page").
Proof.
  intros url u params params' u'. split; [vm_compute; reflexivity|].
  refine (query_rewrite_keeps_other_parameters Model.online url u
            next unverified (js "page") 2%Z
            (js "https://example.com/list?q=a+b&page=3&lang=en") _ _ _ _).
  - vm_compute. reflexivity.
  - vm_compute. reflexivity.
  - unfold Number.safe. vm_compute. reflexivity.
  - vm_compute. reflexivity.
Defined.

(** *** C7: what the engine returns *)

(** C7.  A link that [findLink] (and so [findNext] or [findPrev]) returns is
    the serialization of the URL record that the URL parser made of a
    non-empty [href] value, read from the attribute text of a tag of the
    document, and the base URL: it is the [href] of a parsed URL, which
    starts with the scheme and a colon, and never the raw attribute value. *)
Theorem findLink_result_is_resolved_href (P : Platform) (html baseUrl : jsstring)
  (d : Direction) (options : FindNextOptions) (u : jsstring) :
  result (findLink html baseUrl d options) = Some u ->
  exists attributes href record tail,
    occursIn html attributes
    /\ extractAttribute attributes (js "href") = Some href
    /\ href <> []
    /\ URL_new href (Some baseUrl) = inl record
    /\ u = URL.href record
    /\ u = URL.scheme record ++ js ":" ++ tail.
Proof.
  intros H. apply findLink_found in H. destruct H as [method Hs].
  apply strategies_resolved in Hs. destruct Hs as [a [Ho Ha]].
  apply resolveAndReturn_found in Ha.
  destruct Ha as [href [record [H1 [H2 [H3 H4]]]]].
  exists a, href, record. eexists.
  split; [exact Ho|]. split; [exact H1|]. split; [apply truthy_nonempty; exact H2|].
  split; [exact H3|]. split; [exact H4|].
  rewrite H4. unfold URL.href. reflexivity.
Qed.

(** C7, witness: [href="/page/2"] with the base [https://example.com] gives
    [https://example.com/page/2]. *)
Lemma findLink_result_is_resolved_href_example :
  let html := js "<head><link rel=" ++ quoted dquote (js "next")
              ++ js " href=" ++ quoted dquote (js "/page/2") ++ js "></head>" in
  result (findNext (P := Model.online) html exampleBase noFindOptions)
  = Some (js "https://example.com/page/2")
  /\ exists attributes href record tail,
       occursIn html attributes
       /\ extractAttribute attributes (js "href") = Some href
       /\ href <> []
       /\ URL_new (Platform := Model.online) href (Some exampleBase) = inl record
       /\ js "https://example.com/page/2" = URL.href record
       /\ js "https://example.com/page/2" = URL.scheme record ++ js ":" ++ tail.
Proof.
  intros html. split; [vm_compute; reflexivity|].
  apply (findLink_result_is_resolved_href Model.online html exampleBase next noFindOptions).
  vm_compute. reflexivity.
Defined.

(** The links of the repository's tests, one for each strategy. *)
Example relative_hrefs_resolve_against_the_base :
  let run html := result (findNext (P := Model.online) html exampleBase noFindOptions) in
  run (js "<head><link rel='next' href='/page/2'></head>") = Some (js "https://example.com/page/2")
  /\ run (js "<div class='pagination'><li class='current'>1</li> <li class=''><a href='/page/2'>2</a></li></div>")
     = Some (js "https://example.com/page/2")
  /\ run (js "<div class='pagination'><span class='current'>1</span> <a href='/page/2'>2</a></div>")
     = Some (js "https://example.com/page/2")
  /\ run (js "<footer><a href='?p=2'>Next</a></footer>") = Some (js "https://example.com/?p=2")
  /\ run (js "<a class='next-btn' href='/articles/2'>Article</a>")
     = Some (js "https://example.com/articles/2")
  /\ run (js "<a href='/p/2' aria-label='Next page'></a>") = Some (js "https://example.com/p/2")
  /\ run (js "<a href='/images/2'><img src='next.png' alt='Next' /></a>")
     = Some (js "https://example.com/images/2")
  /\ run (js "<body><p>No links here.</p></body>") = None.
Proof. vm_compute. repeat split; reflexivity. Qed.

(** *** C8: an invalid href *)




(** *** C9: the attribute lookup *)

(** C9.  The attribute lookup finds the requested name anywhere in the
    attribute text: when the text is some characters, none of which is the
    first letter of the name in either case, then the name, [=] and a quoted
    value, that value is returned, whatever the characters before the name
    are (the rest of a longer attribute name, say) and whatever follows the
    value (a later attribute of that very name, say).  For [href] the link
    resolver then resolves that value. *)
Theorem attribute_lookup_is_unanchored (P : Platform) (c0 : char)
  (name pre : jsstring) (q : char) (v rest0 : jsstring) :
  forallb (fun x => negb (foldsTo c0 x)) pre = true ->
  q = squote \/ q = dquote ->
  forallb noQuote v = true ->
  let attributes := pre ++ (c0 :: name) ++ js "=" ++ quoted q v ++ rest0 in
  extractAttribute attributes (c0 :: name) = Some v
  /\ (c0 :: name = js "href" ->
      forall baseUrl options,
        extractAbsoluteHref attributes baseUrl options
        = extractAbsoluteHref (js "href=" ++ quoted q v) baseUrl options).
Proof.
  intros Hpre Hq Hv attributes.
  assert (E : forall r, extractAttribute (pre ++ (c0 :: name) ++ js "=" ++ quoted q v ++ r)
                          (c0 :: name) = Some v).
  { intros r. apply extractAttribute_substring; [|exact Hq|exact Hv].
    intros x Hx. rewrite forallb_forall in Hpre. specialize (Hpre x Hx).
    destruct (foldsTo c0 x); [discriminate|reflexivity]. }
  split; [apply E|].
  intros Hn baseUrl options. unfold extractAbsoluteHref.
  rewrite <- Hn. unfold attributes. rewrite E.
  change (js "href=") with (js "href" ++ js "="). rewrite <- Hn.
  assert (E0 : extractAttribute (((c0 :: name) ++ js "=") ++ quoted q v) (c0 :: name) = Some v).
  { pose proof (extractAttribute_substring c0 name [] q v []
                  (fun x (H : In x []) => match H with end) Hq Hv) as E0.
    cbn [app] in E0. rewrite app_nil_r in E0. rewrite <- app_assoc. exact E0. }
  rewrite E0. reflexivity.
Qed.

(** C9, witness: in [<a data-href="/a" rel="next" href="/b">] the lookup of
    [href] returns [/a], and [findNext] returns [https://example.com/a]. *)
Lemma attribute_lookup_is_unanchored_example :
  extractAttribute shadowedHref (js "href") = Some (js "/a")
  /\ findNext (P := Model.online) (js "<a " ++ shadowedHref ++ js ">") exampleBase
       noFindOptions
     = (Some (js "https://example.com/a"), []).
Proof.
  split; [|vm_compute; reflexivity].
  refine (proj1 (attribute_lookup_is_unanchored Model.online 104%N (js "ref") (js "data-")
                   dquote (js "/a")
                   (js " rel=" ++ quoted dquote (js "next") ++ js " href="
                    ++ quoted dquote (js "/b")) _ _ _)).
  - reflexivity.
  - right. reflexivity.
  - reflexivity.
Defined.

(** *** C10: an empty href *)



(** ** Further properties of the program *)

(** *** The matcher finds only members of [matches] *)

Section Soundness.

Variable f : flags.

Lemma repeat_sound r g :
  (forall k s e, m f r k s = Some e -> exists s', matches f r s s' /\ k s' = Some e) ->
  forall n k s e,
    repeat (m f r) g k n s = Some e ->
    exists s', matches f (Star g r) s s' /\ k s' = Some e.
Proof.
  intros Hr. induction n as [|n IH]; intros k s e H.
  - exists s. split; [constructor | exact H].
  - cbn [repeat] in H.
    assert (Hmore : forall e',
               m f r (fun s' => if length (rest s') <? length (rest s)
                                then repeat (m f r) g k n s' else None) s = Some e' ->
               exists s', matches f (Star g r) s s' /\ k s' = Some e').
    { intros e' H'. apply Hr in H'. destruct H' as (s1 & M1 & H1).
      destruct (length (rest s1) <? length (rest s)) eqn:L; [|discriminate].
      apply Nat.ltb_lt in L. apply IH in H1. destruct H1 as (s2 & M2 & H2).
      exists s2. split; [|exact H2]. eapply matches_Star_more; eassumption. }
    destruct g.
    + destruct (m f r _ s) as [e'|] eqn:E.
      * inversion H; subst e'. apply Hmore. reflexivity.
      * exists s. split; [constructor | exact H].
    + destruct (k s) as [e'|] eqn:E.
      * inversion H; subst e'. exists s. split; [constructor | exact E].
      * apply Hmore. exact H.
Qed.

Lemma m_sound r :
  forall k s e, m f r k s = Some e -> exists s', matches f r s s' /\ k s' = Some e.
Proof.
  induction r as [ | c | neg items | | r1 IH1 r2 IH2 | r1 IH1 r2 IH2 | g r1 IH1
                 | i r1 IH1 | i | | | ]; intros k s e H; cbn [m] in H.
  - exists s. split; [constructor | exact H].
  - destruct (rest s) as [|x t] eqn:R; [discriminate|].
    destruct (eqc f c x) eqn:E; [|discriminate].
    exists (step x t s). split; [constructor; assumption | exact H].
  - destruct (rest s) as [|x t] eqn:R; [discriminate|].
    destruct (in_class f neg items x) eqn:E; [|discriminate].
    exists (step x t s). split; [constructor; assumption | exact H].
  - destruct (rest s) as [|x t] eqn:R; [discriminate|].
    destruct (dotAll f || negb (is_line_terminator x)) eqn:E; [|discriminate].
    exists (step x t s). split; [constructor; assumption | exact H].
  - apply IH1 in H. destruct H as (s1 & M1 & H). apply IH2 in H.
    destruct H as (s2 & M2 & H). exists s2. split; [econstructor; eassumption | exact H].
  - destruct (m f r1 k s) as [e'|] eqn:E.
    + inversion H; subst e'. apply IH1 in E. destruct E as (s1 & M1 & E).
      exists s1. split; [apply matches_Alt_left; exact M1 | exact E].
    + apply IH2 in H. destruct H as (s1 & M1 & H).
      exists s1. split; [apply matches_Alt_right; exact M1 | exact H].
  - eapply repeat_sound; eassumption.
  - apply IH1 in H. destruct H as (s1 & M1 & H).
    eexists. split; [apply matches_Grp; exact M1 | exact H].
  - destruct (cap_get i (caps s)) as [t|] eqn:C.
    + destruct (strip f t (rest s) (behind s)) as [[p s']|] eqn:S; [|discriminate].
      eexists. split; [eapply matches_Bref; eassumption | exact H].
    + exists s. split; [apply matches_Bref_unset; exact C | exact H].
  - destruct (behind s) eqn:B; [discriminate|].
    exists s. split; [constructor; exact B | exact H].
  - destruct (rest s) eqn:R; [|discriminate].
    exists s. split; [constructor; exact R | exact H].
  - destruct (xorb (word_before s) (word_after s)) eqn:W; [|discriminate].
    exists s. split; [constructor; exact W | exact H].
Qed.

Lemma strip_suffix t : forall s p p' s',
  strip f t s p = Some (p', s') -> exists t', s = t' ++ s' /\ Forall2 (fun c x => eqc f c x = true) t t'.
Proof.
  induction t as [|c t IH]; intros s p p' s' H; cbn [strip] in H.
  - inversion H; subst. exists []. split; [reflexivity | constructor].
  - destruct s as [|x s0]; [discriminate|].
    destruct (eqc f c x) eqn:E; [|discriminate].
    apply IH in H. destruct H as (t' & -> & F).
    exists (x :: t'). split; [reflexivity | constructor; assumption].
Qed.

(** What a match reads is the front of what was left to read. *)
Lemma matches_suffix r s s' : matches f r s s' -> exists v, rest s = v ++ rest s'.
Proof.
  induction 1; try (exists []; reflexivity);
    try (exists [x]; cbn; assumption).
  - destruct IHmatches1 as (v1 & E1). destruct IHmatches2 as (v2 & E2).
    exists (v1 ++ v2). rewrite E1, E2, app_assoc. reflexivity.
  - assumption.
  - assumption.
  - destruct IHmatches1 as (v1 & E1). destruct IHmatches2 as (v2 & E2).
    exists (v1 ++ v2). rewrite E1, E2, app_assoc. reflexivity.
  - assumption.
  - apply strip_suffix in H0. destruct H0 as (t' & E & _). exists t'. exact E.
Qed.

Lemma firstn_consumed (v w : jsstring) : firstn (length (v ++ w) - length w) (v ++ w) = v.
Proof.
  rewrite length_app, Nat.add_sub. rewrite firstn_app, Nat.sub_diag, firstn_all.
  cbn. apply app_nil_r.
Qed.

Lemma matches_inside whole r s s' :
  matches f r s s' -> inside whole s -> inside whole s'.
Proof.
  induction 1; intros I; try exact I; try (now auto).
  - destruct I as ((a & E) & C). split; [|exact C].
    exists (a ++ [x]). cbn. rewrite <- app_assoc. rewrite E, H. reflexivity.
  - destruct I as ((a & E) & C). split; [|exact C].
    exists (a ++ [x]). cbn. rewrite <- app_assoc. rewrite E, H. reflexivity.
  - destruct I as ((a & E) & C). split; [|exact C].
    exists (a ++ [x]). cbn. rewrite <- app_assoc. rewrite E, H. reflexivity.
  - pose proof (IHmatches I) as I'. destruct I as ((a & E) & C).
    destruct I' as ((a' & E') & C'). split; [exists a'; exact E'|].
    cbn [caps]. intros j v [J|J]; [|eapply C'; exact J].
    inversion J; subst j v. apply matches_suffix in H. destruct H as (v & R).
    rewrite R, firstn_consumed. exists a, (rest s'). rewrite E, R. reflexivity.
  - destruct I as ((a & E) & C). split; [|exact C]. cbn [rest].
    apply strip_suffix in H0. destruct H0 as (t' & R & _).
    exists (a ++ t'). rewrite E, R, app_assoc. reflexivity.
Qed.

End Soundness.

Lemma cap_get_In i l v : cap_get i l = Some v -> In (i, v) l.
Proof.
  induction l as [|[j w] l IH]; cbn [cap_get]; [discriminate|].
  destruct (Nat.eqb i j) eqn:E.
  - intros H. inversion H; subst w. apply Nat.eqb_eq in E. subst j. left. reflexivity.
  - intros H. right. apply IH. exact H.
Qed.

Lemma search_sound re : forall s before p x,
  search re before p s = Some x ->
  exists pre s0 p0 e,
    s = pre ++ s0
    /\ m (re_flags re) (re_body re) Some (MState p0 s0 []) = Some e
    /\ m_before x = rev before ++ pre
    /\ m_text x = firstn (length s0 - length (rest e)) s0
    /\ m_after x = rest e
    /\ m_caps x = caps e.
Proof.
  induction s as [|c s IH]; intros before p x H; rewrite search_eq in H.
  - destruct (m _ _ _ _) as [e|] eqn:E; [|discriminate].
    inversion H; subst x. exists [], [], p, e. cbn [m_before m_text m_after m_caps].
    repeat split; auto using app_nil_r; try (symmetry; apply app_nil_r).
  - destruct (m _ _ _ _) as [e|] eqn:E.
    + inversion H; subst x. exists [], (c :: s), p, e. cbn [m_before m_text m_after m_caps].
      repeat split; auto; try (symmetry; apply app_nil_r).
    + apply IH in H. destruct H as (pre & s0 & p0 & e & -> & M & B & T & A & C).
      exists (c :: pre), s0, p0, e. cbn [rev] in B. rewrite <- app_assoc in B.
      repeat split; auto.
Qed.

(** A match found by [search]: the matched text lies between what comes
    before and what comes after, the pattern reads exactly that text, and the
    captures are pieces of the searched text. *)
Lemma search_matches re s before p x :
  search re before p s = Some x ->
  m_before x ++ m_text x ++ m_after x = rev before ++ s
  /\ (exists p0 e,
        matches (re_flags re) (re_body re) (MState p0 (m_text x ++ m_after x) []) e
        /\ rest e = m_after x /\ caps e = m_caps x)
  /\ forall i v, group i x = Some v -> occurs v (m_text x ++ m_after x).
Proof.
  intros H. apply search_sound in H.
  destruct H as (pre & s0 & p0 & e & -> & M & B & T & A & C).
  apply m_sound in M. destruct M as (e' & M & E). inversion E; subst e'.
  pose proof (matches_suffix _ _ _ _ M) as (v & R). cbn [rest] in R.
  assert (Tv : m_text x = v) by (rewrite T, R; apply firstn_consumed).
  assert (S0 : m_text x ++ m_after x = s0) by (rewrite Tv, A; symmetry; exact R).
  split; [rewrite S0, B, <- app_assoc; reflexivity|].
  split.
  - exists p0, e. rewrite S0. auto.
  - intros i w G. unfold group in G. rewrite C in G. apply cap_get_In in G.
    assert (I : inside s0 (MState p0 s0 [])).
    { split; [exists []; reflexivity | intros ? ? []]. }
    apply (matches_inside _ _ _ _ _ M) in I. destruct I as (_ & I).
    rewrite S0. exact (I _ _ G).
Qed.

Lemma occurs_app_l v a b : occurs v b -> occurs v (a ++ b).
Proof. intros (x & y & ->). exists (a ++ x), y. rewrite <- app_assoc. reflexivity. Qed.

Lemma occurs_trans a b c : occurs a b -> occurs b c -> occurs a c.
Proof.
  intros (x & y & ->) (x' & y' & ->). exists (x' ++ x), (y ++ y').
  rewrite <- !app_assoc. reflexivity.
Qed.

Lemma matchAll_from_matches re : forall n before p s x,
  In x (matchAll_from n re before p s) ->
  m_before x ++ m_text x ++ m_after x = rev before ++ s
  /\ (exists p0 e,
        matches (re_flags re) (re_body re) (MState p0 (m_text x ++ m_after x) []) e
        /\ rest e = m_after x /\ caps e = m_caps x)
  /\ forall i v, group i x = Some v -> occurs v (rev before ++ s).
Proof.
  induction n as [|n IH]; intros before p s x H; cbn [matchAll_from] in H; [destruct H|].
  destruct (search re before p s) as [y|] eqn:S; [|destruct H].
  pose proof (search_matches _ _ _ _ _ S) as (W & Mt & G).
  destruct H as [->|H].
  - split; [exact W|]. split; [exact Mt|].
    intros i v Hv. rewrite <- W. apply occurs_app_l. exact (G i v Hv).
  - assert (Hrec : forall before' p' s',
               rev before' ++ s' = rev before ++ s ->
               In x (matchAll_from n re before' p' s') ->
               m_before x ++ m_text x ++ m_after x = rev before ++ s
               /\ (exists p0 e,
                      matches (re_flags re) (re_body re)
                        (MState p0 (m_text x ++ m_after x) []) e
                      /\ rest e = m_after x /\ caps e = m_caps x)
               /\ forall i v, group i x = Some v -> occurs v (rev before ++ s)).
    { intros before' p' s' E Hin. apply IH in Hin. rewrite E in Hin. exact Hin. }
    destruct (m_text y) as [|c t] eqn:T; destruct (m_after y) as [|d r] eqn:A.
    + destruct H.
    + eapply Hrec; [|exact H]. cbn [rev]. rewrite rev_involutive, <- app_assoc.
      rewrite <- W. reflexivity.
    + eapply Hrec; [|exact H]. rewrite rev_app_distr, !rev_involutive, <- app_assoc.
      rewrite <- W. reflexivity.
    + eapply Hrec; [|exact H]. rewrite rev_app_distr, !rev_involutive, <- app_assoc.
      rewrite <- W. reflexivity.
Qed.

Lemma matchAll_matches re html x :
  In x (matchAll re html) ->
  m_before x ++ m_text x ++ m_after x = html
  /\ (exists p0 e,
        matches (re_flags re) (re_body re) (MState p0 (m_text x ++ m_after x) []) e
        /\ rest e = m_after x /\ caps e = m_caps x)
  /\ forall i v, group i x = Some v -> occurs v html.
Proof. intros H. apply matchAll_from_matches in H. exact H. Qed.

Lemma exec_matches re s x :
  exec re s = Some x ->
  m_before x ++ m_text x ++ m_after x = s
  /\ (exists p0 e,
        matches (re_flags re) (re_body re) (MState p0 (m_text x ++ m_after x) []) e
        /\ rest e = m_after x /\ caps e = m_caps x)
  /\ forall i v, group i x = Some v -> occurs v s.
Proof.
  intros H. pose proof (search_matches _ _ _ _ _ H) as (W & Mt & G).
  cbn [rev app] in W.
  split; [exact W|]. split; [exact Mt|].
  intros i v Hv. rewrite <- W. apply occurs_app_l. exact (G i v Hv).
Qed.

Lemma matches_LitS f t : forall s s',
  matches f (LitS t) s s' ->
  exists t',
    rest s = t' ++ rest s'
    /\ Forall2 (fun c x => eqc f c x = true) t t'
    /\ caps s' = caps s.
Proof.
  induction t as [|c t IH]; intros s s' H.
  - inversion H; subst. exists []. repeat split. constructor.
  - change (LitS (c :: t)) with (Seq (Chr c) (LitS t)) in H.
    inversion H as [ | | | | r1 r2 s0 s1 s2 H1 H2 | | | | | | | | | | ]; subst.
    inversion H1 as [ | c0 x u s0 R E | | | | | | | | | | | | | ]; subst.
    apply IH in H2. destruct H2 as (t' & R2 & F & C).
    exists (x :: t'). cbn [rest step] in R2. rewrite R, R2. repeat split.
    + constructor; assumption.
    + rewrite C. reflexivity.
Qed.

Lemma matches_Star_class f g neg items s s' :
  matches f (Star g (Cls neg items)) s s' ->
  exists v,
    rest s = v ++ rest s'
    /\ forallb (in_class f neg items) v = true
    /\ caps s' = caps s.
Proof.
  intros H. remember (Star g (Cls neg items)) as r eqn:Er.
  induction H; inversion Er; subst.
  - exists []. repeat split.
  - clear IHmatches1. specialize (IHmatches2 eq_refl).
    destruct IHmatches2 as (v & R2 & F & C).
    inversion H as [ | | n0 i0 x u s0 R E | | | | | | | | | | | | ]; subst.
    exists (x :: v). cbn [rest step] in R2. rewrite R, R2. repeat split.
    + cbn [forallb]. rewrite E, F. reflexivity.
    + rewrite C. reflexivity.
Qed.

Lemma matches_Cls_inv f neg items s s' :
  matches f (Cls neg items) s s' ->
  exists x, rest s = x :: rest s' /\ in_class f neg items x = true /\ caps s' = caps s.
Proof.
  intros H. inversion H; subst. exists x. repeat split; assumption.
Qed.

Lemma matches_Grp_inv f i r s s' :
  matches f (Grp i r) s s' ->
  exists s1 v,
    matches f r s s1 /\ rest s = v ++ rest s1
    /\ rest s' = rest s1 /\ caps s' = (i, v) :: caps s1.
Proof.
  intros H. inversion H as [ | | | | | | | | | i0 r0 s0 s1 M | | | | | ]; subst.
  pose proof (matches_suffix _ _ _ _ M) as (v & R).
  exists s1, v. cbn [rest caps]. rewrite R at 2 3. rewrite firstn_consumed. auto.
Qed.

Lemma space_class f x : in_class f false [Space] x = is_space x.
Proof. unfold in_class. cbn. rewrite orb_false_r. reflexivity. Qed.

Lemma quote_class x :
  in_class f_i false [One squote; One dquote] x = true -> x = squote \/ x = dquote.
Proof.
  unfold in_class. cbn [existsb in_item xorb]. unfold eqc. cbn [ignoreCase f_i].
  rewrite !canon_quote by auto. rewrite orb_false_r.
  intros H. apply orb_prop in H. destruct H as [H|H]; apply N.eqb_eq in H; auto.
Qed.

(** What the attribute pattern reads. *)
Lemma attribute_matches name s e :
  matches f_i (re_body (attributeRegex name)) s e ->
  exists name' ws1 ws2 q v,
    rest s = name' ++ ws1 ++ js "=" ++ ws2 ++ quoted q v ++ rest e
    /\ sameLetters name name'
    /\ forallb is_space ws1 = true /\ forallb is_space ws2 = true
    /\ (q = squote \/ q = dquote)
    /\ forallb noQuote v = true
    /\ cap_get value (caps e) = Some v.
Proof.
  unfold attributeRegex, re_body, Cat, fold_right. intros H.
  inversion H as [ | | | | r1 r2 s0 s1 s2 H1 H2 | | | | | | | | | | ]; subst; clear H.
  apply matches_LitS in H1. destruct H1 as (name' & R1 & F1 & C1).
  inversion H2 as [ | | | | r1 r2 s0 s2 s3 H3 H4 | | | | | | | | | | ]; subst; clear H2.
  apply matches_Star_class in H3. destruct H3 as (ws1 & R2 & F2 & C2).
  inversion H4 as [ | | | | r1 r2 s0 s3 s4 H5 H6 | | | | | | | | | | ]; subst; clear H4.
  apply (matches_LitS f_i (js "=")) in H5. destruct H5 as (eq' & R3 & F3 & C3).
  inversion H6 as [ | | | | r1 r2 s0 s4 s5 H7 H8 | | | | | | | | | | ]; subst; clear H6.
  apply matches_Star_class in H7. destruct H7 as (ws2 & R4 & F4 & C4).
  inversion H8 as [ | | | | r1 r2 s0 s5 s6 H9 H10 | | | | | | | | | | ]; subst; clear H8.
  apply matches_Grp_inv in H9. destruct H9 as (s5' & qv & H9 & R5 & R5' & C5).
  apply matches_Cls_inv in H9. destruct H9 as (q & R5q & Q & C5q).
  inversion H10 as [ | | | | r1 r2 s0 s6 s7 H11 H12 | | | | | | | | | | ]; subst; clear H10.
  apply matches_Grp_inv in H11. destruct H11 as (s6' & v & H11 & R6 & R6' & C6).
  apply matches_Star_class in H11. destruct H11 as (v' & R6v & F6 & C6v).
  inversion H12 as [ | | | | r1 r2 s0 s7 s8 H13 H14 | | | | | | | | | | ]; subst; clear H12.
  inversion H14; subst; clear H14.
  assert (Hq : qv = [q]).
  { rewrite R5q in R5. change (q :: rest s5') with ([q] ++ rest s5') in R5.
    apply app_inv_tail in R5. symmetry. exact R5. }
  assert (Hv : v' = v).
  { rewrite R6v in R6. apply app_inv_tail in R6. exact R6. }
  subst qv v'.
  apply quote_class in Q.
  assert (Hq1 : cap_get 1 (caps s6) = Some [q]).
  { rewrite C6, C6v, C5. reflexivity. }
  assert (Heq : eq' = js "=").
  { inversion F3 as [|c x t t' E F]; subst. inversion F; subst.
    unfold eqc in E. cbn [ignoreCase f_i] in E.
    apply N.eqb_eq in E. revert E. unfold canon, is_lower, in_range.
    destruct ((97 <=? x) && (x <=? 122))%N eqn:L; cbn; intros E.
    - apply andb_prop in L. destruct L as [L1 L2].
      apply N.leb_le in L1. apply N.leb_le in L2. lia.
    - subst x. reflexivity. }
  subst eq'.
  inversion H13 as [ | | | | | | | | | | i0 s0 U | i0 t p s9 s0 G S | | | ]; subst.
  { rewrite Hq1 in U. discriminate. }
  rewrite Hq1 in G. inversion G; subst t. cbn [strip] in S.
  destruct (rest s6) as [|x r6] eqn:R7; [discriminate|].
  destruct (eqc f_i q x) eqn:E; [|discriminate].
  inversion S; subst p s9. cbn [rest caps].
  unfold eqc in E. cbn [ignoreCase f_i] in E. rewrite canon_quote in E by exact Q.
  apply N.eqb_eq in E. subst x.
  exists name', ws1, ws2, q, v. repeat split.
  - rewrite R1, R2, R3, R4, R5, <- R5', R6, <- R6'. unfold quoted.
    cbn [app]. rewrite <- app_assoc. reflexivity.
  - exact F1.
  - rewrite <- F2. apply forallb_same. intros x. symmetry. apply space_class.
  - rewrite <- F4. apply forallb_same. intros x. symmetry. apply space_class.
  - exact Q.
  - rewrite <- F6. apply forallb_same. intros x. symmetry. apply notquote_class.
  - rewrite C6, C6v, C5. reflexivity.
Qed.

Lemma extractAttribute_shape attributes name v :
  extractAttribute attributes name = Some v ->
  exists pre name' ws1 ws2 q post,
    attributes = pre ++ name' ++ ws1 ++ js "=" ++ ws2 ++ quoted q v ++ post
    /\ sameLetters name name'
    /\ forallb is_space ws1 = true /\ forallb is_space ws2 = true
    /\ (q = squote \/ q = dquote)
    /\ forallb noQuote v = true.
Proof.
  unfold extractAttribute. destruct (exec _ attributes) as [x|] eqn:E; [|discriminate].
  intros G. apply exec_matches in E. destruct E as (W & (p0 & e & M & Rr & Ce) & _).
  apply attribute_matches in M.
  destruct M as (name' & ws1 & ws2 & q & w & R & F & S1 & S2 & Q & NQ & C).
  cbn [rest] in R. unfold group in G. rewrite <- Ce, C in G. inversion G; subst w.
  exists (m_before x), name', ws1, ws2, q, (rest e).
  rewrite <- W, R. repeat split; assumption.
Qed.

Lemma noQuote_quote q : q = squote \/ q = dquote -> noQuote q = false.
Proof. intros [->| ->]; reflexivity. Qed.

Lemma extractAttribute_needs_quote attributes name :
  forallb noQuote attributes = true -> extractAttribute attributes name = None.
Proof.
  intros H. destruct (extractAttribute attributes name) as [v|] eqn:E; [|reflexivity].
  apply extractAttribute_shape in E.
  destruct E as (pre & name' & ws1 & ws2 & q & post & -> & _ & _ & _ & Q & _).
  rewrite forallb_forall in H. specialize (H q).
  rewrite (noQuote_quote q Q) in H. exfalso. apply Bool.diff_false_true. apply H.
  do 5 (apply in_or_app; right). apply in_or_app. left. left. reflexivity.
Qed.

Lemma truthyGroup_group i x s : truthyGroup i x = Some s -> group i x = Some s.
Proof.
  unfold truthyGroup. destruct (group i x) as [t|]; [|discriminate].
  destruct (truthy t); [|discriminate]. auto.
Qed.

Lemma occursIn_occurs html a : occursIn html a -> occurs a html.
Proof.
  intros [(re & x & Hin & G) | (x & c & re & y & Hin & Gc & E & G)].
  - apply truthyGroup_group in G. apply matchAll_matches in Hin.
    destruct Hin as (_ & _ & H). exact (H _ _ G).
  - apply truthyGroup_group in G. apply truthyGroup_group in Gc.
    apply matchAll_matches in Hin. destruct Hin as (_ & _ & H).
    apply exec_matches in E. destruct E as (_ & _ & H').
    eapply occurs_trans; [exact (H' _ _ G) | exact (H _ _ Gc)].
Qed.

Lemma occurs_forallb (p : char -> bool) v whole :
  occurs v whole -> forallb p whole = true -> forallb p v = true.
Proof.
  intros (a & b & ->) H. rewrite !forallb_app in H.
  apply andb_prop in H. destruct H as [_ H]. apply andb_prop in H. tauto.
Qed.

Section Events.

Context {P : Platform}.

Lemma extractAbsoluteHref_events attributes baseUrl (options : BaseOptions) ev :
  In ev (trace (extractAbsoluteHref attributes baseUrl options)) ->
  logger options = true
  /\ exists href message,
       extractAttribute attributes (js "href") = Some href
       /\ href <> []
       /\ URL_new href (Some baseUrl) = inr message
       /\ ev = Logged warn (invalidUrlMessage href baseUrl message).
Proof.
  unfold extractAbsoluteHref.
  destruct (extractAttribute attributes (js "href")) as [href|] eqn:E; [|intros []].
  destruct href as [|c h]; [intros []|]. cbn [truthy].
  destruct (URL_new (c :: h) (Some baseUrl)) as [u|message] eqn:U; [intros []|].
  unfold log. destruct (logger options); [|intros []].
  cbn. intros [<-|[]]. split; [reflexivity|].
  exists (c :: h), message. repeat split; auto. discriminate.
Qed.

Lemma resolveAndReturn_trace attributes baseUrl (options : BaseOptions) :
  trace (resolveAndReturn attributes baseUrl options)
  = trace (extractAbsoluteHref attributes baseUrl options).
Proof. unfold resolveAndReturn. rewrite trace_bind. cbn. apply app_nil_r. Qed.

Lemma for_of_events {A B} (l : list A) (body : A -> M (option B)) ev :
  In ev (trace (for_of l body)) -> exists x, In x l /\ In ev (trace (body x)).
Proof.
  induction l as [|x l IH]; [intros []|].
  rewrite for_of_cons. destruct (result (body x)); cbn [trace snd].
  - intros H. exists x. split; [left; reflexivity | exact H].
  - intros H. apply in_app_or in H. destruct H as [H|H].
    + exists x. split; [left; reflexivity | exact H].
    + apply IH in H. destruct H as (y & Hy & H). exists y. split; [right; exact Hy | exact H].
Qed.

Lemma strategies_events html baseUrl d (options : FindNextOptions) method ev :
  In ev (trace (strategies html baseUrl d options method)) ->
  exists a, occursIn html a /\ In ev (trace (resolveAndReturn a baseUrl options)).
Proof.
  destruct method; cbn [strategies];
    [unfold findLinkByRel | unfold findLinkByPaginationStructure | unfold findLinkByText
    | unfold findLinkByClassName | unfold findLinkByAriaLabel | unfold findLinkByAltText];
    intros H; apply for_of_events in H; destruct H as [x [Hin H]].
  - unfold relCandidate in H.
    destruct (truthyGroup attributes x) as [a|] eqn:Ha; [|destruct H].
    destruct (test (REL d) a); [|destruct H].
    exists a. split; [left; exists POTENTIAL_LINK_TAGS, x; auto | exact H].
  - unfold paginationCandidate in H.
    destruct (truthyGroup containerHtml x) as [c|] eqn:Hc; [|destruct H].
    rewrite trace_bind in H.
    assert (T : forall re, In ev (trace (tryRule c baseUrl re options)) ->
                           exists a, occursIn html a
                                     /\ In ev (trace (resolveAndReturn a baseUrl options))).
    { intros re. unfold tryRule.
      destruct (exec re c) as [y|] eqn:Hy; [|intros []].
      destruct (truthyGroup attributes y) as [a|] eqn:Ha; [|intros []].
      intros R. exists a. split; [right; exists x, c, re, y; auto | exact R]. }
    apply in_app_or in H. destruct H as [H|H]; [exact (T _ H)|].
    destruct (result (tryRule c baseUrl (PAGINATION_LI d) options)); [destruct H|].
    exact (T _ H).
  - unfold textCandidate in H.
    destruct (truthyGroup attributes x) as [a|] eqn:Ha; [|destruct H].
    destruct (truthyGroup innerText x) as [t|]; [|destruct H].
    destruct (truthy (cleanText t)); [|destruct H].
    destruct (test (TEXT d) (cleanText t)); [|destruct H].
    exists a. split; [left; exists ANCHOR_TAG, x; auto | exact H].
  - unfold classNameCandidate in H.
    destruct (truthyGroup attributes x) as [a|] eqn:Ha; [|destruct H].
    destruct (_ || _); [|destruct H].
    exists a. split; [left; exists ANCHOR_TAG_START, x; auto | exact H].
  - unfold ariaLabelCandidate in H.
    destruct (truthyGroup attributes x) as [a|] eqn:Ha; [|destruct H].
    destruct (attrMatches _ _); [|destruct H].
    exists a. split; [left; exists ANCHOR_TAG_START, x; auto | exact H].
  - unfold altCandidate in H.
    destruct (truthyGroup attributes x) as [a|] eqn:Ha; [|destruct H].
    destruct (truthyGroup innerText x) as [t|]; [|destruct H].
    apply for_of_events in H. destruct H as [img [_ H]].
    unfold imgCandidate in H.
    destruct (extractAttribute (m_text img) (js "alt")) as [al|]; [|destruct H].
    destruct (_ && _); [|destruct H].
    exists a. split; [left; exists ANCHOR_TAG, x; auto | exact H].
Qed.

Lemma findLink_events html baseUrl d (options : FindNextOptions) ev :
  In ev (trace (findLink html baseUrl d options)) ->
  exists a, occursIn html a /\ In ev (trace (extractAbsoluteHref a baseUrl options)).
Proof.
  unfold findLink. intros H. apply for_of_events in H. destruct H as (method & _ & H).
  rewrite trace_bind in H. cbn [trace ret snd] in H. rewrite app_nil_r in H.
  apply strategies_events in H. destruct H as (a & Ho & H).
  rewrite resolveAndReturn_trace in H. exists a. auto.
Qed.

End Events.

(** *** More on what a match reads *)

Lemma lastOr_app pv v1 v2 : lastOr pv (v1 ++ v2) = lastOr (lastOr pv v1) v2.
Proof.
  revert pv. induction v1 as [|x v1 IH]; intros pv; [reflexivity|].
  cbn [app]. rewrite !lastOr_cons. apply IH.
Qed.

Lemma strip_behind f t : forall s p p' s',
  strip f t s p = Some (p', s') -> exists t', s = t' ++ s' /\ p' = lastOr p t'.
Proof.
  induction t as [|c t IH]; intros s p p' s' H; cbn [strip] in H.
  - inversion H; subst. exists []. split; reflexivity.
  - destruct s as [|x s0]; [discriminate|].
    destruct (eqc f c x); [|discriminate].
    apply IH in H. destruct H as (t' & -> & ->).
    exists (x :: t'). split; [reflexivity | rewrite lastOr_cons; reflexivity].
Qed.

(** The character before the position a match ends at is the last one it
    has read. *)
Lemma matches_behind f r s s' :
  matches f r s s' -> forall v, rest s = v ++ rest s' -> behind s' = lastOr (behind s) v.
Proof.
  assert (Nil : forall (v w : jsstring), w = v ++ w -> v = []).
  { intros v w H. apply (app_inv_tail w). cbn. symmetry. exact H. }
  assert (One : forall x (t v : jsstring), x :: t = v ++ t -> v = [x]).
  { intros x t v H. apply (app_inv_tail t). cbn. symmetry. exact H. }
  assert (Two : forall s0 s1 s2 v,
             (forall v1, rest s0 = v1 ++ rest s1 -> behind s1 = lastOr (behind s0) v1) ->
             (forall v2, rest s1 = v2 ++ rest s2 -> behind s2 = lastOr (behind s1) v2) ->
             (exists v1, rest s0 = v1 ++ rest s1) -> (exists v2, rest s1 = v2 ++ rest s2) ->
             rest s0 = v ++ rest s2 -> behind s2 = lastOr (behind s0) v).
  { intros s0 s1 s2 v H1 H2 (v1 & E1) (v2 & E2) E.
    assert (v = v1 ++ v2).
    { apply (app_inv_tail (rest s2)). rewrite <- E, E1, E2, app_assoc. reflexivity. }
    subst v. rewrite lastOr_app, <- (H1 _ E1). apply H2. exact E2. }
  induction 1; intros v E;
    try (apply Nil in E; subst v; reflexivity);
    try (cbn [step rest behind] in *; rewrite H in E; apply One in E; subst v; reflexivity).
  - eapply (Two s s1 s2); eauto using matches_suffix.
  - auto.
  - auto.
  - eapply (Two s s1 s2); eauto using matches_suffix.
  - cbn [rest behind] in *. auto.
  - cbn [rest behind] in *. apply strip_behind in H0. destruct H0 as (t' & E' & ->).
    assert (v = t') by (apply (app_inv_tail s'); rewrite <- E, E'; reflexivity).
    subst v. reflexivity.
Qed.

Lemma matches_Alt_inv f r1 r2 s s' :
  matches f (Alt r1 r2) s s' -> matches f r1 s s' \/ matches f r2 s s'.
Proof. intros H. inversion H; subst; auto. Qed.

Lemma matches_Seq_inv f r1 r2 s s' :
  matches f (Seq r1 r2) s s' -> exists s1, matches f r1 s s1 /\ matches f r2 s1 s'.
Proof. intros H. inversion H; subst. eauto. Qed.

Lemma matches_Eps_inv f s s' : matches f Eps s s' -> s' = s.
Proof. intros H. inversion H; subst. reflexivity. Qed.

Lemma matches_Wordb_inv f s s' :
  matches f Wordb s s' -> s' = s /\ xorb (word_before s) (word_after s) = true.
Proof. intros H. inversion H; subst. auto. Qed.

Lemma matches_Bref_inv f i s s' :
  matches f (Bref i) s s' ->
  (cap_get i (caps s) = None /\ s' = s)
  \/ exists t p r,
       cap_get i (caps s) = Some t
       /\ strip f t (rest s) (behind s) = Some (p, r)
       /\ s' = MState p r (caps s).
Proof.
  intros H. inversion H; subst; [left; auto|]. right. eexists _, _, _. eauto.
Qed.

Lemma notquote_class' x :
  in_class f_i true [One squote; One dquote] x = noQuote x.
Proof.
  unfold in_class, noQuote. cbn [existsb in_item]. unfold eqc. cbn [ignoreCase f_i].
  rewrite (canon_quote x dquote (or_intror eq_refl)), (canon_quote x squote (or_introl eq_refl)).
  rewrite orb_false_r. rewrite (N.eqb_sym dquote), (N.eqb_sym squote). reflexivity.
Qed.

Lemma folds_word c x : is_lower c = true -> foldsTo c x = true -> is_word x = true.
Proof.
  intros Hc H. unfold foldsTo, canon in H. rewrite Hc in H.
  unfold is_word, is_lower, is_upper, is_digit, in_range in *.
  apply andb_prop in Hc. destruct Hc as [H1 H2].
  apply N.leb_le in H1. apply N.leb_le in H2.
  destruct ((97 <=? x) && (x <=? 122))%N eqn:Hx; [reflexivity|].
  apply N.eqb_eq in H. subst x.
  replace ((65 <=? c - 32) && (c - 32 <=? 90))%N with true; [reflexivity|].
  symmetry. apply andb_true_intro. split; apply N.leb_le; lia.
Qed.

Lemma relWord_ends d w :
  relWord d w ->
  exists c t c', w = c :: t /\ is_word c = true
                 /\ lastOr None w = Some c' /\ is_word c' = true.
Proof.
  assert (L : forall l w0, sameLetters l w0 -> forallb is_lower l = true -> l <> [] ->
                           exists c t c', w0 = c :: t /\ is_word c = true
                                          /\ lastOr None w0 = Some c' /\ is_word c' = true).
  { intros l w0 F. induction F as [|x y l0 w1 E F IH]; intros Hl Hn; [congruence|].
    cbn [forallb] in Hl. apply andb_prop in Hl. destruct Hl as [Hx Hl].
    pose proof (folds_word x y Hx E) as Wy.
    destruct F as [|x' y' l1 w2 E' F'].
    - exists y, [], y. repeat split; auto.
    - destruct IH as (c & t & c' & Ew & _ & La & Wc'); [exact Hl | discriminate|].
      exists y, (y' :: w2), c'. repeat split; auto.
      rewrite lastOr_cons. rewrite <- La. inversion Ew; subst.
      rewrite !lastOr_cons. reflexivity. }
  destruct d; cbn [relWord].
  - intros H. apply (L _ _ H); [reflexivity | discriminate].
  - intros [H|H]; apply (L _ _ H); try reflexivity; discriminate.
Qed.

Lemma rel_matches d s e :
  matches f_i (re_body (REL d)) s e ->
  exists rel' ws1 ws2 q a w b,
    rest s = rel' ++ ws1 ++ js "=" ++ ws2 ++ quoted q (a ++ w ++ b) ++ rest e
    /\ sameLetters (js "rel") rel'
    /\ forallb is_space ws1 = true /\ forallb is_space ws2 = true
    /\ (q = squote \/ q = dquote)
    /\ forallb noQuote a = true /\ forallb noQuote b = true
    /\ relWord d w
    /\ (forall c, lastOr None a = Some c -> is_word c = false)
    /\ (forall c t, b = c :: t -> is_word c = false).
Proof.
  unfold REL, re_body, Cat, fold_right. intros H.
  apply matches_Seq_inv in H. destruct H as (s1 & H1 & H).
  apply (matches_LitS f_i (js "rel")) in H1. destruct H1 as (rel' & R1 & F1 & C1).
  apply matches_Seq_inv in H. destruct H as (s2 & H2 & H).
  apply matches_Star_class in H2. destruct H2 as (ws1 & R2 & F2 & C2).
  apply matches_Seq_inv in H. destruct H as (s3 & H3 & H).
  apply (matches_LitS f_i (js "=")) in H3. destruct H3 as (eq' & R3 & F3 & C3).
  apply matches_Seq_inv in H. destruct H as (s4 & H4 & H).
  apply matches_Star_class in H4. destruct H4 as (ws2 & R4 & F4 & C4).
  apply matches_Seq_inv in H. destruct H as (s5 & H5 & H).
  pose proof (matches_behind _ _ _ _ H5) as B5.
  apply matches_Grp_inv in H5. destruct H5 as (s5' & qv & H5 & R5 & R5' & C5).
  apply matches_Cls_inv in H5. destruct H5 as (q & R5q & Q & C5q).
  apply matches_Seq_inv in H. destruct H as (s6 & H6 & H).
  pose proof (matches_behind _ _ _ _ H6) as B6.
  apply matches_Star_class in H6. destruct H6 as (a & R6 & F6 & C6).
  apply matches_Seq_inv in H. destruct H as (s6' & W1 & H).
  apply matches_Wordb_inv in W1. destruct W1 as (-> & W1).
  apply matches_Seq_inv in H. destruct H as (s7 & H7 & H).
  pose proof (matches_behind _ _ _ _ H7) as B7.
  pose proof (matches_suffix _ _ _ _ H7) as (w & R7).
  assert (Hw : relWord d w /\ caps s7 = match d with
                                         | next => caps s6
                                         | prev => (2, w) :: caps s6
                                         end).
  { destruct d; cbn [relWord].
    - apply (matches_LitS f_i (js "next")) in H7. destruct H7 as (w' & Rw & Fw & Cw).
      assert (w' = w) by (apply (app_inv_tail (rest s7)); rewrite <- Rw, R7; reflexivity).
      subst w'. auto.
    - apply matches_Grp_inv in H7. destruct H7 as (s7' & w0 & H7 & Rw0 & Rw1 & Cw).
      assert (w0 = w).
      { apply (app_inv_tail (rest s7)). rewrite Rw1, <- Rw0, R7, Rw1. reflexivity. }
      subst w0. rewrite <- Rw1 in Rw0.
      apply matches_Alt_inv in H7. destruct H7 as [H7|H7].
      + apply (matches_LitS f_i (js "prev")) in H7. destruct H7 as (w' & Rw & Fw & Cw').
        assert (w' = w) by (apply (app_inv_tail (rest s7')); rewrite <- Rw, R7, Rw1; reflexivity).
        subst w'. rewrite Cw, Cw'. auto.
      + apply (matches_LitS f_i (js "previous")) in H7.
        destruct H7 as (w' & Rw & Fw & Cw').
        assert (w' = w) by (apply (app_inv_tail (rest s7')); rewrite <- Rw, R7, Rw1; reflexivity).
        subst w'. rewrite Cw, Cw'. auto. }
  destruct Hw as (Hw & C7).
  apply matches_Seq_inv in H. destruct H as (s7'' & W2 & H).
  apply matches_Wordb_inv in W2. destruct W2 as (-> & W2).
  apply matches_Seq_inv in H. destruct H as (s8 & H8 & H).
  apply matches_Star_class in H8. destruct H8 as (b & R8 & F8 & C8).
  apply matches_Seq_inv in H. destruct H as (s9 & H9 & H).
  apply matches_Eps_inv in H. subst s9.
  assert (Hq : qv = [q]).
  { rewrite R5q in R5. change (q :: rest s5') with ([q] ++ rest s5') in R5.
    apply app_inv_tail in R5. symmetry. exact R5. }
  subst qv. apply quote_class in Q.
  assert (Hq1 : cap_get 1 (caps s8) = Some [q]).
  { rewrite C8, C7, C6, C5. destruct d; reflexivity. }
  assert (Heq : eq' = js "=").
  { inversion F3 as [|c x t t' E F]; subst. inversion F; subst.
    unfold eqc in E. cbn [ignoreCase f_i] in E.
    apply N.eqb_eq in E. revert E. unfold canon, is_lower, in_range.
    destruct ((97 <=? x) && (x <=? 122))%N eqn:L; cbn; intros E.
    - apply andb_prop in L. destruct L as [L1 L2].
      apply N.leb_le in L1. apply N.leb_le in L2. lia.
    - subst x. reflexivity. }
  subst eq'.
  apply matches_Bref_inv in H9.
  destruct H9 as [(U & _)|(t & p & r & G & S & ->)]; [rewrite Hq1 in U; discriminate|].
  rewrite Hq1 in G. inversion G; subst t. cbn [strip] in S.
  destruct (rest s8) as [|x r8] eqn:R9; [discriminate|].
  destruct (eqc f_i q x) eqn:E; [|discriminate].
  inversion S; subst p r. cbn [rest].
  unfold eqc in E. cbn [ignoreCase f_i] in E. rewrite canon_quote in E by exact Q.
  apply N.eqb_eq in E. subst x.
  destruct (relWord_ends d w Hw) as (c0 & t0 & c1 & Ew & Wc0 & Lw & Wc1).
  exists rel', ws1, ws2, q, a, w, b. repeat split.
  - rewrite R1, R2, R3, R4, R5, <- R5', R6, R7, R8. unfold quoted.
    cbn [app]. rewrite <- !app_assoc. reflexivity.
  - exact F1.
  - rewrite <- F2. apply forallb_same. intros x. symmetry. apply space_class.
  - rewrite <- F4. apply forallb_same. intros x. symmetry. apply space_class.
  - exact Q.
  - rewrite <- F6. apply forallb_same. intros x. symmetry. apply notquote_class'.
  - rewrite <- F8. apply forallb_same. intros x. symmetry. apply notquote_class'.
  - exact Hw.
  - intros c La. unfold word_before, word_after in W1. rewrite R7, Ew in W1.
    cbn [app] in W1. rewrite Wc0 in W1.
    rewrite (B6 a R6) in W1.
    assert (Ba : lastOr (behind s5) a = Some c).
    { destruct a as [|x a0]; [discriminate La|].
      rewrite lastOr_cons in *. exact La. }
    rewrite Ba in W1. destruct (is_word c); [discriminate | reflexivity].
  - intros c t Eb. unfold word_before, word_after in W2.
    rewrite (B7 w R7) in W2.
    assert (Bw : lastOr (behind s6) w = Some c1).
    { rewrite Ew in *. rewrite lastOr_cons in *. exact Lw. }
    rewrite Bw, Wc1, R8, Eb in W2. cbn [app] in W2.
    destruct (is_word c); [discriminate | reflexivity].
Qed.

(** *** Literal patterns *)

Lemma folds_lower c x :
  is_lower c = true -> foldsTo c x = true -> x = c \/ x = (c - 32)%N.
Proof.
  unfold foldsTo, canon, is_lower, in_range. intros Hc. rewrite Hc.
  apply andb_prop in Hc. destruct Hc as [H1 H2].
  apply N.leb_le in H1. apply N.leb_le in H2.
  destruct ((97 <=? x) && (x <=? 122))%N eqn:Hx; intros E; apply N.eqb_eq in E.
  - apply andb_prop in Hx. destruct Hx as [H3 H4].
    apply N.leb_le in H3. apply N.leb_le in H4. left. lia.
  - right. lia.
Qed.

Lemma older_both t :
  sameLetters (js "older") t ->
  test (TEXT next) t = true /\ test (TEXT prev) t = true.
Proof.
  intros H.
  repeat match goal with
         | H : sameLetters _ _ |- _ => unfold sameLetters in H
         | H : Forall2 _ (js _) _ |- _ => inversion H; subst; clear H
         | H : Forall2 _ (_ :: _) _ |- _ => inversion H; subst; clear H
         | H : Forall2 _ [] _ |- _ => inversion H; subst; clear H
         end.
  repeat match goal with
         | H : foldsTo _ _ = true |- _ =>
             apply folds_lower in H; [destruct H; subst | reflexivity]
         end;
    vm_compute; split; reflexivity.
Qed.

Lemma m_LitS_folded f t : forall t' k pv r cs,
  Forall2 (fun c x => eqc f c x = true) t t' ->
  m f (LitS t) k (MState pv (t' ++ r) cs) = k (MState (lastOr pv t') r cs).
Proof.
  induction t as [|c t IH]; intros t' k pv r cs F; inversion F as [|c0 x t0 t1 E F']; subst.
  - reflexivity.
  - change (LitS (c :: t)) with (Seq (Chr c) (LitS t)). rewrite m_Seq, m_Chr.
    unfold single. cbn [rest app]. rewrite E. unfold step. cbn [caps].
    rewrite IH by exact F'. rewrite lastOr_cons. reflexivity.
Qed.

(** A search that fails has failed at every position. *)
Lemma search_none re pre : forall before p s0,
  search re before p (pre ++ s0) = None ->
  m (re_flags re) (re_body re) Some (MState (lastOr p pre) s0 []) = None.
Proof.
  induction pre as [|x pre IH]; intros before p s0 H; rewrite search_eq in H.
  - cbn [app] in H. destruct (m _ _ _ _); [discriminate | reflexivity].
  - cbn [app] in H. destruct (m _ _ _ _); [discriminate|].
    rewrite lastOr_cons. eapply IH. exact H.
Qed.

Lemma test_true_iff re s : test re s = true <-> exists x, exec re s = Some x.
Proof.
  unfold test. destruct (exec re s) as [x|]; split; try discriminate.
  - intros _. exists x. reflexivity.
  - reflexivity.
  - intros (x & H). discriminate.
Qed.

Lemma test_literal w s :
  w <> [] ->
  test (Re f_i (LitS w)) s = true
  <-> exists a w' b, s = a ++ w' ++ b /\ sameLetters w w'.
Proof.
  intros Hw. rewrite test_true_iff. split.
  - intros (x & E). apply exec_matches in E. destruct E as (W & (p0 & e & M & R & _) & _).
    cbn [re_flags re_body] in M. apply matches_LitS in M. destruct M as (w' & Rw & F & _).
    cbn [rest] in Rw. exists (m_before x), w', (rest e).
    split; [rewrite <- W, Rw; reflexivity | exact F].
  - intros (a & w' & b & -> & F).
    destruct (exec (Re f_i (LitS w)) (a ++ w' ++ b)) as [x|] eqn:E; [exists x; reflexivity|].
    unfold exec in E. apply search_none in E. cbn [re_flags re_body] in E.
    rewrite (m_LitS_folded f_i w w' Some _ b [] F) in E. discriminate.
Qed.

(** *** [includes] and the outcomes of [fetchHtml] *)

Lemma startsWith_spec s sub : startsWith s sub = true <-> exists b, s = sub ++ b.
Proof.
  revert s. induction sub as [|c sub IH]; intros s.
  - split; [intros _; exists s; reflexivity | destruct s; reflexivity].
  - destruct s as [|x s]; cbn [startsWith].
    + split; [discriminate | intros (b & H); discriminate].
    + rewrite andb_true_iff, N.eqb_eq, IH. split.
      * intros (-> & b & ->). exists b. reflexivity.
      * intros (b & H). inversion H; subst. split; [reflexivity | exists b; reflexivity].
Qed.

Lemma includes_spec s sub : includes s sub = true <-> occurs sub s.
Proof.
  induction s as [|x s IH].
  - cbn [includes]. rewrite orb_false_r, startsWith_spec. split.
    + intros (b & H). exists [], b. exact H.
    + intros (a & b & H). destruct a; [exists b; exact H|discriminate].
  - cbn [includes]. rewrite orb_true_iff, startsWith_spec, IH. split.
    + intros [(b & H)|(a & b & H)].
      * exists [], b. exact H.
      * exists (x :: a), b. rewrite H. reflexivity.
    + intros (a & b & H). destruct a as [|y a].
      * left. exists b. exact H.
      * right. inversion H; subst. exists a, b. reflexivity.
Qed.

Section FetchFacts.

Context {net : Network}.

Lemma fetchHtml_cases url (options : BaseOptions) :
  fetchHtml url options
  = match fetch url (effectiveTimeout options) with
    | inr message =>
        (None, trace (log options error
                        (js "Error fetching or parsing " ++ url ++ js ": " ++ message)))
    | inl response =>
        if negb (Response.ok response) then
          (None, trace (log options warn
                          (js "Failed to fetch " ++ url ++ js ": "
                           ++ Number.String (Z.of_N (Response.status response)) ++ js " "
                           ++ Response.statusText response)))
        else if negb (isHtml (Response.contentType response)) then
          (None, trace (log options warn
                          (js "URL " ++ url ++ js " did not return HTML content.")))
        else
          match Response.text response with
          | inl html => (Some html, [])
          | inr message =>
              (None, trace (log options error
                              (js "Error fetching or parsing " ++ url ++ js ": " ++ message)))
          end
    end.
Proof.
  unfold fetchHtml, isHtml.
  destruct (fetch url (effectiveTimeout options)) as [response|message].
  - destruct (Response.ok response); cbn [negb].
    + destruct (Response.contentType response) as [[|c t]|].
      * cbn. unfold log. destruct (logger options); reflexivity.
      * cbn [truthy negb orb].
        destruct (includes (c :: t) (js "text/html")); cbn [negb].
        -- destruct (Response.text response); [reflexivity|].
           unfold log. destruct (logger options); reflexivity.
        -- unfold log. destruct (logger options); reflexivity.
      * cbn. unfold log. destruct (logger options); reflexivity.
    + unfold log. destruct (logger options); reflexivity.
  - unfold log. destruct (logger options); reflexivity.
Qed.

End FetchFacts.

(** *** The probes of URL pattern inference *)

Section InferenceFacts.

Context {P : Platform}.

Lemma verifiedCandidate_cases candidate (options : BaseOptions) :
  verifiedCandidate candidate options
  = match verifyExists options with
    | Some false => (Some candidate, [])
    | _ => (if HEAD_ok candidate then Some candidate else None, [Head candidate])
    end.
Proof.
  unfold verifiedCandidate, verified, urlExists.
  destruct (verifyExists options) as [[|]|]; reflexivity.
Qed.

(** Either detection stops without a request, or its outcome is that of the
    verification of one candidate. *)
Lemma detection_cases url d (options : BaseOptions) :
  forall detection,
    detection = findUrlByQueryParam url d options
    \/ detection = findUrlByPathSegment url d options ->
    (result detection = None /\ forallb (fun ev => negb (isProbe ev)) (trace detection) = true)
    \/ exists candidate, detection = verifiedCandidate candidate options.
Proof.
  intros detection H.
  destruct (URL_new url None) as [u|message] eqn:U.
  - destruct H as [-> | ->].
    + rewrite (findUrlByQueryParam_parsed url u d options U).
      destruct (specTarget _) as [[key n]|]; [|left; split; reflexivity].
      destruct (_ <=? _)%Z; [left; split; reflexivity|].
      right. eexists. reflexivity.
    + rewrite (findUrlByPathSegment_parsed url u d options U).
      destruct (splitFrom _) as [[prefix digits]|]; [|left; split; reflexivity].
      destruct (_ <=? _)%Z; [left; split; reflexivity|].
      right. eexists. reflexivity.
  - left. destruct H as [-> | ->];
      [unfold findUrlByQueryParam | unfold findUrlByPathSegment];
      rewrite U; unfold log; destruct (logger options); split; reflexivity.
Qed.

End InferenceFacts.

(** *** Numbers as text, and the parameter list under [set] *)

Module NumberFacts.

Local Open Scope N_scope.

Ltac Zify.zify_post_hook ::= Z.to_euclidean_division_equations.

Lemma digitsOf_acc fuel : forall n acc,
  Number.digitsOf fuel n acc = Number.digitsOf fuel n [] ++ acc.
Proof.
  induction fuel as [|fuel IH]; intros n acc; [reflexivity|].
  cbn [Number.digitsOf]. destruct (n <? 10); [reflexivity|].
  rewrite (IH _ (_ :: acc)), (IH _ [_]), <- app_assoc. reflexivity.
Qed.

Lemma digitsValue_snoc ds c :
  Number.digitsValue (ds ++ [c]) = (10 * Number.digitsValue ds + (Z.of_N c - 48))%Z.
Proof. unfold Number.digitsValue. rewrite fold_left_app. reflexivity. Qed.

Lemma digitsOf_value fuel : forall n,
  n < 10 ^ N.of_nat fuel ->
  let ds := Number.digitsOf fuel n [] in
  Number.digitsValue ds = Z.of_N n
  /\ forallb is_digit ds = true /\ (fuel <> O -> ds <> []).
Proof.
  induction fuel as [|fuel IH]; intros n Hn.
  - cbn in Hn. assert (n = 0) by lia. subst n. cbn. repeat split. congruence.
  - cbn [Number.digitsOf]. destruct (n <? 10) eqn:L.
    + apply N.ltb_lt in L. cbn zeta. repeat split.
      * unfold Number.digitsValue. cbn [fold_left]. lia.
      * cbn [forallb]. unfold is_digit, in_range.
        apply andb_true_intro; split;
          [apply andb_true_intro; split; apply N.leb_le; lia | reflexivity].
      * discriminate.
    + apply N.ltb_ge in L. rewrite digitsOf_acc.
      assert (Hq : n / 10 < 10 ^ N.of_nat fuel).
      { rewrite Nat2N.inj_succ, N.pow_succ_r' in Hn. lia. }
      destruct (IH _ Hq) as (V & D & _). cbn zeta. repeat split.
      * rewrite digitsValue_snoc, V. lia.
      * rewrite forallb_app, D. cbn [forallb andb]. unfold is_digit, in_range.
        apply andb_true_intro; split;
          [apply andb_true_intro; split; apply N.leb_le; lia | reflexivity].
      * intros _ E. apply app_eq_nil in E. destruct E as [_ E]. discriminate.
Qed.

Lemma decimal_value n :
  Number.digitsValue (Number.decimal n) = Z.of_N n
  /\ forallb is_digit (Number.decimal n) = true /\ Number.decimal n <> [].
Proof.
  unfold Number.decimal.
  assert (H : n < 10 ^ N.of_nat (S (N.to_nat (N.log2 n)))).
  { rewrite Nat2N.inj_succ, N2Nat.id.
    destruct (N.eq_dec n 0) as [->|Hn]; [cbn; lia|].
    assert (n < 2 ^ N.succ (N.log2 n)) by (apply N.log2_spec; lia).
    assert (2 ^ N.succ (N.log2 n) <= 10 ^ N.succ (N.log2 n))
      by (apply N.pow_le_mono_l; lia).
    lia. }
  destruct (digitsOf_value _ _ H) as (V & D & E). repeat split; auto.
Qed.

Lemma parseInt_String n : (0 <= n)%Z -> Number.parseInt (Number.String n) = Some n.
Proof.
  intros Hn. assert (E : Number.String n = Number.decimal (Z.to_N n)).
  { destruct n; try reflexivity. lia. }
  rewrite E. destruct (decimal_value (Z.to_N n)) as (V & D & NE).
  rewrite parseInt_digits by assumption. rewrite V. f_equal. lia.
Qed.

Lemma String_truthy n : truthy (Number.String n) = true.
Proof.
  destruct n as [|p|p]; [reflexivity | | reflexivity].
  change (truthy (Number.decimal (N.pos p)) = true).
  destruct (decimal_value (N.pos p)) as (_ & _ & NE).
  destruct (Number.decimal (N.pos p)); [congruence | reflexivity].
Qed.

End NumberFacts.

Section SetFacts.

Import URLSearchParams.

Lemma eqs_sym a b : eqs a b = eqs b a.
Proof.
  revert b. induction a as [|x a IH]; destruct b as [|y b]; cbn [eqs]; try reflexivity.
  rewrite IH, N.eqb_sym. reflexivity.
Qed.

Lemma get_remove_other l key k : eqs k key = false -> get (remove l key) k = get l k.
Proof.
  intros H. induction l as [|[n v] l IH]; [reflexivity|].
  unfold remove in *. cbn [filter fst get].
  destruct (eqs n key) eqn:E; cbn [negb get].
  - apply eqs_eq in E. subst n. rewrite eqs_sym, H. exact IH.
  - rewrite IH. reflexivity.
Qed.

Lemma get_set_other l key value k :
  eqs k key = false -> get (set l key value) k = get l k.
Proof.
  intros H. induction l as [|[n v] l IH]; cbn [set get].
  - rewrite eqs_sym, H. reflexivity.
  - destruct (eqs n key) eqn:E; cbn [get].
    + apply eqs_eq in E. subst n. rewrite eqs_sym, H. apply get_remove_other. exact H.
    + rewrite IH. reflexivity.
Qed.

Lemma set_set l key value value' :
  set (set l key value) key value' = set l key value'.
Proof.
  induction l as [|[n v] l IH]; cbn [set].
  - rewrite eqs_refl. reflexivity.
  - destruct (eqs n key) eqn:E; cbn [set]; rewrite E.
    + rewrite remove_idempotent. reflexivity.
    + rewrite IH. reflexivity.
Qed.

Lemma findTarget_set params keys key n value m :
  findTarget params keys = Some (key, n) ->
  truthy value = true -> Number.parseInt value = Some m ->
  findTarget (set params key value) keys = Some (key, m).
Proof.
  intros H T V. induction keys as [|k keys IH]; [discriminate|].
  cbn [findTarget] in *.
  destruct (eqs k key) eqn:E.
  - apply eqs_eq in E. subst k. rewrite get_set, T, V. reflexivity.
  - rewrite (get_set_other _ _ _ _ E).
    destruct (get params k) as [v|]; [|exact (IH H)].
    destruct (truthy v); [|exact (IH H)].
    destruct (Number.parseInt v); [|exact (IH H)].
    inversion H; subst. rewrite eqs_refl in E. discriminate.
Qed.

End SetFacts.

Section RoundTrip.

Context {P : Platform}.

Lemma queryCandidate_again u key n value value' :
  findTarget (URLSearchParams.ofURL u) pageKeys = Some (key, n) ->
  let u' := URLSearchParams.update u
              (URLSearchParams.set (URLSearchParams.ofURL u) key (Number.String value)) in
  queryCandidate u' key value' = queryCandidate u key value'.
Proof.
  intros H u'. unfold queryCandidate. subst u'. rewrite !update_set.
  rewrite (rewritten_query_parses_back u key n value H).
  rewrite set_set. reflexivity.
Qed.

End RoundTrip.

(** *** The container and image patterns *)

(** The lazy quantifier over a pattern that reads one character: the
    continuation accepts after the run it returns, and after no shorter
    one. *)
Lemma repeat_lazy_first p k : forall n s e,
  length (rest s) < n ->
  repeat (single p) false k n s = Some e ->
  exists v r,
    rest s = v ++ r
    /\ forallb p v = true
    /\ k (MState (lastOr (behind s) v) r (caps s)) = Some e
    /\ forall v1 x v2,
         v = v1 ++ x :: v2 ->
         k (MState (lastOr (behind s) v1) (x :: v2 ++ r) (caps s)) = None.
Proof.
  induction n as [|n IH]; intros s e L H; [lia|].
  cbn [repeat] in H. destruct (k s) as [e'|] eqn:K.
  - inversion H; subst e'. exists [], (rest s). repeat split.
    + cbn [lastOr rev]. rewrite mstate_eta. exact K.
    + intros v1 x v2 E. destruct v1; discriminate.
  - unfold single at 1 in H. destruct (rest s) as [|x t] eqn:R; [discriminate|].
    destruct (p x) eqn:Px; [|discriminate].
    cbn [step rest] in H. cbn [length] in *.
    replace (length t <? S (length t)) with true in H
      by (symmetry; apply Nat.ltb_lt; lia).
    apply IH in H; [|cbn [step rest]; lia].
    destruct H as (v & r & Rv & Fv & Kv & Min). cbn [step rest behind caps] in *.
    exists (x :: v), r. repeat split.
    + rewrite Rv. reflexivity.
    + cbn [forallb]. rewrite Px, Fv. reflexivity.
    + rewrite lastOr_cons. exact Kv.
    + intros v1 y v2 E. destruct v1 as [|z v1].
      * cbn [app] in E. inversion E; subst y v2. cbn [lastOr rev].
        rewrite <- Rv, <- R, mstate_eta. exact K.
      * cbn [app] in E. inversion E; subst z v. rewrite lastOr_cons.
        apply Min. reflexivity.
Qed.

Lemma m_Alt_left f r1 r2 k s : m f r1 k s <> None -> m f (Alt r1 r2) k s <> None.
Proof. cbn [m]. destruct (m f r1 k s); [discriminate | congruence]. Qed.

Lemma m_Alt_right f r1 r2 k s : m f r2 k s <> None -> m f (Alt r1 r2) k s <> None.
Proof. cbn [m]. destruct (m f r1 k s); [discriminate | auto]. Qed.

(** The end of the container pattern accepts a text that starts with a
    closing tag. *)
Lemma containerEnd_accepts w r pv cs :
  closingTag w ->
  m f_i containerEnd Some (MState pv (w ++ r) cs) <> None.
Proof.
  assert (L : forall name w0,
             sameLetters (js "</" ++ name ++ js ">") w0 ->
             exists w1 w2 w3,
               w0 = w1 ++ w2 ++ w3
               /\ Forall2 (fun c x => eqc f_i c x = true) (js "</") w1
               /\ Forall2 (fun c x => eqc f_i c x = true) name w2
               /\ Forall2 (fun c x => eqc f_i c x = true) (js ">") w3).
  { intros name w0 F. apply Forall2_app_inv_l in F.
    destruct F as (w1 & w23 & F1 & F23 & ->).
    apply Forall2_app_inv_l in F23. destruct F23 as (w2 & w3 & F2 & F3 & ->).
    exists w1, w2, w3. auto. }
  assert (Name : forall name w2 w3 pv0,
             Forall2 (fun c x => eqc f_i c x = true) name w2 ->
             Forall2 (fun c x => eqc f_i c x = true) (js ">") w3 ->
             m f_i (LitS name) (m f_i (Seq (LitS (js ">")) Eps) Some)
               (MState pv0 (w2 ++ w3 ++ r) cs) <> None).
  { intros name w2 w3 pv0 F2 F3.
    rewrite (m_LitS_folded f_i _ w2 _ _ _ _ F2), m_Seq.
    rewrite (m_LitS_folded f_i _ w3 _ _ _ _ F3). cbn [m]. discriminate. }
  unfold containerEnd, Cat, fold_right, Alts.
  change (Lit "</") with (LitS (js "</")). change (Lit ">") with (LitS (js ">")).
  change (Lit "div") with (LitS (js "div")). change (Lit "nav") with (LitS (js "nav")).
  change (Lit "ul") with (LitS (js "ul")).
  intros [F|[F|F]];
    [apply (L (js "div")) in F | apply (L (js "nav")) in F | apply (L (js "ul")) in F];
    destruct F as (w1 & w2 & w3 & -> & F1 & F2 & F3);
    rewrite <- !app_assoc; rewrite m_Seq;
    rewrite (m_LitS_folded f_i _ w1 _ _ _ _ F1); rewrite m_Seq.
  - apply m_Alt_left. apply Name; assumption.
  - apply m_Alt_right, m_Alt_left. apply Name; assumption.
  - apply m_Alt_right, m_Alt_right. apply Name; assumption.
Qed.

Lemma containerEnd_matches s e :
  matches f_i containerEnd s e ->
  exists w, rest s = w ++ rest e /\ closingTag w /\ caps e = caps s.
Proof.
  unfold containerEnd, Cat, fold_right, Alts. intros H.
  apply matches_Seq_inv in H. destruct H as (s1 & H1 & H).
  apply (matches_LitS f_i (js "</")) in H1. destruct H1 as (w1 & R1 & F1 & C1).
  apply matches_Seq_inv in H. destruct H as (s2 & H2 & H).
  apply matches_Seq_inv in H. destruct H as (s3 & H3 & H).
  apply (matches_LitS f_i (js ">")) in H3. destruct H3 as (w3 & R3 & F3 & C3).
  apply matches_Eps_inv in H. subst s3.
  assert (N : forall name,
             matches f_i (LitS name) s1 s2 ->
             exists w, rest s = w ++ rest e
                       /\ sameLetters (js "</" ++ name ++ js ">") w /\ caps e = caps s).
  { intros name Hn. apply matches_LitS in Hn. destruct Hn as (w2 & R2 & F2 & C2).
    exists (w1 ++ w2 ++ w3). split; [rewrite R1, R2, R3, <- !app_assoc; reflexivity|].
    split; [|congruence].
    apply Forall2_app; [exact F1|]. apply Forall2_app; assumption. }
  apply matches_Alt_inv in H2. destruct H2 as [H2|H2];
    [|apply matches_Alt_inv in H2; destruct H2 as [H2|H2]];
    apply N in H2; destruct H2 as (w & R & F & C); exists w; unfold closingTag; auto.
Qed.

Lemma suffix_trans (a b c : jsstring) :
  (exists v, a = v ++ b) -> (exists v, b = v ++ c) -> exists v, a = v ++ c.
Proof. intros (v & ->) (w & ->). exists (v ++ w). rewrite app_assoc. reflexivity. Qed.

Lemma m_Star f g r k s :
  m f (Star g r) k s = repeat (m f r) g k (S (length (rest s))) s.
Proof. reflexivity. Qed.

(** What [PAGINATION_CONTAINER] reads: an opening part, the inner markup up
    to the first closing tag, and that closing tag. *)
Lemma container_at s0 e :
  m f_i (re_body PAGINATION_CONTAINER) Some s0 = Some e ->
  exists opening c w,
    rest s0 = opening ++ c ++ w ++ rest e
    /\ cap_get containerHtml (caps e) = Some c
    /\ closingTag w
    /\ forall w', closingTag w' -> ~ occurs w' c.
Proof.
  unfold PAGINATION_CONTAINER, re_body, Cat, fold_right. intros H.
  assert (Hpre : exists v, rest s0 = v ++ rest s0) by (exists []; reflexivity).
  revert H Hpre. generalize s0 at 1 3 as s. intros s H Hpre.
  do 14 (rewrite m_Seq in H; apply m_sound in H;
         let s' := fresh "s" in
         let M := fresh "M" in
         destruct H as (s' & M & H); apply matches_suffix in M;
         pose proof (suffix_trans _ _ _ Hpre M) as Hpre'; clear Hpre M s;
         rename Hpre' into Hpre; rename s' into s).
  destruct Hpre as (opening & Hpre).
  rewrite m_Seq, m_Grp, m_Star in H.
  rewrite (repeat_single f_i _ (in_class f_i false [Space; NonSpace])) in H
    by (intros; apply m_Cls).
  apply repeat_lazy_first in H; [|lia].
  destruct H as (c & r & Rc & _ & K & Min). cbn beta in K. cbn [behind rest caps] in K.
  rewrite Rc, firstn_consumed in K.
  change (m f_i (Seq (Lit "</") (Seq (Alts [Lit "div"; Lit "nav"; Lit "ul"])
                                  (Seq (Lit ">") Eps))))
    with (m f_i containerEnd) in K.
  pose proof K as K'. apply m_sound in K'. destruct K' as (e' & Me & Ee).
  inversion Ee; subst e'. apply containerEnd_matches in Me.
  destruct Me as (w & Rw & Cw & Ce). cbn [rest caps] in Rw, Ce.
  exists opening, c, w. repeat split.
  - rewrite Hpre, Rc, Rw. reflexivity.
  - rewrite Ce. reflexivity.
  - exact Cw.
  - intros w' Cw' (a & b & Ec).
    assert (Hw' : exists x t, w' = x :: t).
    { destruct w' as [|x t]; [|eauto].
      destruct Cw' as [F|[F|F]]; inversion F. }
    destruct Hw' as (x & t & ->).
    specialize (Min a x (t ++ b)). cbn beta in Min. cbn [behind rest caps] in Min.
    rewrite Ec in Min. cbn [app] in Min. rewrite <- !app_assoc in Min.
    specialize (Min eq_refl).
    change (m f_i (Seq (Lit "</") (Seq (Alts [Lit "div"; Lit "nav"; Lit "ul"])
                                    (Seq (Lit ">") Eps))))
      with (m f_i containerEnd) in Min.
    revert Min.
    change (x :: t ++ b ++ r) with ((x :: t) ++ b ++ r).
    apply containerEnd_accepts. exact Cw'.
Qed.

Lemma matchAll_from_search re : forall n before p s x,
  In x (matchAll_from n re before p s) ->
  exists before' p' s', search re before' p' s' = Some x.
Proof.
  induction n as [|n IH]; intros before p s x H; cbn [matchAll_from] in H; [destruct H|].
  destruct (search re before p s) as [y|] eqn:S; [|destruct H].
  destruct H as [->|H]; [eauto|].
  destruct (m_text y); destruct (m_after y); try destruct H; eauto.
Qed.

(** A member of [matchAll] comes from a run of the matcher on its own text
    and what follows it. *)
Lemma matchAll_run re html x :
  In x (matchAll re html) ->
  exists p0 e,
    m (re_flags re) (re_body re) Some (MState p0 (m_text x ++ m_after x) []) = Some e
    /\ rest e = m_after x /\ caps e = m_caps x.
Proof.
  intros H. apply matchAll_from_search in H. destruct H as (before & p & s & H).
  apply search_sound in H. destruct H as (pre & s0 & p0 & e & -> & M & B & T & A & C).
  pose proof M as M'. apply m_sound in M'. destruct M' as (e' & M' & E).
  inversion E; subst e'. apply matches_suffix in M'. destruct M' as (v & R).
  cbn [rest] in R. exists p0, e. rewrite T, A, R, firstn_consumed, <- R. auto.
Qed.




(** ** Further properties: the theorems *)

(** *** X1, X2: [fetchHtml] *)

(** X1.  [fetchHtml] returns a document exactly when [fetch] resolves with a
    response that is [ok], whose [content-type] header holds the text
    [text/html] somewhere (in this very spelling: the test is
    [includes]), and whose [text()] resolves; the document is that text, the
    empty one included.  In every other case the result is null. *)
Theorem fetchHtml_returns_the_body (net : Network) (url : jsstring)
  (options : BaseOptions) (html : jsstring) :
  result (fetchHtml url options) = Some html
  <-> exists response before after,
        fetch url (effectiveTimeout options) = inl response
        /\ Response.ok response = true
        /\ Response.contentType response = Some (before ++ js "text/html" ++ after)
        /\ Response.text response = inl html.
Proof.
  rewrite fetchHtml_cases. split.
  - destruct (fetch url (effectiveTimeout options)) as [response|message]; [|discriminate].
    destruct (Response.ok response) eqn:O; [|discriminate]. cbn [negb].
    destruct (isHtml (Response.contentType response)) eqn:T; [|discriminate]. cbn [negb].
    destruct (Response.text response) as [body|message] eqn:B; [|discriminate].
    intros H. inversion H; subst body.
    unfold isHtml in T.
    destruct (Response.contentType response) as [t|] eqn:Ct; [|discriminate].
    apply includes_spec in T. destruct T as (a & b & ->).
    exists response, a, b. repeat split; auto.
  - intros (response & a & b & -> & -> & T & ->). cbn [negb].
    unfold isHtml. rewrite T.
    replace (includes _ _) with true; [reflexivity|].
    symmetry. apply includes_spec. exists a, b. reflexivity.
Qed.

(** A document served as [text/html; charset=utf-8], the same served as
    [TEXT/HTML], and an empty document. *)
Example content_type_is_read_as_written :
  let page := js "<a rel='next' href='/2'>2</a>" in
  fetchHtml (net := always (inl (htmlResponse (js "text/html; charset=utf-8") page)))
    (js "https://example.com/") withLogger
  = (Some page, [])
  /\ fetchHtml (net := always (inl (htmlResponse (js "TEXT/HTML") page)))
       (js "https://example.com/") withLogger
     = (None, [Logged warn (js "URL https://example.com/ did not return HTML content.")])
  /\ fetchHtml (net := always (inl (htmlResponse (js "text/html") [])))
       (js "https://example.com/") withLogger
     = (Some [], []).
Proof. vm_compute. repeat split; reflexivity. Qed.

(** X2.  [fetchHtml] never throws and calls the logger at most once: not at
    all when it returns a document, and exactly once, when a logger is
    configured, when it returns null.  The message holds the URL.  The level
    is [error] exactly when [fetch] or [text()] rejected, and [warn] when the
    response was not [ok] or was not HTML. *)
Theorem fetchHtml_logs_once_when_it_fails (net : Network) (url : jsstring)
  (options : BaseOptions) :
  (forall html, result (fetchHtml url options) = Some html ->
                trace (fetchHtml url options) = [])
  /\ (result (fetchHtml url options) = None ->
      exists l message,
        trace (fetchHtml url options)
        = (if logger options then [Logged l message] else [])
        /\ occurs url message
        /\ (l = error <-> rejected url options)).
Proof.
  rewrite fetchHtml_cases. unfold rejected, log.
  assert (W : warn = error <-> False) by (split; [discriminate | tauto]).
  destruct (fetch url (effectiveTimeout options)) as [response|message].
  - destruct (Response.ok response) eqn:O; cbn [negb].
    + destruct (isHtml (Response.contentType response)) eqn:T; cbn [negb].
      * destruct (Response.text response) as [body|message] eqn:B.
        -- split; [reflexivity | discriminate].
        -- split; [discriminate|]. intros _. eexists error, _.
           split; [reflexivity|]. split.
           ++ exists (js "Error fetching or parsing "), (js ": " ++ message). reflexivity.
           ++ split; [|reflexivity]. intros _. right. exists response, message. auto.
      * split; [discriminate|]. intros _. eexists warn, _.
        split; [reflexivity|]. split.
        -- exists (js "URL "), (js " did not return HTML content."). reflexivity.
        -- rewrite W. split; [tauto|].
           intros [(message & H)|(r & message & H & _ & T' & _)]; [discriminate|].
           inversion H; subst r. congruence.
    + split; [discriminate|]. intros _. eexists warn, _.
      split; [reflexivity|]. split.
      * eexists (js "Failed to fetch "), _. reflexivity.
      * rewrite W. split; [tauto|].
        intros [(message & H)|(r & message & H & O' & _)]; [discriminate|].
        inversion H; subst r. congruence.
  - split; [discriminate|]. intros _. eexists error, _.
    split; [reflexivity|]. split.
    + exists (js "Error fetching or parsing "), (js ": " ++ message). reflexivity.
    + split; [|reflexivity]. intros _. left. exists message. reflexivity.
Qed.

(** A response with status 404, and a request that is aborted. *)
Example fetchHtml_failures :
  fetchHtml
    (net := always (inl (Response.Make false 404 (js "Not Found")
                           (Some (js "text/html")) (inl (js "<h1>Not Found</h1>")))))
    (js "https://example.com/9") withLogger
  = (None, [Logged warn (js "Failed to fetch https://example.com/9: 404 Not Found")])
  /\ fetchHtml (net := always (inr (js "This operation was aborted")))
       (js "https://example.com/9") withLogger
     = (None,
        [Logged error
           (js "Error fetching or parsing https://example.com/9: This operation was aborted")])
  /\ fetchHtml (net := always (inr (js "This operation was aborted")))
       (js "https://example.com/9") noOptions
     = (None, []).
Proof. vm_compute. repeat split; reflexivity. Qed.

(** *** X3, X4: what [extractAttribute] reads *)

(** X3.  A value that [extractAttribute] returns for one of the attribute
    names of the program stands in the attribute text between two quotes of
    the same kind, after the name in any letter case, optional white space,
    [=] and optional white space; it holds no quote of either kind. *)
Theorem extractAttribute_value_is_quoted (attributes name v : jsstring) :
  In name attributeNames ->
  extractAttribute attributes name = Some v ->
  exists pre name' ws1 ws2 q post,
    attributes = pre ++ name' ++ ws1 ++ js "=" ++ ws2 ++ quoted q v ++ post
    /\ sameLetters name name'
    /\ forallb is_space ws1 = true /\ forallb is_space ws2 = true
    /\ (q = squote \/ q = dquote)
    /\ forallb noQuote v = true.
Proof. intros _. apply extractAttribute_shape. Qed.

(** X3, witness: [class='next' HREF = "/page/2"]. *)
Lemma extractAttribute_value_is_quoted_example :
  let attributes := js "class='next' HREF = " ++ quoted dquote (js "/page/2") in
  exists pre name' ws1 ws2 q post,
    attributes = pre ++ name' ++ ws1 ++ js "=" ++ ws2 ++ quoted q (js "/page/2") ++ post
    /\ sameLetters (js "href") name'
    /\ forallb is_space ws1 = true /\ forallb is_space ws2 = true
    /\ (q = squote \/ q = dquote)
    /\ forallb noQuote (js "/page/2") = true.
Proof.
  apply (extractAttribute_value_is_quoted
           (js "class='next' HREF = " ++ quoted dquote (js "/page/2")) (js "href")
           (js "/page/2")).
  - left. reflexivity.
  - vm_compute. reflexivity.
Defined.

(** X4.  An attribute text without any quote character gives no value, for
    every attribute name of the program: a value that is not quoted, as in
    [href=/page/2], is not read. *)
Theorem unquoted_attributes_are_not_read (attributes name : jsstring) :
  In name attributeNames ->
  forallb noQuote attributes = true ->
  extractAttribute attributes name = None.
Proof. intros _. apply extractAttribute_needs_quote. Qed.

(** X4, witness: [href=/page/2 rel=next]. *)
Lemma unquoted_attributes_are_not_read_example :
  extractAttribute (js "href=/page/2 rel=next") (js "href") = None.
Proof.
  apply (unquoted_attributes_are_not_read (js "href=/page/2 rel=next") (js "href")).
  - left. reflexivity.
  - vm_compute. reflexivity.
Defined.

(** *** X5, X6, X7: where the links of [findLink] come from, and its effects *)

(** X5.  A link that [findLink] returns is resolved from text of the
    document itself: the document holds [href] (in any letter case),
    optional white space, [=], optional white space and a non-empty value
    between two quotes of the same kind, and the link is the serialization of
    what the URL parser makes of that value and the base URL. *)
Theorem findLink_href_is_quoted_in_the_document (P : Platform) (html baseUrl : jsstring)
  (d : Direction) (options : FindNextOptions) (u : jsstring) :
  result (findLink html baseUrl d options) = Some u ->
  exists name' ws1 ws2 q href record,
    occurs (name' ++ ws1 ++ js "=" ++ ws2 ++ quoted q href) html
    /\ sameLetters (js "href") name'
    /\ forallb is_space ws1 = true /\ forallb is_space ws2 = true
    /\ (q = squote \/ q = dquote)
    /\ href <> [] /\ forallb noQuote href = true
    /\ URL_new href (Some baseUrl) = inl record
    /\ u = URL.href record.
Proof.
  intros F. apply findLink_found in F. destruct F as [method Hs].
  apply strategies_resolved in Hs. destruct Hs as [a [Ho Hr]].
  apply resolveAndReturn_found in Hr. destruct Hr as (href & record & E & T & U & ->).
  apply extractAttribute_shape in E.
  destruct E as (pre & name' & ws1 & ws2 & q & post & Ea & F & S1 & S2 & Q & NQ).
  exists name', ws1, ws2, q, href, record.
  split.
  { apply occursIn_occurs in Ho. eapply occurs_trans; [|exact Ho].
    exists pre, post. rewrite Ea. rewrite <- !app_assoc. reflexivity. }
  repeat split; auto. apply truthy_nonempty. exact T.
Qed.

(** X5, witness: [<a HREF = '/page/2' rel='next'>Next</a>]. *)
Lemma findLink_href_is_quoted_in_the_document_example :
  let html := js "<a HREF = '/page/2' rel='next'>Next</a>" in
  exists name' ws1 ws2 q href record,
    occurs (name' ++ ws1 ++ js "=" ++ ws2 ++ quoted q href) html
    /\ sameLetters (js "href") name'
    /\ forallb is_space ws1 = true /\ forallb is_space ws2 = true
    /\ (q = squote \/ q = dquote)
    /\ href <> [] /\ forallb noQuote href = true
    /\ URL_new (Platform := Model.online) href (Some exampleBase) = inl record
    /\ js "https://example.com/page/2" = URL.href record.
Proof.
  apply (findLink_href_is_quoted_in_the_document Model.online
           (js "<a HREF = '/page/2' rel='next'>Next</a>") exampleBase next noFindOptions).
  vm_compute. reflexivity.
Defined.

Lemma nil_if_no_member {A} (l : list A) : (forall x, ~ In x l) -> l = [].
Proof. destruct l as [|x l]; [reflexivity|]. intros H. destruct (H x). left. reflexivity. Qed.

(** X6.  In a document without any quote character [findLink] finds
    nothing, whatever the methods, and calls no logger: markup with unquoted
    attribute values is not read. *)
Theorem document_without_quotes_has_no_link (P : Platform) (html baseUrl : jsstring)
  (d : Direction) (options : FindNextOptions) :
  forallb noQuote html = true ->
  findLink html baseUrl d options = (None, []).
Proof.
  intros H.
  assert (Hno : forall a, occursIn html a -> extractAttribute a (js "href") = None).
  { intros a Ho. apply extractAttribute_needs_quote.
    apply occursIn_occurs in Ho. eapply occurs_forallb; eassumption. }
  apply M_eq; cbn [result trace fst snd].
  - destruct (result (findLink html baseUrl d options)) as [u|] eqn:F; [|reflexivity].
    apply findLink_found in F. destruct F as [method Hs].
    apply strategies_resolved in Hs. destruct Hs as [a [Ho Hr]].
    apply resolveAndReturn_found in Hr. destruct Hr as (href & record & E & _).
    rewrite (Hno a Ho) in E. discriminate.
  - apply nil_if_no_member. intros ev Hev.
    apply findLink_events in Hev. destruct Hev as (a & Ho & Hev).
    apply extractAbsoluteHref_events in Hev. destruct Hev as (_ & href & message & E & _).
    rewrite (Hno a Ho) in E. discriminate.
Qed.

(** X6, witness: [<a href=/page/2 rel=next>Next</a>]. *)
Lemma document_without_quotes_has_no_link_example :
  findNext (P := Model.online) (js "<a href=/page/2 rel=next>Next</a>") exampleBase
    withLogger
  = (None, []).
Proof.
  apply (document_without_quotes_has_no_link Model.online
           (js "<a href=/page/2 rel=next>Next</a>") exampleBase next withLogger).
  vm_compute. reflexivity.
Defined.

(** X7.  The only effect of [findLink] is the logger: it sends no request,
    and each of its logger calls is a warning about a non-empty [href] value,
    read from the attribute text of a tag of the document, that the URL
    parser rejects.  Without a logger it has no effect. *)
Theorem findLink_only_warns_about_hrefs (P : Platform) (html baseUrl : jsstring)
  (d : Direction) (options : FindNextOptions) (ev : event) :
  In ev (trace (findLink html baseUrl d options)) ->
  logger options = true
  /\ exists attributes href message,
       occursIn html attributes
       /\ extractAttribute attributes (js "href") = Some href
       /\ href <> []
       /\ URL_new href (Some baseUrl) = inr message
       /\ ev = Logged warn (invalidUrlMessage href baseUrl message).
Proof.
  intros H. apply findLink_events in H. destruct H as (a & Ho & H).
  apply extractAbsoluteHref_events in H. destruct H as (L & href & message & H).
  split; [exact L|]. exists a, href, message. tauto.
Qed.

(** X7, witness: the warning about [<a href="http://invalid url.com">Next</a>]. *)
Lemma findLink_only_warns_about_hrefs_example :
  let ev :=
    Logged warn
      (js "Invalid URL 'http://invalid url.com' for base 'https://example.com': Invalid URL") in
  logger withLogger = true
  /\ exists attributes href message,
       occursIn invalidAnchor attributes
       /\ extractAttribute attributes (js "href") = Some href
       /\ href <> []
       /\ URL_new (Platform := Model.online) href (Some exampleBase) = inr message
       /\ ev = Logged warn (invalidUrlMessage href exampleBase message).
Proof.
  apply (findLink_only_warns_about_hrefs Model.online invalidAnchor exampleBase next
           withLogger).
  vm_compute. left. reflexivity.
Defined.

(** *** X8, X9, X10: what the patterns of the strategies accept *)

(** X8.  A link that the [rel] strategy returns is resolved from a tag whose
    attribute text holds [rel] (in any letter case, and also as the end of a
    longer name), optional white space, [=], optional white space, and a
    quoted value in which [next] (for the other direction [prev] or
    [previous]) stands as a whole word, in any letter case: the characters
    around the word inside the quotes are not word characters. *)
Theorem rel_link_holds_the_word (P : Platform) (html baseUrl : jsstring)
  (d : Direction) (options : BaseOptions) (u : jsstring) :
  result (findLinkByRel html baseUrl (REL d) options) = Some u ->
  exists attributes pre rel' ws1 ws2 q a w b post,
    occurs attributes html
    /\ attributes = pre ++ rel' ++ ws1 ++ js "=" ++ ws2 ++ quoted q (a ++ w ++ b) ++ post
    /\ sameLetters (js "rel") rel'
    /\ forallb is_space ws1 = true /\ forallb is_space ws2 = true
    /\ (q = squote \/ q = dquote)
    /\ forallb noQuote a = true /\ forallb noQuote b = true
    /\ relWord d w
    /\ (forall c, lastOr None a = Some c -> is_word c = false)
    /\ (forall c t, b = c :: t -> is_word c = false)
    /\ result (resolveAndReturn attributes baseUrl options) = Some u.
Proof.
  unfold findLinkByRel. intros H. apply for_of_found in H. destruct H as (x & Hin & H).
  unfold relCandidate in H.
  destruct (truthyGroup attributes x) as [attrs|] eqn:G; [|discriminate].
  destruct (test (REL d) attrs) eqn:T; [|discriminate].
  apply test_true_iff in T. destruct T as (y & E).
  apply exec_matches in E. destruct E as (W & (p0 & e & M & R & _) & _).
  apply rel_matches in M.
  destruct M as (rel' & ws1 & ws2 & q & a & w & b & Rs & F & S1 & S2 & Q & Na & Nb & Hw & B1 & B2).
  cbn [rest] in Rs.
  exists attrs, (m_before y), rel', ws1, ws2, q, a, w, b, (rest e).
  split.
  { apply occursIn_occurs. left. exists POTENTIAL_LINK_TAGS, x. auto. }
  split; [rewrite <- W, Rs; reflexivity|].
  repeat split; auto.
Qed.

(** X8, witness: [<link data-rel='prev NEXT page' href='/page/2'>]. *)
Lemma rel_link_holds_the_word_example :
  let html := js "<link data-rel='prev NEXT page' href='/page/2'>" in
  exists attributes pre rel' ws1 ws2 q a w b post,
    occurs attributes html
    /\ attributes = pre ++ rel' ++ ws1 ++ js "=" ++ ws2 ++ quoted q (a ++ w ++ b) ++ post
    /\ sameLetters (js "rel") rel'
    /\ forallb is_space ws1 = true /\ forallb is_space ws2 = true
    /\ (q = squote \/ q = dquote)
    /\ forallb noQuote a = true /\ forallb noQuote b = true
    /\ relWord next w
    /\ (forall c, lastOr None a = Some c -> is_word c = false)
    /\ (forall c t, b = c :: t -> is_word c = false)
    /\ result (resolveAndReturn (P := Model.online) attributes exampleBase noOptions)
       = Some (js "https://example.com/page/2").
Proof.
  apply (rel_link_holds_the_word Model.online
           (js "<link data-rel='prev NEXT page' href='/page/2'>") exampleBase next noOptions).
  vm_compute. reflexivity.
Defined.

(** A word that only holds [next] does not count. *)
Example rel_needs_the_whole_word :
  findNext (P := Model.online) (js "<link rel='nextpage' href='/page/2'>") exampleBase
    (onlyMethods [rel])
  = (None, []).
Proof. vm_compute. reflexivity. Qed.

(** X9.  The built-in class name pattern is a test for a piece of text: it
    accepts exactly the texts that hold [next] (for the other direction
    [prev]) somewhere, in any letter case, word or not; the alternative
    [previous] adds nothing. *)
Theorem className_is_a_substring_test (d : Direction) (s : jsstring) :
  test (CLASS_NAME d) s = true
  <-> exists a w b,
        s = a ++ w ++ b
        /\ sameLetters (match d with next => js "next" | prev => js "prev" end) w.
Proof.
  destruct d.
  - apply (test_literal (js "next")). discriminate.
  - rewrite <- (test_literal (js "prev")) by discriminate.
    rewrite !test_true_iff. split.
    + intros (x & E). apply exec_matches in E.
      destruct E as (W & (p0 & e & M & R & _) & _).
      cbn [CLASS_NAME re_flags re_body] in M.
      assert (T : test (Re f_i (LitS (js "prev"))) s = true).
      { apply (test_literal (js "prev")); [discriminate|].
        apply matches_Alt_inv in M. destruct M as [M1|M1].
        - apply (matches_LitS f_i (js "prev")) in M1. destruct M1 as (w' & Rw & F & _).
          cbn [rest] in Rw. exists (m_before x), w', (rest e).
          split; [rewrite <- W, Rw; reflexivity | exact F].
        - apply (matches_LitS f_i (js "previous")) in M1. destruct M1 as (w' & Rw & F & _).
          cbn [rest] in Rw.
          change (js "previous") with (js "prev" ++ js "ious") in F.
          apply Forall2_app_inv_l in F. destruct F as (w1 & w2 & F1 & F2 & Ew).
          exists (m_before x), w1, (w2 ++ rest e).
          split; [rewrite <- W, Rw, Ew, <- app_assoc; reflexivity | exact F1]. }
      apply test_true_iff. exact T.
    + intros (x & E).
      destruct (exec (CLASS_NAME prev) s) as [y|] eqn:E'; [exists y; reflexivity|].
      apply exec_matches in E. destruct E as (W & (p0 & e & M & R & _) & _).
      cbn [re_flags re_body] in M. apply matches_LitS in M. destruct M as (w' & Rw & F & _).
      cbn [rest] in Rw. unfold exec in E'. rewrite <- W, Rw in E'.
      apply search_none in E'. cbn [CLASS_NAME re_flags re_body m] in E'.
      change (Lit "prev") with (LitS (js "prev")) in E'.
      rewrite (m_LitS_folded f_i (js "prev") w' Some _ _ [] F) in E'. discriminate.
Qed.

(** The class [unextended] holds [next]. *)
Example class_name_inside_a_word :
  findNext (P := Model.online) (js "<a class='unextended' href='/faq'>FAQ</a>") exampleBase
    (onlyMethods [className])
  = (Some (js "https://example.com/faq"), []).
Proof. vm_compute. reflexivity. Qed.

(** X10.  The phrase [older], in any letter case, is accepted by the phrase
    pattern of both directions: an anchor whose cleaned text is [older] is a
    candidate of the text strategy of [findNext] and of [findPrev] alike, and
    both resolve its [href]. *)
Theorem older_is_next_and_prev (P : Platform) (baseUrl : jsstring) (options : BaseOptions)
  (x : rmatch) (attrs inner : jsstring) :
  truthyGroup attributes x = Some attrs ->
  truthyGroup innerText x = Some inner ->
  sameLetters (js "older") (cleanText inner) ->
  test (TEXT next) (cleanText inner) = true
  /\ test (TEXT prev) (cleanText inner) = true
  /\ textCandidate baseUrl (TEXT next) options x = resolveAndReturn attrs baseUrl options
  /\ textCandidate baseUrl (TEXT prev) options x = resolveAndReturn attrs baseUrl options.
Proof.
  intros Ga Gi F. destruct (older_both _ F) as [Tn Tp].
  assert (T : truthy (cleanText inner) = true).
  { destruct (cleanText inner); [inversion F | reflexivity]. }
  split; [exact Tn|]. split; [exact Tp|].
  unfold textCandidate. rewrite Ga, Gi. cbv zeta. rewrite T, Tn, Tp. split; reflexivity.
Qed.

(** X10, witness: the anchor [<a href='/archive'><b>Older</b> &raquo;</a>]. *)
Lemma older_is_next_and_prev_example :
  let x := RMatch [] (js "<a href='/archive'><b>Older</b> &raquo;</a>") [] (Some 62%N)
             [(innerText, js "<b>Older</b> &raquo;"); (attributes, js "href='/archive'")] in
  matchAll ANCHOR_TAG (js "<a href='/archive'><b>Older</b> &raquo;</a>") = [x]
  /\ textCandidate (P := Model.online) exampleBase (TEXT next) noOptions x
     = (Some (js "https://example.com/archive"), [])
  /\ textCandidate (P := Model.online) exampleBase (TEXT prev) noOptions x
     = (Some (js "https://example.com/archive"), []).
Proof.
  intros x. split; [vm_compute; reflexivity|].
  destruct (older_is_next_and_prev Model.online exampleBase noOptions x
              (js "href='/archive'") (js "<b>Older</b> &raquo;")) as (_ & _ & A & B).
  - reflexivity.
  - reflexivity.
  - vm_compute. repeat constructor.
  - rewrite A, B. split; vm_compute; reflexivity.
Defined.

(** The same anchor as a document. *)
Example older_in_both_directions :
  let html := js "<a href='/archive'><b>Older</b> &raquo;</a>" in
  findNext (P := Model.online) html exampleBase noFindOptions
  = (Some (js "https://example.com/archive"), [])
  /\ findPrev (P := Model.online) html exampleBase noFindOptions
     = (Some (js "https://example.com/archive"), []).
Proof. vm_compute. split; reflexivity. Qed.

(** *** X11, X12: the effects of URL pattern inference *)

(** X11.  For a URL that the URL parser rejects, [findNextByUrl] and
    [findPrevByUrl] return null without a request, and do not throw; each of
    the two detections reports the URL on its own, so a logger receives two
    warnings, that of query-parameter detection first. *)
Theorem invalid_url_is_reported_by_both_detections (P : Platform) (url : jsstring)
  (d : Direction) (options : BaseOptions) (message : jsstring) :
  URL_new url None = inr message ->
  findUrlByPattern url d options
  = (None,
     if logger options
     then [Logged warn (js "Invalid URL provided to findUrlByQueryParam: " ++ message);
           Logged warn (js "Invalid URL provided to findUrlByPathSegment: " ++ message)]
     else []).
Proof.
  intros U. unfold findUrlByPattern, findUrlByQueryParam, findUrlByPathSegment.
  rewrite U. unfold log. destruct (logger options); reflexivity.
Qed.

(** X11, witness: the text [not a url]. *)
Lemma invalid_url_is_reported_by_both_detections_example :
  findNextByUrl (P := Model.online) (js "not a url") withLogger
  = (None,
     [Logged warn (js "Invalid URL provided to findUrlByQueryParam: " ++ Model.invalid);
      Logged warn (js "Invalid URL provided to findUrlByPathSegment: " ++ Model.invalid)]).
Proof.
  apply (invalid_url_is_reported_by_both_detections Model.online (js "not a url") next
           withLogger Model.invalid).
  vm_compute. reflexivity.
Defined.

(** X12.  With [verifyExists: false], [findNextByUrl] and [findPrevByUrl]
    send no request.  Otherwise a URL they return has been confirmed: the
    HEAD request for this very URL was the last effect and was answered with
    an ok status.  In either case at most two requests are sent, one for the
    candidate of each detection. *)
Theorem inferred_url_has_been_probed (P : Platform) (url : jsstring) (d : Direction)
  (options : BaseOptions) :
  let run := findUrlByPattern url d options in
  (verifyExists options = Some false ->
   forallb (fun ev => negb (isProbe ev)) (trace run) = true)
  /\ (verifyExists options <> Some false ->
      forall u, result run = Some u ->
                HEAD_ok u = true /\ exists before, trace run = before ++ [Head u])
  /\ length (filter isProbe (trace run)) <= 2.
Proof.
  intros run. subst run. rewrite findUrlByPattern_unfold.
  pose proof (detection_cases url d options _ (or_introl eq_refl)) as Q.
  pose proof (detection_cases url d options _ (or_intror eq_refl)) as S.
  rewrite findUrlByPathSegment_truthy.
  set (q := findUrlByQueryParam url d options) in *.
  set (p := findUrlByPathSegment url d options) in *.
  assert (V : forall c,
             (verifyExists options = Some false ->
              verifiedCandidate c options = (Some c, []))
             /\ (verifyExists options <> Some false ->
                 verifiedCandidate c options
                 = (if HEAD_ok c then Some c else None, [Head c]))).
  { intros c. rewrite verifiedCandidate_cases.
    destruct (verifyExists options) as [[|]|]; split; intros H;
      try reflexivity; try discriminate; congruence. }
  assert (F : forall (t : list event),
             forallb (fun ev => negb (isProbe ev)) t = true -> filter isProbe t = []).
  { induction t as [|ev t IH]; [reflexivity|]. cbn [forallb filter].
    destruct (isProbe ev); [discriminate|]. exact IH. }
  assert (Q' : forall (x : M (option jsstring)),
             (result x = None /\ forallb (fun ev => negb (isProbe ev)) (trace x) = true)
             \/ (exists c, x = verifiedCandidate c options) ->
             (verifyExists options = Some false ->
              forallb (fun ev => negb (isProbe ev)) (trace x) = true)
             /\ (verifyExists options <> Some false ->
                 forall u, result x = Some u ->
                           HEAD_ok u = true /\ trace x = [Head u])
             /\ length (filter isProbe (trace x)) <= 1).
  { intros x [[R T]|[c ->]].
    - split; [intros _; exact T|]. split; [intros _ u H; congruence|].
      rewrite (F _ T). cbn. lia.
    - destruct (V c) as [V1 V2]. split; [intros H; rewrite (V1 H); reflexivity|].
      split.
      + intros H u. rewrite (V2 H). cbn [result trace fst snd].
        destruct (HEAD_ok c) eqn:E; [|discriminate]. intros Hu. inversion Hu; subst u. auto.
      + rewrite verifiedCandidate_cases. destruct (verifyExists options) as [[|]|]; cbn; lia. }
  destruct (Q' q Q) as (Q1 & Q2 & Q3). destruct (Q' p S) as (S1 & S2 & S3).
  destruct (result q) as [c|] eqn:Rq; cbn [result trace fst snd].
  - split; [exact Q1|]. split.
    + intros H u Hu. inversion Hu; subst c. destruct (Q2 H u eq_refl) as [A B].
      split; [exact A|]. exists []. exact B.
    + lia.
  - split.
    + intros H. rewrite forallb_app, (Q1 H), (S1 H). reflexivity.
    + split.
      * intros H u Hu. destruct (S2 H u Hu) as [A B].
        split; [exact A|]. exists (trace q). rewrite B. reflexivity.
      * rewrite filter_app, length_app. lia.
Qed.

(** Two requests: the candidate of the query is not confirmed, the
    candidate of the path is. *)
Example two_probes :
  findNextByUrl
    (P := Model.platform (fun u => eqs u (js "https://example.com/archive/3?page=1")))
    (js "https://example.com/archive/2?page=1") noOptions
  = (Some (js "https://example.com/archive/3?page=1"),
     [Head (js "https://example.com/archive/2?page=2");
      Head (js "https://example.com/archive/3?page=1")]).
Proof. vm_compute. reflexivity. Qed.

(** *** X13: forward and back *)

(** X13.  Going forward and then back over a page parameter ends at the
    page it started from: when the URL has a target parameter with a positive
    value [n], candidates are accepted and the URL parser reads the forward
    candidate back as the record it was written from, then [findNextByUrl]
    returns the URL with the parameter at [n + 1], and [findPrevByUrl] of
    that returns the URL with the parameter at [n], which is the input itself
    when the input was written the way the serializer writes it. *)
Theorem prev_undoes_next_on_the_query (P : Platform) (url : jsstring) (u : URL.t)
  (options : BaseOptions) (key : jsstring) (n : Z) :
  URL_new url None = inl u ->
  findTarget (URLSearchParams.ofURL u) pageKeys = Some (key, n) ->
  (0 < n)%Z -> Number.safe (n + 1) ->
  (forall candidate, result (verified candidate options) = true) ->
  let forward := queryCandidate u key (n + 1) in
  URL_new forward None
  = inl (URLSearchParams.update u
           (URLSearchParams.set (URLSearchParams.ofURL u) key (Number.String (n + 1)))) ->
  result (findNextByUrl url options) = Some forward
  /\ result (findPrevByUrl forward options) = Some (queryCandidate u key n)
  /\ (url = queryCandidate u key n ->
      result (findPrevByUrl forward options) = Some url).
Proof.
  intros U T Hn _ V forward U'.
  assert (Q : forall url0 u0 d m,
             URL_new url0 None = inl u0 ->
             findTarget (URLSearchParams.ofURL u0) pageKeys = Some (key, m) ->
             (0 < adjacent d m)%Z ->
             result (findUrlByPattern url0 d options)
             = Some (queryCandidate u0 key (adjacent d m))).
  { intros url0 u0 d m U0 T0 Hm. rewrite findUrlByPattern_unfold.
    rewrite (findUrlByQueryParam_parsed url0 u0 d options U0).
    rewrite <- findTarget_specTarget, T0.
    replace (adjacent d m <=? 0)%Z with false by (symmetry; apply Z.leb_gt; exact Hm).
    unfold verifiedCandidate. rewrite result_bind, V. reflexivity. }
  assert (F : result (findPrevByUrl forward options) = Some (queryCandidate u key n)).
  { unfold findPrevByUrl. rewrite (Q forward _ prev (n + 1)%Z U').
    - cbn [adjacent]. replace (n + 1 - 1)%Z with n by lia.
      pose proof (queryCandidate_again u key n (n + 1)%Z n T) as G.
      cbv zeta in G. rewrite G. reflexivity.
    - rewrite update_set. rewrite (rewritten_query_parses_back u key n (n + 1)%Z T).
      apply (findTarget_set _ _ _ n); [exact T | apply NumberFacts.String_truthy|].
      apply NumberFacts.parseInt_String. lia.
    - cbn [adjacent]. lia. }
  split; [|split].
  - unfold findNextByUrl. rewrite (Q url u next n U T); [reflexivity|]. cbn [adjacent]. lia.
  - exact F.
  - intros ->. exact F.
Qed.

(** X13, witness: [https://example.com/list?q=a+b&page=2], forward to page 3
    and back. *)
Lemma prev_undoes_next_on_the_query_example :
  let url := js "https://example.com/list?q=a+b&page=2" in
  result (findNextByUrl (P := Model.online) url noOptions)
  = Some (js "https://example.com/list?q=a+b&page=3")
  /\ result (findPrevByUrl (P := Model.online) (js "https://example.com/list?q=a+b&page=3")
               noOptions)
     = Some url.
Proof.
  intros url.
  pose (u := URL.Make (js "https") [] [] (Some (js "example.com")) None
               (URL.Segments [js "list"]) (Some (js "q=a+b&page=2")) None).
  destruct (prev_undoes_next_on_the_query Model.online url u noOptions (js "page") 2)
    as (A & _ & C).
  - vm_compute. reflexivity.
  - vm_compute. reflexivity.
  - lia.
  - unfold Number.safe. vm_compute. reflexivity.
  - intros candidate. reflexivity.
  - vm_compute. reflexivity.
  - split; [exact A|]. apply C. vm_compute. reflexivity.
Defined.

(** *** X14: a URL without a tuple origin *)

(** X14.  Path-segment detection writes its candidate after
    [urlObject.origin].  For a URL whose scheme is none of [http], [https],
    [ftp], [ws], [wss] and [blob] that origin is the text [null]: the
    candidate is [null] followed by the new path, the query string and the
    fragment, which is not a URL, and with [verifyExists: false] that text is
    what [findNextByUrl] and [findPrevByUrl] return. *)
Theorem path_candidate_of_an_opaque_origin (P : Platform) (url : jsstring) (u : URL.t)
  (d : Direction) (options : BaseOptions) (prefix digits : jsstring) :
  URL_new url None = inl u ->
  eqs (URL.scheme u) (js "blob") = false ->
  URL.isSpecial (URL.scheme u) = false ->
  findTarget (URLSearchParams.ofURL u) pageKeys = None ->
  pagePath (stripTrailingSlash (URL.pathname u)) prefix digits ->
  Number.safe (Number.digitsValue digits) ->
  (0 < adjacent d (Number.digitsValue digits))%Z ->
  let candidate :=
    js "null" ++ (prefix ++ Number.String (adjacent d (Number.digitsValue digits)))
    ++ URL.search u ++ URL.hash u in
  findUrlByPattern url d options = verifiedCandidate candidate options
  /\ (verifyExists options = Some false ->
      findUrlByPattern url d options = (Some candidate, [])).
Proof.
  intros U B S T Hp _ Hn candidate.
  assert (E : findUrlByPattern url d options = verifiedCandidate candidate options).
  { rewrite findUrlByPattern_unfold.
    rewrite (findUrlByQueryParam_parsed url u d options U), <- findTarget_specTarget, T.
    cbn [ret result trace fst snd app].
    rewrite findUrlByPathSegment_truthy.
    rewrite (findUrlByPathSegment_parsed url u d options U).
    apply splitFrom_pagePath in Hp. rewrite Hp.
    replace (adjacent d (Number.digitsValue digits) <=? 0)%Z with false
      by (symmetry; apply Z.leb_gt; exact Hn).
    unfold pathCandidate, origin. rewrite B, S.
    destruct (verifiedCandidate _ options). reflexivity. }
  split; [exact E|].
  intros V. rewrite E, verifiedCandidate_cases, V. reflexivity.
Qed.

(** X14, witness: [file:///docs/page/2], read by the URL parser as the
    scheme [file] with an empty host and the path [/docs/page/2]. *)
Lemma path_candidate_of_an_opaque_origin_example :
  let record := URL.Make (js "file") [] [] (Some []) None
                  (URL.Segments [js "docs"; js "page"; js "2"]) None None in
  URL.href record = js "file:///docs/page/2"
  /\ findNextByUrl (P := withURL Model.online (js "file:///docs/page/2") record)
       (js "file:///docs/page/2") unverified
     = (Some (js "null/docs/page/3"), []).
Proof.
  intros record. split; [vm_compute; reflexivity|].
  refine (proj2 (path_candidate_of_an_opaque_origin
                   (withURL Model.online (js "file:///docs/page/2") record)
                   (js "file:///docs/page/2") record next unverified
                   (js "/docs/page/") (js "2") _ _ _ _ _ _ _) _).
  - vm_compute. reflexivity.
  - reflexivity.
  - reflexivity.
  - vm_compute. reflexivity.
  - unfold pagePath. split; [vm_compute; reflexivity|]. split; [discriminate|].
    split; [reflexivity|]. exists (js "/docs/page"), 47%N.
    split; [reflexivity|]. split; reflexivity.
  - unfold Number.safe. vm_compute. reflexivity.
  - vm_compute. reflexivity.
  - reflexivity.
Defined.

(** *** X15, X16: the pagination container and the image of the alt strategy *)

(** X15.  The inner markup that the pagination strategy takes from a
    container ends at the first closing [div], [nav] or [ul] tag after the
    opening tag of the container, whatever element that tag closes: the
    matched text is an opening part, the inner markup and a closing tag, and
    the inner markup holds no closing [div], [nav] or [ul] tag, in any
    letter case.  What follows a nested block inside the container is not
    looked at. *)
Theorem pagination_container_ends_at_the_first_closing_tag (html : jsstring) (x : rmatch)
  (c : jsstring) :
  In x (matchAll PAGINATION_CONTAINER html) ->
  group containerHtml x = Some c ->
  (exists opening w, m_text x = opening ++ c ++ w /\ closingTag w)
  /\ forall w', closingTag w' -> ~ occurs w' c.
Proof.
  intros Hin G. apply matchAll_run in Hin. destruct Hin as (p0 & e & M & R & C).
  apply container_at in M. destruct M as (opening & c' & w & Rs & Gc & Cw & Min).
  cbn [rest] in Rs. unfold group in G. rewrite <- C, Gc in G. inversion G; subst c'.
  split; [|exact Min]. exists opening, w. split; [|exact Cw].
  apply (app_inv_tail (m_after x)). rewrite Rs, R, <- !app_assoc. reflexivity.
Qed.

(** X15, witness: a container that starts with a nested [div]. *)
Lemma pagination_container_ends_at_the_first_closing_tag_example :
  let html :=
    js "<div class='pagination'><div class='info'>Page 1</div><span class='current'>1</span> <a href='/2'>2</a></div>" in
  let x := RMatch [] (js "<div class='pagination'><div class='info'>Page 1</div>")
             (js "<span class='current'>1</span> <a href='/2'>2</a></div>") (Some 62%N)
             [(containerHtml, js "<div class='info'>Page 1")] in
  matchAll PAGINATION_CONTAINER html = [x]
  /\ (exists opening w,
        m_text x = opening ++ js "<div class='info'>Page 1" ++ w /\ closingTag w)
  /\ forall w', closingTag w' -> ~ occurs w' (js "<div class='info'>Page 1").
Proof.
  intros html x.
  assert (E : matchAll PAGINATION_CONTAINER html = [x]) by (vm_compute; reflexivity).
  split; [exact E|].
  apply (pagination_container_ends_at_the_first_closing_tag html x).
  - rewrite E. left. reflexivity.
  - reflexivity.
Defined.

(** The same pagination with and without the nested block before it. *)
Example nested_block_hides_the_links :
  findNext (P := Model.online)
    (js "<div class='pagination'><span class='current'>1</span> <a href='/2'>2</a></div>")
    exampleBase (onlyMethods [pagination])
  = (Some (js "https://example.com/2"), [])
  /\ findNext (P := Model.online)
       (js "<div class='pagination'><div class='info'>Page 1</div><span class='current'>1</span> <a href='/2'>2</a></div>")
       exampleBase (onlyMethods [pagination])
     = (None, []).
Proof. vm_compute. split; reflexivity. Qed.



(** *** Character references in the text of a link *)

Lemma letter_class x :
  in_class f_i false [Range 97 122] x = isLetter x.
Proof.
  unfold in_class, isLetter. cbn [existsb in_item xorb ignoreCase f_i andb].
  rewrite orb_false_r. fold (is_lower x). fold (is_lower (swapcase x)).
  unfold swapcase, is_lower, is_upper, in_range.
  destruct ((97 <=? x) && (x <=? 122))%N eqn:L; [reflexivity|]. cbn [orb].
  destruct ((65 <=? x) && (x <=? 90))%N eqn:U.
  - apply andb_prop in U. destruct U as [U1 U2].
    apply N.leb_le in U1. apply N.leb_le in U2.
    apply andb_true_intro. split; apply N.leb_le; lia.
  - exact L.
Qed.

Lemma search_nothing fl c0 t R g st before pv s :
  (forall x, In x s -> eqc fl c0 x = false) ->
  search (MkRegExp fl (Seq (LitS (c0 :: t)) R) g st) before pv s = None.
Proof.
  intros H. rewrite <- (app_nil_r s). rewrite search_skip_literal by exact H.
  rewrite search_eq. cbn [re_flags re_body]. rewrite m_Seq. reflexivity.
Qed.

Lemma removeAll_without_tags s :
  forallb (fun x => negb (x =? 60)%N) s = true -> removeAll HTML_TAGS s = s.
Proof.
  intros H. unfold removeAll, matchAll. cbn [matchAll_from].
  change HTML_TAGS
    with (ReG f_plain (Seq (LitS [60%N]) (Seq (Plus true notgt) (Seq (Lit ">") Eps)))).
  rewrite search_nothing; [reflexivity|].
  intros x Hx. rewrite forallb_forall in H. specialize (H x Hx).
  unfold eqc. cbn [ignoreCase f_plain]. rewrite N.eqb_sym.
  apply negb_true_iff. exact H.
Qed.

Lemma letter_not c : isLetter c = true -> c <> 60%N /\ c <> 59%N /\ c <> 38%N.
Proof.
  unfold isLetter, is_lower, is_upper, in_range. intros H.
  apply orb_prop in H. destruct H as [H|H]; apply andb_prop in H; destruct H as [H1 H2];
    apply N.leb_le in H1; apply N.leb_le in H2; lia.
Qed.

Lemma m_Alt f r1 r2 k s :
  m f (Alt r1 r2) k s
  = match m f r1 k s with
    | Some e => Some e
    | None => m f r2 k s
    end.
Proof. reflexivity. Qed.

(** A named character reference is one match of [HTML_ENTITIES]. *)
Lemma entity_at name pv :
  name <> [] -> forallb isLetter name = true ->
  m f_i (re_body HTML_ENTITIES) Some (MState pv (js "&" ++ name ++ js ";") [])
  = Some (MState (Some 59%N) [] []).
Proof.
  intros Hn Hl. unfold HTML_ENTITIES, re_body, Alts. rewrite m_Alt.
  replace (m f_i (Cat [Lit "&"; Plus true (Cls false [Range 97 122]); Lit ";"]) Some
             (MState pv (js "&" ++ name ++ js ";") []))
    with (Some (MState (Some 59%N) [] [])); [reflexivity|].
  symmetry. unfold Cat, fold_right, Plus. rewrite m_Seq.
  change (Lit "&") with (LitS (js "&")). rewrite (m_LitS f_i (js "&")) by discriminate.
  destruct name as [|c name]; [congruence|]. cbn [forallb] in Hl.
  apply andb_prop in Hl. destruct Hl as [Hc Hl].
  rewrite !m_Seq, m_Cls. unfold single. cbn [app rest]. rewrite letter_class, Hc.
  unfold step. cbn [caps].
  rewrite (m_Star_greedy f_i _ (in_class f_i false [Range 97 122]))
    by (intros; apply m_Cls).
  cbn [behind caps rest].
  apply greedyRun_longest.
  - rewrite <- Hl. apply forallb_same. intros x. apply letter_class.
  - reflexivity.
  - reflexivity.
Qed.

Lemma removeAll_entity name :
  name <> [] -> forallb isLetter name = true ->
  removeAll HTML_ENTITIES (js "&" ++ name ++ js ";") = [].
Proof.
  intros Hn Hl. unfold removeAll, matchAll. cbn [matchAll_from].
  rewrite search_eq, entity_at by assumption.
  cbn [rest behind caps m_text m_after m_before m_last length].
  rewrite Nat.sub_0_r, firstn_all.
  destruct (js "&" ++ name ++ js ";") as [|c t] eqn:E; [discriminate|].
  rewrite <- E.
  assert (Hrest : forall n b p, matchAll_from n HTML_ENTITIES b p [] = []).
  { intros [|n] b p; reflexivity. }
  rewrite Hrest. cbn [between rev m_before m_text skipn app length].
  rewrite Nat.add_0_l. apply skipn_all.
Qed.

Lemma cleanText_entity name :
  name <> [] -> forallb isLetter name = true ->
  cleanText (js "&" ++ name ++ js ";") = [].
Proof.
  intros Hn Hl. unfold cleanText.
  rewrite removeAll_without_tags; [rewrite removeAll_entity by assumption; reflexivity|].
  rewrite !forallb_app. cbn [js forallb]. rewrite andb_true_r.
  cbn. rewrite forallb_forall. intros x Hx.
  rewrite forallb_forall in Hl. apply Hl in Hx. apply letter_not in Hx.
  apply negb_true_iff, N.eqb_neq. tauto.
Qed.

(** *** X17, X18: the text of a link, and the id of an anchor *)

(** X17.  The text strategy deletes character references, it does not
    decode them: the cleaned text of a link whose text is one named
    reference, [&] followed by letters and [;], is empty, and the anchor is
    passed over whatever the phrase pattern is; so [&raquo;] is not read as
    the phrase [»]. *)
Theorem character_references_are_deleted (P : Platform) (baseUrl : jsstring)
  (textRegex : RegExp) (options : BaseOptions) (x : rmatch) (name : jsstring) :
  group innerText x = Some (js "&" ++ name ++ js ";") ->
  name <> [] -> forallb isLetter name = true ->
  cleanText (js "&" ++ name ++ js ";") = []
  /\ textCandidate baseUrl textRegex options x = ret None.
Proof.
  intros G Hn Hl. pose proof (cleanText_entity name Hn Hl) as C.
  split; [exact C|]. unfold textCandidate, truthyGroup at 2. rewrite G.
  destruct (truthyGroup attributes x); [|reflexivity].
  replace (truthy (js "&" ++ name ++ js ";")) with true by reflexivity.
  cbv zeta. rewrite C. reflexivity.
Qed.

(** X17, witness: the anchor [<a href='/page/2'>&raquo;</a>]. *)
Lemma character_references_are_deleted_example :
  let x := RMatch [] (js "<a href='/page/2'>&raquo;</a>") [] (Some 62%N)
             [(innerText, js "&raquo;"); (attributes, js "href='/page/2'")] in
  matchAll ANCHOR_TAG (js "<a href='/page/2'>&raquo;</a>") = [x]
  /\ cleanText (js "&raquo;") = []
  /\ textCandidate (P := Model.online) exampleBase (TEXT next) noOptions x = ret None.
Proof.
  intros x. split; [vm_compute; reflexivity|].
  apply (character_references_are_deleted Model.online exampleBase (TEXT next) noOptions x
           (js "raquo")).
  - reflexivity.
  - discriminate.
  - reflexivity.
Defined.

(** The character [»] itself, and its reference. *)
Example reference_is_not_the_character :
  findNext (P := Model.online) (js "<a href='/page/2'>" ++ [0xbb%N] ++ js "</a>") exampleBase
    (onlyMethods [text])
  = (Some (js "https://example.com/page/2"), [])
  /\ findNext (P := Model.online) (js "<a href='/page/2'>&raquo;</a>") exampleBase
       (onlyMethods [text])
     = (None, []).
Proof. vm_compute. split; reflexivity. Qed.



(** A class that holds [next] under a custom pattern that asks for
    [forward]. *)
Example custom_pattern_replaces_the_class_test :
  findNext (P := Model.online) (js "<a class='next' href='/page/2'>2</a>") exampleBase
    (Build_FindNextOptions noOptions (Some [className]) (Some (Re f_i (Lit "forward"))))
  = (None, [])
  /\ findNext (P := Model.online) (js "<a class='next' href='/page/2'>2</a>") exampleBase
       (onlyMethods [className])
     = (Some (js "https://example.com/page/2"), []).
Proof. vm_compute. split; reflexivity. Qed.
